(** * SQL canonicalizer (sql_canonicalizer.py): shallow embedding

    Python [str] values are modelled as lists of 8-bit characters, read as
    the code points 0..255; character classes follow Python's Unicode tables
    on that range.  Loops are modelled with explicit indices and fuel, the
    fuel being shown sufficient ([split_loop_exits], [star_loop_fuel],
    [sub_loop_fuel], [finditer_loop_fuel]).  Regular expressions are run by a
    backtracking matcher with Python's priorities (leftmost match, ordered
    alternatives, greedy repetition).  Replacement strings are taken
    literally: the names and type tags of a schema hold no backslash.  The
    order in which a Python [set] is iterated is a parameter ([set_order]),
    since it depends on the interpreter's string hashes.  The schema loader
    is modelled from the rows [csv.DictReader] hands over. *)

From Stdlib Require Import Ascii String List Arith Lia Bool PeanoNat Permutation DecimalString.
From Stdlib Require Import DecimalNat Sorted.
Import ListNotations.

Set Implicit Arguments.

Open Scope string_scope.
Open Scope list_scope.
Open Scope nat_scope.

(** ** Text *)

Definition str := list ascii.

(** String literals of the source are written ["..."] and read through [s]. *)
Definition s (x : string) : str := list_ascii_of_string x.

Fixpoint str_eqb (a b : str) : bool :=
  match a, b with
  | [], [] => true
  | x :: a', y :: b' => Ascii.eqb x y && str_eqb a' b'
  | _, _ => false
  end.

(** Python slice [t[a:b]] for [a <= b]. *)
Definition slice (t : str) (a b : nat) : str := firstn (b - a) (skipn a t).

(** [t[i] == c], false outside the string. *)
Definition is_at (t : str) (i : nat) (c : ascii) : bool :=
  match nth_error t i with
  | Some x => Ascii.eqb x c
  | None => false
  end.

Definition nl : ascii := "010"%char.
Definition squote : ascii := "'"%char.
Definition dquote : ascii := "034"%char.
Definition backslash : ascii := "\"%char.

(** ** Segmenter: [_split_comments] *)

Record scanner := mkScanner {
  sc_i : nat;
  sc_in_single : bool;
  sc_in_double : bool;
  sc_code_start : nat;
  sc_segments : list (bool * str)
}.

(** [while i < n and sql[i] != "\n": i += 1] *)
Fixpoint skip_line (fuel : nat) (sql : str) (i : nat) : nat :=
  match fuel with
  | O => i
  | S f =>
      if (i <? length sql) && negb (is_at sql i nl)
      then skip_line f sql (i + 1) else i
  end.

(** [while i < n - 1 and sql[i : i + 2] != "*/": i += 1] *)
Fixpoint skip_block (fuel : nat) (sql : str) (i : nat) : nat :=
  match fuel with
  | O => i
  | S f =>
      if (i <? length sql - 1) && negb (str_eqb (slice sql i (i + 2)) (s "*/"))
      then skip_block f sql (i + 1) else i
  end.

(** [if i > code_start: segments.append((False, sql[code_start:i]))] *)
Definition flush_code (sql : str) (st : scanner) : list (bool * str) :=
  if sc_code_start st <? sc_i st
  then sc_segments st ++ [(false, slice sql (sc_code_start st) (sc_i st))]
  else sc_segments st.

(** One iteration of the [while i < n] loop. *)
Definition split_step (sql : str) (st : scanner) : scanner :=
  let n := length sql in
  let i := sc_i st in
  if sc_in_single st then
    if is_at sql i squote && ((n <=? i + 1) || negb (is_at sql (i + 1) squote))
    then mkScanner (i + 1) false (sc_in_double st) (sc_code_start st) (sc_segments st)
    else if is_at sql i backslash
    then mkScanner (i + 1 + 1) true (sc_in_double st) (sc_code_start st) (sc_segments st)
    else mkScanner (i + 1) true (sc_in_double st) (sc_code_start st) (sc_segments st)
  else if sc_in_double st then
    if is_at sql i dquote && ((n <=? i + 1) || negb (is_at sql (i + 1) dquote))
    then mkScanner (i + 1) false false (sc_code_start st) (sc_segments st)
    else if is_at sql i backslash
    then mkScanner (i + 1 + 1) false true (sc_code_start st) (sc_segments st)
    else mkScanner (i + 1) false true (sc_code_start st) (sc_segments st)
  else if (i + 2 <=? n) && str_eqb (slice sql i (i + 2)) (s "--") then
    let segs := flush_code sql st in
    let j := skip_line n sql (i + 2) in
    let j' := if j <? n then j + 1 else j in
    mkScanner j' false false j' (segs ++ [(true, slice sql i j')])
  else if (i + 2 <=? n) && str_eqb (slice sql i (i + 2)) (s "/*") then
    let segs := flush_code sql st in
    let j := skip_block n sql (i + 2) in
    let j' := if j <? n - 1 then j + 2 else n in
    mkScanner j' false false j' (segs ++ [(true, slice sql i j')])
  else if is_at sql i squote && negb (sc_in_double st)
  then mkScanner (i + 1) true (sc_in_double st) (sc_code_start st) (sc_segments st)
  else if is_at sql i dquote && negb (sc_in_single st)
  then mkScanner (i + 1) (sc_in_single st) true (sc_code_start st) (sc_segments st)
  else mkScanner (i + 1) (sc_in_single st) (sc_in_double st) (sc_code_start st) (sc_segments st).

(** The [while i < n] loop. *)
Fixpoint split_loop (fuel : nat) (sql : str) (st : scanner) : scanner :=
  match fuel with
  | O => st
  | S f => if sc_i st <? length sql then split_loop f sql (split_step sql st) else st
  end.

Definition split_init : scanner := mkScanner 0 false false 0 [].

(** The scanner at loop exit: every iteration advances [i], so [len(sql)]
    iterations are enough (see [split_loop_exits]). *)
Definition split_final (sql : str) : scanner := split_loop (length sql) sql split_init.

Definition _split_comments (sql : str) : list (bool * str) :=
  let st := split_final sql in
  if sc_code_start st <? length sql
  then sc_segments st ++ [(false, slice sql (sc_code_start st) (length sql))]
  else sc_segments st.

(** ["".join(t for _, t in segments)] *)
Definition join_all (segs : list (bool * str)) : str := concat (map snd segs).

(** ** Character tables (code points 0..255) *)

Definition code (c : ascii) : nat := nat_of_ascii c.

Definition between (lo hi : nat) (c : ascii) : bool :=
  (lo <=? code c) && (code c <=? hi).

Definition is_ascii_digit (c : ascii) : bool := between 48 57 c.
Definition is_ascii_upper (c : ascii) : bool := between 65 90 c.
Definition is_ascii_lower (c : ascii) : bool := between 97 122 c.

(** Upper-case letters of the Latin-1 block: U+00C0..U+00DE without U+00D7. *)
Definition is_latin_upper (c : ascii) : bool :=
  between 192 222 c && negb (code c =? 215).

(** Lower-case letters of the Latin-1 block with an upper case in the block:
    U+00E0..U+00FE without U+00F7. *)
Definition is_latin_lower (c : ascii) : bool :=
  between 224 254 c && negb (code c =? 247).

(** [\d]: the decimal digits (category Nd); below U+0100 these are 0-9. *)
Definition is_digit (c : ascii) : bool := is_ascii_digit c.

(** [str.isdigit] on one character: 0-9 and the superscripts U+00B2, U+00B3, U+00B9. *)
Definition char_isdigit (c : ascii) : bool :=
  is_ascii_digit c || (code c =? 178) || (code c =? 179) || (code c =? 185).

(** [\w]: [str.isalnum] or underscore. *)
Definition is_word (c : ascii) : bool :=
  is_ascii_digit c || is_ascii_upper c || is_ascii_lower c || (code c =? 95)
  || (code c =? 170) || (code c =? 178) || (code c =? 179) || (code c =? 181)
  || (code c =? 185) || (code c =? 186) || between 188 190 c
  || between 192 214 c || between 216 246 c || between 248 255 c.

(** [\s] and [str.isspace]. *)
Definition is_space (c : ascii) : bool :=
  between 9 13 c || between 28 32 c || (code c =? 133) || (code c =? 160).

Definition shift_down (c : ascii) : ascii := ascii_of_nat (code c + 32).
Definition shift_up (c : ascii) : ascii := ascii_of_nat (code c - 32).

(** [str.lower] on one character. *)
Definition lower_char (c : ascii) : ascii :=
  if is_ascii_upper c || is_latin_upper c then shift_down c else c.

(** [str.upper] on one character: U+00DF becomes "SS"; U+00B5 and U+00FF have
    their upper case outside the 8-bit range and are kept: the result is only
    ever compared with ASCII words. *)
Definition upper_char (c : ascii) : str :=
  if is_ascii_lower c || is_latin_lower c then [shift_up c]
  else if code c =? 223 then s "SS"
  else [c].

Definition lower (t : str) : str := map lower_char t.
Definition upper (t : str) : str := flat_map upper_char t.

(** [not t.strip()]: empty or whitespace only. *)
Definition is_blank (t : str) : bool := forallb is_space t.

(** [x in xs] for strings. *)
Definition mem (x : str) (xs : list str) : bool := existsb (str_eqb x) xs.

(** ** Regular expressions: the fragment of Python [re] the program uses *)

Module Re.

Inductive cls_item :=
| CChar (c : ascii)
| CRange (lo hi : ascii).

Inductive re :=
| Eps
| Chr (c : ascii)                       (* a literal character *)
| Cls (neg : bool) (items : list cls_item)   (* [...] and [^...] *)
| Dot                                   (* . : anything but a newline *)
| Digit                                 (* \d *)
| Word                                  (* \w *)
| Space                                 (* \s *)
| Wb                                    (* \b *)
| Bol                                   (* ^ *)
| Eol                                   (* $ *)
| Seq (a b : re)
| Alt (a b : re)
| Star (a : re)                         (* greedy * *)
| Grp (n : nat) (a : re)                (* capturing group number n *)
| Look (a : re).                        (* (?=...) *)

Definition plus (a : re) : re := Seq a (Star a).
Definition opt (a : re) : re := Alt a Eps.

Fixpoint seq (rs : list re) : re :=
  match rs with
  | [] => Eps
  | [r] => r
  | r :: rs' => Seq r (seq rs')
  end.

Fixpoint alts (rs : list re) : re :=
  match rs with
  | [] => Eps
  | [r] => r
  | r :: rs' => Alt r (alts rs')
  end.

(** A literal string; also the result of [re.escape]. *)
Definition lit (t : str) : re := seq (map Chr t).
Definition escape (t : str) : re := lit t.

(** A compiled pattern: the IGNORECASE flag (inline [(?i)] or [re.I]) and the expression. *)
Record pattern := mkPattern { p_icase : bool; p_re : re }.

(** Matcher state: the character before the cursor, the text from the cursor
    on, and the groups captured so far. *)
Record mstate := mkM {
  m_prev : option ascii;
  m_rest : str;
  m_caps : list (nat * str)
}.

Definition char_eq (ic : bool) (p x : ascii) : bool :=
  if ic then Ascii.eqb (lower_char p) (lower_char x) else Ascii.eqb p x.

Definition item_has (x : ascii) (it : cls_item) : bool :=
  match it with
  | CChar c => Ascii.eqb c x
  | CRange lo hi => between (code lo) (code hi) x
  end.

(** Under IGNORECASE a class matches a character when it holds the character
    or one of its case variants. *)
Definition cls_has (ic : bool) (items : list cls_item) (x : ascii) : bool :=
  existsb (item_has x) items
  || (ic && (existsb (item_has (lower_char x)) items
             || existsb (fun it => existsb (fun u => item_has u it) (upper_char x)
                                   && (length (upper_char x) =? 1)) items)).

Definition word_opt (c : option ascii) : bool :=
  match c with Some x => is_word x | None => false end.

Definition at_boundary (st : mstate) : bool :=
  negb (Bool.eqb (word_opt (m_prev st)) (word_opt (hd_error (m_rest st)))).

(** [$]: at the end, or before a newline that ends the text. *)
Definition at_eol (st : mstate) : bool :=
  match m_rest st with
  | [] => true
  | [c] => Ascii.eqb c nl
  | _ => false
  end.

Definition eat (test : ascii -> bool) (st : mstate) (k : mstate -> option mstate)
  : option mstate :=
  match m_rest st with
  | c :: rest => if test c then k (mkM (Some c) rest (m_caps st)) else None
  | [] => None
  end.

Definition set_cap (n : nat) (t : str) (caps : list (nat * str)) : list (nat * str) :=
  (n, t) :: filter (fun p => negb (fst p =? n)) caps.

Definition consumed (st st' : mstate) : str :=
  firstn (length (m_rest st) - length (m_rest st')) (m_rest st).

Definition or_else (a : option mstate) (b : unit -> option mstate) : option mstate :=
  match a with Some x => Some x | None => b tt end.

(** The repetition of [*]: [body] is the matcher of the repeated expression;
    an iteration that consumes nothing ends the repetition.  Every iteration
    shortens the text, so [fuel = len(rest)] is enough (see [star_loop_fuel]). *)
Fixpoint star_loop (body : mstate -> (mstate -> option mstate) -> option mstate)
    (k : mstate -> option mstate) (fuel : nat) (st0 : mstate) : option mstate :=
  match fuel with
  | O => k st0
  | S f =>
      or_else
        (body st0 (fun st' =>
           if length (m_rest st') <? length (m_rest st0)
           then star_loop body k f st' else None))
        (fun _ => k st0)
  end.

(** Backtracking matcher in continuation style: alternatives are tried in
    order and [*] is greedy. *)
Fixpoint run (ic : bool) (r : re) (st : mstate) (k : mstate -> option mstate)
  : option mstate :=
  match r with
  | Eps => k st
  | Chr c => eat (char_eq ic c) st k
  | Cls neg items => eat (fun x => xorb neg (cls_has ic items x)) st k
  | Dot => eat (fun x => negb (Ascii.eqb x nl)) st k
  | Digit => eat is_digit st k
  | Word => eat is_word st k
  | Space => eat is_space st k
  | Wb => if at_boundary st then k st else None
  | Bol => match m_prev st with None => k st | Some _ => None end
  | Eol => if at_eol st then k st else None
  | Seq a b => run ic a st (fun st' => run ic b st' k)
  | Alt a b => or_else (run ic a st k) (fun _ => run ic b st k)
  | Star a => star_loop (run ic a) k (length (m_rest st)) st
  | Grp n a =>
      run ic a st (fun st' =>
        k (mkM (m_prev st') (m_rest st') (set_cap n (consumed st st') (m_caps st'))))
  | Look a =>
      match run ic a st (fun st' => Some st') with
      | Some _ => k st
      | None => None
      end
  end.

(** [m.group(n)]; [None] when the group took no part in the match. *)
Definition group (n : nat) (caps : list (nat * str)) : option str :=
  match find (fun p => fst p =? n) caps with
  | Some p => Some (snd p)
  | None => None
  end.

(** One attempt at the cursor. *)
Definition match_here (p : pattern) (prev : option ascii) (rest : str) : option mstate :=
  run (p_icase p) (p_re p) (mkM prev rest []) (fun st => Some st).

(** [re.match(p, t)]. *)
Definition match_ (p : pattern) (t : str) : bool :=
  match match_here p None t with Some _ => true | None => false end.

(** [re.sub(p, repl, t)] for a replacement without escapes, and
    [re.finditer(p, t)] as the list of the matches' groups.  After a match the
    scan resumes at its end; an empty match is followed by one copied character. *)
Fixpoint sub_loop (fuel : nat) (p : pattern) (repl : str) (prev : option ascii) (rest : str)
  : str :=
  match fuel with
  | O => rest
  | S f =>
      match match_here p prev rest with
      | Some e =>
          if length (m_rest e) <? length rest
          then repl ++ sub_loop f p repl (m_prev e) (m_rest e)
          else repl ++ match rest with
                       | [] => []
                       | c :: rest' => c :: sub_loop f p repl (Some c) rest'
                       end
      | None =>
          match rest with
          | [] => []
          | c :: rest' => c :: sub_loop f p repl (Some c) rest'
          end
      end
  end.

Definition sub (p : pattern) (repl : str) (t : str) : str :=
  sub_loop (S (length t)) p repl None t.

Fixpoint finditer_loop (fuel : nat) (p : pattern) (prev : option ascii) (rest : str)
  : list (list (nat * str)) :=
  match fuel with
  | O => []
  | S f =>
      match match_here p prev rest with
      | Some e =>
          if length (m_rest e) <? length rest
          then m_caps e :: finditer_loop f p (m_prev e) (m_rest e)
          else m_caps e :: match rest with
                           | [] => []
                           | c :: rest' => finditer_loop f p (Some c) rest'
                           end
      | None =>
          match rest with
          | [] => []
          | c :: rest' => finditer_loop f p (Some c) rest'
          end
      end
  end.

Definition finditer (p : pattern) (t : str) : list (list (nat * str)) :=
  finditer_loop (S (length t)) p None t.

End Re.

Import Re.

(** ** Literal normalizer *)

Definition ch (x : string) : re := lit (s x).

(** [([^']|'')*] with group number [g]. *)
Definition sq_body (g : nat) : re :=
  Star (Grp g (Alt (Cls true [CChar squote]) (ch "''"))).

(** [(?i)\b(DATE|TIMESTAMP|TIME|INTERVAL)\s*'([^']|'')*'] *)
Definition date_pattern : pattern :=
  mkPattern true
    (seq [Wb; Grp 1 (alts [ch "DATE"; ch "TIMESTAMP"; ch "TIME"; ch "INTERVAL"]);
          Star Space; Chr squote; sq_body 2; Chr squote]).

(** ['([^']|'')*'] *)
Definition single_quoted : pattern :=
  mkPattern false (seq [Chr squote; sq_body 1; Chr squote]).

(** [D([^D\\]|\\.)*D], where D is the double quote. *)
Definition double_quoted : pattern :=
  mkPattern false
    (seq [Chr dquote;
          Star (Grp 1 (Alt (Cls true [CChar dquote; CChar backslash])
                           (Seq (Chr backslash) Dot)));
          Chr dquote]).

(** [([eE][-+]?\d+)?] with group number [g]. *)
Definition exponent (g : nat) : re :=
  opt (Grp g (seq [Cls false [CChar "e"; CChar "E"];
                   opt (Cls false [CChar "-"; CChar "+"]);
                   plus Digit])).

(** [\b\d+\.?\d*([eE][-+]?\d+)?\b] *)
Definition number_pattern : pattern :=
  mkPattern false
    (seq [Wb; plus Digit; opt (Chr "."); Star Digit; exponent 1; Wb]).

(** [\b\.\d+([eE][-+]?\d+)?\b] *)
Definition dot_number_pattern : pattern :=
  mkPattern false (seq [Wb; Chr "."; plus Digit; exponent 1; Wb]).

Definition _replace_literals (sql : str) : str :=
  let out := sql in
  let out := sub date_pattern (s "DATE") out in
  let out := sub single_quoted (s "STR") out in
  let out := sub double_quoted (s "STR") out in
  let out := sub number_pattern (s "NUM") out in
  let out := sub dot_number_pattern (s "NUM") out in
  out.

(** ** Python containers

    A [set] of strings is kept as the duplicate-free list of its members in
    insertion order; the order in which the interpreter iterates over it
    depends on the strings' hashes and is a parameter of the model
    ([set_order]).  A [dict] keeps insertion order and is an association list. *)

Definition set_add (x : str) (xs : list str) : list str :=
  if mem x xs then xs else xs ++ [x].

Record set_order := mkSetOrder {
  set_iter : list str -> list str;
  set_iter_perm : forall l, Permutation (set_iter l) l
}.

Definition dict := list (str * str).

Definition dict_get (k : str) (d : dict) : option str :=
  match find (fun p => str_eqb (fst p) k) d with
  | Some p => Some (snd p)
  | None => None
  end.

Definition dict_has (k : str) (d : dict) : bool :=
  match dict_get k d with Some _ => true | None => false end.

(** [d[k] = v]: an existing key keeps its place. *)
Fixpoint dict_set (k v : str) (d : dict) : dict :=
  match d with
  | [] => [(k, v)]
  | (k', v') :: d' =>
      if str_eqb k' k then (k', v) :: d' else (k', v') :: dict_set k v d'
  end.

Definition keys (d : dict) : list str := map fst d.

(** A schema [(table_name, column_name) -> type] in [items()] order; the empty
    list stands for both [None] and the empty dict, which the code treats alike. *)
Definition schema_t := list ((str * str) * str).

(** [sorted(xs, key=len, reverse=True)]: stable, so words of equal length keep
    the order in which [xs] yields them. *)
Fixpoint insert_by_len (x : str) (acc : list str) : list str :=
  match acc with
  | [] => [x]
  | y :: acc' =>
      if length x <=? length y then y :: insert_by_len x acc' else x :: acc
  end.

Definition sorted_len_desc (xs : list str) : list str :=
  fold_left (fun acc x => insert_by_len x acc) xs [].

(** [f"{prefix}{i}"] *)
Definition numbered (prefix : string) (i : nat) : str :=
  s prefix ++ s (NilZero.string_of_uint (Nat.to_uint i)).

(** [{a: f"{prefix}{i}" for i, a in enumerate(order)}], filling [d] from index [i]. *)
Fixpoint enumerate_dict (prefix : string) (i : nat) (order : list str) (d : dict) : dict :=
  match order with
  | [] => d
  | a :: rest => enumerate_dict prefix (S i) rest (dict_set a (numbered prefix i) d)
  end.

(** ** [_is_numeric_token] *)

Fixpoint drop_space (t : str) : str :=
  match t with
  | c :: t' => if is_space c then drop_space t' else t
  | [] => []
  end.

Definition strip (t : str) : str := rev (drop_space (rev (drop_space t))).

(** [float] drops an underscore that stands between two digits and rejects
    any other underscore. *)
Fixpoint drop_underscores (prev : option ascii) (t : str) : option str :=
  match t with
  | [] =>
      match prev with
      | Some p => if Ascii.eqb p "_" then None else Some []
      | None => Some []
      end
  | c :: t' =>
      if Ascii.eqb c "_" then
        match prev with
        | Some p => if is_ascii_digit p then drop_underscores (Some c) t' else None
        | None => None
        end
      else
        let bad := match prev with
                   | Some p => Ascii.eqb p "_" && negb (is_ascii_digit c)
                   | None => false
                   end in
        if bad then None
        else match drop_underscores (Some c) t' with
             | Some r => Some (c :: r)
             | None => None
             end
  end.

(** The numbers [float] reads: a sign, then [inf], [infinity], [nan] or a
    decimal with an optional exponent. *)
Definition float_syntax : pattern :=
  mkPattern true
    (seq [opt (Cls false [CChar "+"; CChar "-"]);
          alts [ch "infinity"; ch "inf"; ch "nan";
                seq [alts [seq [plus Digit; opt (Chr "."); Star Digit];
                           seq [Chr "."; plus Digit]];
                     opt (seq [Chr "e"; opt (Cls false [CChar "+"; CChar "-"]); plus Digit])]]]).

(** The whole of [t] matches [p]. *)
Definition fullmatch (p : pattern) (t : str) : bool :=
  match run (p_icase p) (p_re p) (mkM None t [])
            (fun st => match m_rest st with [] => Some st | _ => None end) with
  | Some _ => true
  | None => false
  end.

(** [float(w)] does not raise.  (The tokens that reach it are runs of word
    characters, on which stripping does nothing.) *)
Definition float_ok (w : str) : bool :=
  match drop_underscores None (strip w) with
  | Some t => fullmatch float_syntax t
  | None => false
  end.

(** [w.isdigit()] *)
Definition isdigit (w : str) : bool :=
  match w with [] => false | _ => forallb char_isdigit w end.

Definition _is_numeric_token (w : str) : bool :=
  match w with
  | [] => false
  | _ => if isdigit w then true else float_ok w
  end.

(** ** Boolean-aware literal normalizer *)

Definition is_boolean_type (typ : str) : bool :=
  mem (lower typ) [s "boolean"; s "bool"].

(** [f"{t}.{c}"] *)
Definition dotted (t c : str) : str := t ++ s "." ++ c.

(** The set [refs] of [_build_boolean_col_refs] before it is sorted. *)
Definition boolean_refs (schema : schema_t) (tables : list str) (alias_to_table : dict)
  : list str :=
  let refs : list str := [] in
  let tables_set := tables in
  let refs :=
    fold_left (fun refs e =>
      match e with
      | ((t, c), typ) =>
          if negb (is_boolean_type typ) then refs
          else
            let refs := set_add (dotted t c) refs in
            fold_left (fun refs at_ =>
              match at_ with
              | (alias, tbl) =>
                  if str_eqb tbl t then set_add (dotted alias c) refs else refs
              end) alias_to_table refs
      end) schema refs in
  fold_left (fun refs e =>
    match e with
    | ((t, c), typ) =>
        if negb (is_boolean_type typ) then refs
        else if mem t tables_set then set_add c refs else refs
    end) schema refs.

Definition _build_boolean_col_refs (o : set_order) (schema : schema_t)
    (tables : list str) (alias_to_table : dict) : list str :=
  match schema with
  | [] => []
  | _ => sorted_len_desc (set_iter o (boolean_refs schema tables alias_to_table))
  end.

(** [\s*=\s*] *)
Definition eq_sign : re := seq [Star Space; Chr "="; Star Space].

(** [\b<ref>\s*=\s*(\d+)\b] *)
Definition ref_eq_int (ref : str) : pattern :=
  mkPattern false (seq [Wb; escape ref; eq_sign; Grp 1 (plus Digit); Wb]).

(** [\b<ref>\s*=\s*'([^']|'')*'] *)
Definition ref_eq_str (ref : str) : pattern :=
  mkPattern false (seq [Wb; escape ref; eq_sign; Chr squote; sq_body 1; Chr squote]).

(** [\b(\d+)\s*=\s*<ref>\b] *)
Definition int_eq_ref (ref : str) : pattern :=
  mkPattern false (seq [Wb; Grp 1 (plus Digit); eq_sign; escape ref; Wb]).

(** ['([^']|'')*'\s*=\s*<ref>\b] *)
Definition str_eq_ref (ref : str) : pattern :=
  mkPattern false (seq [Chr squote; sq_body 1; Chr squote; eq_sign; escape ref; Wb]).

(** The four rewrites of one boolean column reference. *)
Definition boolean_rewrite (out ref : str) : str :=
  let out := sub (ref_eq_int ref) (ref ++ s " = boolean") out in
  let out := sub (ref_eq_str ref) (ref ++ s " = boolean") out in
  let out := sub (int_eq_ref ref) (s "boolean = " ++ ref) out in
  let out := sub (str_eq_ref ref) (s "boolean = " ++ ref) out in
  out.

(** Boolean comparisons first, then the literal passes with lower-case tags. *)
Definition _replace_literals_bird (sql : str) (boolean_col_refs : list str) : str :=
  let out := sql in
  let out := fold_left boolean_rewrite boolean_col_refs out in
  let out := sub date_pattern (s "date") out in
  let out := sub single_quoted (s "string") out in
  let out := sub double_quoted (s "string") out in
  let out := sub number_pattern (s "num") out in
  let out := sub dot_number_pattern (s "num") out in
  out.

(** ** Identifier resolver: [_collect_identifiers_regex] *)

Definition words (l : list string) : list str := map s l.

Definition sp1 : re := plus Space.          (* \s+ *)
Definition sp0 : re := Star Space.          (* \s* *)
Definition wordg (n : nat) : re := Grp n (plus Word).   (* (\w+) *)

(** [(?i)\bWITH\s+(\w+)\s+AS\s+] *)
Definition cte_ctx : pattern :=
  mkPattern true (seq [Wb; ch "WITH"; sp1; wordg 1; sp1; ch "AS"; sp1]).

Definition not_table_alias_kw : list str :=
  words ["ON"; "USING"; "WHERE"; "LEFT"; "RIGHT"; "INNER"; "OUTER"; "CROSS"; "JOIN";
         "GROUP"; "ORDER"; "HAVING"; "LIMIT"; "OFFSET"; "AND"; "OR"; "BY"; "SELECT";
         "FROM"; "AS"; "WITH"; "END"; "THEN"; "ELSE"; "WHEN"; "NULL"; "TRUE"; "FALSE"].

(** [(?=\s+ON|\s+USING|\s*\)|\s*,|\s+GROUP|\s+ORDER|\s+WHERE|\s+HAVING|\s+LIMIT|\s+OFFSET|\s*;|\s+JOIN|\s+LEFT|\s+INNER|\s+RIGHT|\s+CROSS|\s+FULL|\s+OUTER|\s*$)] *)
Definition lookahead : re :=
  Look (alts [Seq sp1 (ch "ON"); Seq sp1 (ch "USING"); Seq sp0 (Chr ")");
              Seq sp0 (Chr ","); Seq sp1 (ch "GROUP"); Seq sp1 (ch "ORDER");
              Seq sp1 (ch "WHERE"); Seq sp1 (ch "HAVING"); Seq sp1 (ch "LIMIT");
              Seq sp1 (ch "OFFSET"); Seq sp0 (Chr ";"); Seq sp1 (ch "JOIN");
              Seq sp1 (ch "LEFT"); Seq sp1 (ch "INNER"); Seq sp1 (ch "RIGHT");
              Seq sp1 (ch "CROSS"); Seq sp1 (ch "FULL"); Seq sp1 (ch "OUTER");
              Seq sp0 Eol]).

(** [(?:FROM|JOIN|INNER\s+JOIN|LEFT\s+JOIN|RIGHT\s+JOIN|FULL\s+JOIN|CROSS\s+JOIN|OUTER\s+JOIN)] *)
Definition from_join : re :=
  alts [ch "FROM"; ch "JOIN"; seq [ch "INNER"; sp1; ch "JOIN"];
        seq [ch "LEFT"; sp1; ch "JOIN"]; seq [ch "RIGHT"; sp1; ch "JOIN"];
        seq [ch "FULL"; sp1; ch "JOIN"]; seq [ch "CROSS"; sp1; ch "JOIN"];
        seq [ch "OUTER"; sp1; ch "JOIN"]].

(** [(?i)<from_join>\s+(\w+)\s+AS\s+(\w+)<lookahead>] *)
Definition from_join_with_as : pattern :=
  mkPattern true (seq [from_join; sp1; wordg 1; sp1; ch "AS"; sp1; wordg 2; lookahead]).

(** [(?i)<from_join>\s+(\w+)(?:\s+(\w+))<lookahead>] *)
Definition from_join_no_as : pattern :=
  mkPattern true (seq [from_join; sp1; wordg 1; Seq sp1 (wordg 2); lookahead]).

(** [(?i)<from_join>\s+(\w+)<lookahead>] *)
Definition from_join_table_only : pattern :=
  mkPattern true (seq [from_join; sp1; wordg 1; lookahead]).

(** [(?i)\bAS\s+(\w+)(?:\s*[,\)]|\s+[A-Z_]|\s*$)] *)
Definition as_alias : pattern :=
  mkPattern true
    (seq [Wb; ch "AS"; sp1; wordg 1;
          alts [Seq sp0 (Cls false [CChar ","; CChar ")"]);
                Seq sp1 (Cls false [CRange "A" "Z"; CChar "_"]);
                Seq sp0 Eol]]).

Definition col_alias_kw : list str :=
  words ["SELECT"; "FROM"; "WHERE"; "GROUP"; "ORDER"; "BY"; "HAVING"; "ON"; "AND"; "OR";
         "END"; "THEN"; "ELSE"; "WHEN"; "NULL"; "TRUE"; "FALSE"; "WITH"; "AS"; "DISTINCT";
         "FILTER"; "WITHIN"; "OVER"; "PARTITION"; "BETWEEN"; "LIKE"; "IN"; "IS"; "NOT";
         "EXISTS"; "CASE"; "ASC"; "DESC"; "LIMIT"; "OFFSET"].

(** [\b(\w+)\.(\w+)\b] *)
Definition qualified : pattern :=
  mkPattern false (seq [Wb; wordg 1; Chr "."; wordg 2; Wb]).

(** [\b(\w+)\b] *)
Definition bare_word : pattern := mkPattern false (seq [Wb; wordg 1; Wb]).

Definition not_column_qualifier : list str :=
  words ["ON"; "BY"; "AND"; "OR"; "SELECT"; "FROM"].

Definition not_inferred_alias : list str :=
  words ["NUM"; "STR"; "DATE"; "GROUP"; "ORDER"; "WITHIN"; "OVER"; "PARTITION";
         "BETWEEN"; "LIKE"; "IN"; "IS"; "NOT"; "EXISTS"; "CASE"; "THEN"; "ELSE"; "WHEN";
         "END"; "TRUE"; "FALSE"; "NULL"].

Definition placeholder_keywords : list str :=
  words ["NUM"; "STR"; "DATE"; "TABLE_NAME"; "COL_NAME";
         "TABLE_ALIAS_PLACEHOLDER0"; "TABLE_ALIAS_PLACEHOLDER1"; "TABLE_ALIAS_PLACEHOLDER2";
         "COL_ALIAS_PLACEHOLDER0"; "COL_ALIAS_PLACEHOLDER1"; "COL_ALIAS_PLACEHOLDER2";
         "num"; "string"; "date"; "boolean";
         "table_alias0"; "table_alias1"; "table_alias2";
         "column_alias0"; "column_alias1"; "column_alias2"].

Definition keywords : list str :=
  words ["SELECT"; "FROM"; "WHERE"; "GROUP"; "BY"; "ORDER"; "HAVING"; "ON"; "AND"; "OR";
         "JOIN"; "LEFT"; "RIGHT"; "INNER"; "OUTER"; "CROSS"; "FULL"; "AS"; "DISTINCT";
         "NULL"; "TRUE"; "FALSE"; "BETWEEN"; "LIKE"; "IN"; "IS"; "NOT"; "EXISTS";
         "CASE"; "WHEN"; "THEN"; "ELSE"; "END"; "ASC"; "DESC"; "LIMIT"; "OFFSET";
         "WITH"; "FILTER"; "WITHIN"; "OVER"; "PARTITION"; "RANGE"; "ROWS";
         "USING"; "TABLE"; "INTO"; "UPDATE"; "SET"; "VALUES"; "INSERT"; "DELETE";
         "CREATE"; "ALTER"; "DROP"; "INDEX"; "PRIMARY"; "KEY"; "REFERENCES";
         "COUNT"; "SUM"; "AVG"; "MIN"; "MAX"; "STDDEV"; "PERCENTILE_CONT";
         "ABS"; "ROUND"; "STRING_AGG"; "JSON_BUILD_OBJECT"; "JSON_OBJECT_AGG";
         "COALESCE"; "NULLIF"; "CAST"; "EXTRACT"; "UNNEST"; "ARRAY";
         "SUBSTR"; "SUBSTRING"; "STRFTIME"; "LENGTH"; "CONCAT";
         "REPLACE"; "TRIM"; "UPPER"; "LOWER"; "INSTR"; "DATE"; "YEAR"; "MONTH";
         "LATERAL"; "CROSS"; "UNION"; "EXCEPT"; "INTERSECT"; "ALL"; "ANY";
         "SIGNAL"; "NOISE"; "SNQI"; "SSM"; "TOLS"; "MCS"; "RPI"; "BFR"; "LIF"; "CCS"; "CIP"]
  ++ placeholder_keywords.

(** [^table_alias_placeholder\d+$] and [^col_alias_placeholder\d+$], with [re.I]. *)
Definition numbered_name (prefix : string) : pattern :=
  mkPattern true (seq [Bol; ch prefix; plus Digit; Eol]).

Definition is_placeholder_alias (w : str) : bool :=
  match_ (numbered_name "table_alias_placeholder") w
  || match_ (numbered_name "col_alias_placeholder") w.

(** [m.group(n)] of a group that took part in the match. *)
Definition grp (n : nat) (caps : list (nat * str)) : str :=
  match group n caps with Some t => t | None => [] end.

(** The names gathered by the alias passes. *)
Record aliases := mkAliases {
  a_tables : list str;
  a_table_alias_order : list str;
  a_alias_to_table : dict
}.

(** [alias_to_table[a] = t] and [if a not in table_alias_order: append(a)] *)
Definition bind_alias (a t : str) (st : aliases) : aliases :=
  mkAliases (a_tables st)
            (if mem a (a_table_alias_order st) then a_table_alias_order st
             else a_table_alias_order st ++ [a])
            (dict_set a t (a_alias_to_table st)).

Definition add_table (t : str) (st : aliases) : aliases :=
  mkAliases (set_add t (a_tables st)) (a_table_alias_order st) (a_alias_to_table st).

Definition on_cte (st : aliases) (caps : list (nat * str)) : aliases :=
  add_table (grp 1 caps) st.

Definition on_with_as (st : aliases) (caps : list (nat * str)) : aliases :=
  let t := grp 1 caps in
  let a := grp 2 caps in
  let st := add_table t st in
  if negb (mem (upper a) not_table_alias_kw) then bind_alias a t st else st.

Definition on_no_as (st : aliases) (caps : list (nat * str)) : aliases :=
  let t := grp 1 caps in
  let a := grp 2 caps in
  let st := add_table t st in
  match a with
  | [] => st
  | _ =>
      if negb (str_eqb (upper a) (s "AS")) && negb (mem (upper a) not_table_alias_kw)
      then bind_alias a t st else st
  end.

Definition on_table_only (st : aliases) (caps : list (nat * str)) : aliases :=
  add_table (grp 1 caps) st.

(** The column-alias pass; [table_aliases] is the alias order after the
    FROM/JOIN passes. *)
Definition on_as_alias (table_aliases : list str) (col_alias_order : list str)
    (caps : list (nat * str)) : list str :=
  let a := grp 1 caps in
  if mem (upper a) col_alias_kw then col_alias_order
  else if mem a table_aliases then col_alias_order
  else if mem a col_alias_order then col_alias_order
  else col_alias_order ++ [a].

(** The qualified-reference pass over (columns, table_alias_order). *)
Definition on_qualified (tables : list str) (acc : list str * list str)
    (caps : list (nat * str)) : list str * list str :=
  let '(columns, table_alias_order) := acc in
  let qual := grp 1 caps in
  let col := grp 2 caps in
  let columns :=
    if negb (mem (upper qual) not_column_qualifier) then set_add col columns
    else columns in
  let table_alias_order :=
    if negb (mem qual table_alias_order) && negb (mem qual tables)
       && negb (mem (upper qual) not_inferred_alias)
    then (if negb (mem qual table_alias_order) then table_alias_order ++ [qual]
          else table_alias_order)
    else table_alias_order in
  (columns, table_alias_order).

(** The bare-word pass. *)
Definition on_bare_word (raw_sql : bool) (tables : list str)
    (table_alias_map col_alias_map : dict) (columns : list str)
    (caps : list (nat * str)) : list str :=
  let w := grp 1 caps in
  if mem (upper w) keywords then columns
  else if mem w tables || dict_has w table_alias_map || dict_has w col_alias_map then columns
  else if is_placeholder_alias w then columns
  else if mem w (words ["table_name"; "col_name"]) then columns
  else if mem w (words ["NUM"; "STR"; "DATE"; "num"; "string"; "date"; "boolean"]) then columns
  else if raw_sql && _is_numeric_token w then columns
  else set_add w columns.

(** The result tuple (tables, table_alias_map, col_alias_map, columns, alias_to_table). *)
Record identifiers := mkIdentifiers {
  i_tables : list str;
  i_table_alias_map : dict;
  i_col_alias_map : dict;
  i_columns : list str;
  i_alias_to_table : dict
}.

(** The FROM/JOIN passes: CTE names, aliases with AS, aliases without AS,
    tables without alias. *)
Definition alias_passes (sql : str) : aliases :=
  let st := mkAliases [] [] [] in
  let st := fold_left on_cte (finditer cte_ctx sql) st in
  let st := fold_left on_with_as (finditer from_join_with_as sql) st in
  let st := fold_left on_no_as (finditer from_join_no_as sql) st in
  let st := fold_left on_table_only (finditer from_join_table_only sql) st in
  st.

(** [columns] and [table_alias_order] after the qualified-reference pass. *)
Definition qualified_pass (sql : str) : list str * list str :=
  let st := alias_passes sql in
  fold_left (on_qualified (a_tables st)) (finditer qualified sql)
            ([], a_table_alias_order st).

(** [table_alias_order] when the maps are built. *)
Definition table_alias_order_of (sql : str) : list str := snd (qualified_pass sql).

(** [col_alias_order] when the maps are built. *)
Definition col_alias_order_of (sql : str) : list str :=
  fold_left (on_as_alias (a_table_alias_order (alias_passes sql)))
            (finditer as_alias sql) [].

Definition _collect_identifiers_regex (sql : str) (raw_sql : bool) : identifiers :=
  let st := alias_passes sql in
  let tables := a_tables st in
  let col_alias_order := col_alias_order_of sql in
  let columns := fst (qualified_pass sql) in
  let table_alias_order := table_alias_order_of sql in
  let table_alias_map := enumerate_dict "table_alias_placeholder" 0 table_alias_order [] in
  let col_alias_map := enumerate_dict "col_alias_placeholder" 0 col_alias_order [] in
  let columns :=
    fold_left (on_bare_word raw_sql tables table_alias_map col_alias_map)
              (finditer bare_word sql) columns in
  mkIdentifiers tables table_alias_map col_alias_map columns (a_alias_to_table st).

(** ** Schema-aware substitution: [_apply_identifier_replacements] *)

(** [\b<name>\b] *)
Definition whole_word (name : str) : pattern :=
  mkPattern false (seq [Wb; escape name; Wb]).

(** [\b<q>\.<col>\b] *)
Definition qualified_ref (q col : str) : pattern :=
  mkPattern false (seq [Wb; escape q; Chr "."; escape col; Wb]).

(** [\.<col>\b] *)
Definition dot_word (col : str) : pattern :=
  mkPattern false (seq [Chr "."; escape col; Wb]).

(** Step 1a: [alias.col -> alias.<type>] for every alias binding and schema entry. *)
Definition schema_alias_step (alias_to_table : dict) (schema : schema_t) (out : str) : str :=
  fold_left (fun out at_ =>
    match at_ with
    | (alias, table) =>
        fold_left (fun out e =>
          match e with
          | ((t, col), typ) =>
              if negb (str_eqb t table) then out
              else sub (qualified_ref alias col) (alias ++ s "." ++ typ) out
          end) schema out
    end) alias_to_table out.

(** Step 1b: [table.col -> table_name.<type>], the tables in iteration order. *)
Definition schema_table_step (tables_iter : list str) (schema : schema_t) (out : str) : str :=
  fold_left (fun out table =>
    fold_left (fun out e =>
      match e with
      | ((t, col), typ) =>
          if negb (str_eqb t table) then out
          else sub (qualified_ref table col) (s "table_name." ++ typ) out
      end) schema out) tables_iter out.

(** [col_to_types[c]]: the distinct types of the columns named [c], over the whole schema. *)
Definition col_to_types (schema : schema_t) (c : str) : list str :=
  fold_left (fun types e =>
    match e with
    | ((_, c'), typ) => if str_eqb c' c then set_add typ types else types
    end) schema [].

(** [col in col_to_types and len(col_to_types[col]) == 1], with that type. *)
Definition unique_type (schema : schema_t) (col : str) : option str :=
  match col_to_types schema col with
  | [typ] => Some typ
  | _ => None
  end.

(** Step 2 over [sorted(columns, key=len, reverse=True)]: the text and
    [cols_replaced_by_schema]. *)
Definition schema_column_step (sorted_columns : list str) (schema : schema_t)
    (out : str) : str * list str :=
  fold_left (fun acc col =>
    match unique_type schema col with
    | Some typ => (sub (whole_word col) typ (fst acc), set_add col (snd acc))
    | None => acc
    end) sorted_columns (out, []).

(** [re.match(r"^table_alias\d+$", col, re.I) or re.match(r"^column_alias\d+$", col, re.I)] *)
Definition is_bird_alias (w : str) : bool :=
  match_ (numbered_name "table_alias") w || match_ (numbered_name "column_alias") w.

(** The generic column rule for one column. *)
Definition generic_column (has_schema : bool) (col_alias_map : dict)
    (cols_replaced_by_schema : list str) (out col : str) : str :=
  if mem (upper col) (words ["NUM"; "STR"; "DATE"; "TABLE_NAME"; "COL_NAME"]) then out
  else if mem col (words ["num"; "string"; "date"; "boolean"]) then out
  else if is_placeholder_alias col then out
  else if is_bird_alias col then out
  else if dict_has col col_alias_map then out
  else if has_schema && mem col cols_replaced_by_schema then out
  else
    let out := sub (dot_word col) (s ".col_name") out in
    sub (whole_word col) (s "col_name") out.

Definition replace_from (d : dict) (out alias : str) : str :=
  match dict_get alias d with
  | Some v => sub (whole_word alias) v out
  | None => out
  end.

(** The body of [_apply_identifier_replacements], the sets [tables] and
    [columns] given as the lists their iteration yields. *)
Definition apply_in_order (tables_iter columns_iter : list str) (text : str)
    (table_alias_map col_alias_map : dict)
    (alias_to_table : option dict) (schema : schema_t) : str :=
  let out := text in
  let has_schema := match schema with [] => false | _ => true end in
  let '(out, cols_replaced_by_schema) :=
    match schema, alias_to_table return str * list str with
    | _ :: _, Some a2t =>
        let out := schema_alias_step a2t schema out in
        let out := schema_table_step tables_iter schema out in
        schema_column_step (sorted_len_desc columns_iter) schema out
    | _, _ => (out, [])
    end in
  let out := fold_left (replace_from table_alias_map)
                       (sorted_len_desc (keys table_alias_map)) out in
  let out := fold_left (replace_from col_alias_map)
                       (sorted_len_desc (keys col_alias_map)) out in
  let out := fold_left (fun out t =>
                          if dict_has t table_alias_map then out
                          else sub (whole_word t) (s "table_name") out)
                       (sorted_len_desc tables_iter) out in
  fold_left (generic_column has_schema col_alias_map cols_replaced_by_schema)
            (sorted_len_desc columns_iter) out.

Definition _apply_identifier_replacements (o : set_order) (text : str)
    (tables : list str) (table_alias_map col_alias_map : dict) (columns : list str)
    (alias_to_table : option dict) (schema : schema_t) : str :=
  apply_in_order (set_iter o tables) (set_iter o columns) text
                 table_alias_map col_alias_map alias_to_table schema.

(** ** Assembler: [canonicalize_sql] and [canonicalize_sql_bird] *)

(** ["".join(t for is_c, t in segments if not is_c)] *)
Definition non_comment (segments : list (bool * str)) : str :=
  concat (map snd (filter (fun seg => negb (fst seg)) segments)).

(** The result loop: comments are appended as they are, code segments
    rewritten by [rewrite]; then ["".join(result)]. *)
Definition assemble (rewrite : str -> str) (segments : list (bool * str)) : str :=
  concat (map (fun seg : bool * str =>
                 if fst seg then snd seg else rewrite (snd seg)) segments).

Definition canonicalize_sql (o : set_order) (sql : str) (schema : schema_t) : str :=
  if is_blank sql then sql
  else
    let segments := _split_comments sql in
    let non_comment_text := non_comment segments in
    if is_blank non_comment_text then sql
    else
      let out_flat := _replace_literals non_comment_text in
      let ids := _collect_identifiers_regex out_flat false in
      assemble (fun text =>
                  let seg_out := _replace_literals text in
                  _apply_identifier_replacements o seg_out
                    (i_tables ids) (i_table_alias_map ids) (i_col_alias_map ids)
                    (i_columns ids) (Some (i_alias_to_table ids)) schema)
               segments.

(** [(schema_by_db or {}).get(db_id) or {}] *)
Definition schema_for (db_id : str) (schema_by_db : list (str * schema_t)) : schema_t :=
  match find (fun p => str_eqb (fst p) db_id) schema_by_db with
  | Some p => snd p
  | None => []
  end.

(** [{a: f"table_alias{i}" for i, a in enumerate(table_alias_map)}] *)
Definition table_alias_map_bird (table_alias_map : dict) : dict :=
  enumerate_dict "table_alias" 0 (keys table_alias_map) [].

(** [{a: f"column_alias{i}" for i, a in enumerate(col_alias_map)}] *)
Definition col_alias_map_bird (col_alias_map : dict) : dict :=
  enumerate_dict "column_alias" 0 (keys col_alias_map) [].

Definition canonicalize_sql_bird (o : set_order) (sql : str) (db_id : str)
    (schema_by_db : list (str * schema_t)) : str :=
  if is_blank sql then sql
  else
    let segments := _split_comments sql in
    let non_comment_text := non_comment segments in
    if is_blank non_comment_text then sql
    else
      let schema := schema_for db_id schema_by_db in
      let ids := _collect_identifiers_regex non_comment_text true in
      let boolean_col_refs :=
        _build_boolean_col_refs o schema (i_tables ids) (i_alias_to_table ids) in
      let table_alias_map_bird := table_alias_map_bird (i_table_alias_map ids) in
      let col_alias_map_bird := col_alias_map_bird (i_col_alias_map ids) in
      assemble (fun text =>
                  let seg_out := _replace_literals_bird text boolean_col_refs in
                  _apply_identifier_replacements o seg_out
                    (i_tables ids) table_alias_map_bird col_alias_map_bird
                    (i_columns ids) (Some (i_alias_to_table ids)) [])
               segments.

(** Two iteration orders a set can show. *)
Definition insertion_order : set_order :=
  mkSetOrder (fun l => l) (fun l => Permutation_refl l).

Definition reverse_order : set_order :=
  mkSetOrder (fun l => rev l) (fun l => Permutation_sym (Permutation_rev l)).

(** ** Schema loader: [load_schema_csv]

    The file is taken as [csv.DictReader] hands it over: the field names of
    the header and one dict per line, field name -> cell, where the cell of
    a field the line is too short for is [None]. *)

Definition csv_row := list (str * option str).

(** [row.get(k)]: [None] for an absent key. *)
Definition row_get (k : string) (row : csv_row) : option str :=
  match find (fun p => str_eqb (fst p) (s k)) row with
  | Some p => snd p
  | None => None
  end.

(** [row.get(k, d)] *)
Definition row_get_or (k : string) (d : str) (row : csv_row) : option str :=
  match find (fun p => str_eqb (fst p) (s k)) row with
  | Some p => snd p
  | None => Some d
  end.

(** Truth value of a string. *)
Definition nonempty (t : str) : bool := match t with [] => false | _ => true end.

(** Truth value of a cell: [None] and the empty string are false. *)
Definition truthy (c : option str) : bool :=
  match c with Some t => nonempty t | None => false end.

(** The string of a cell that is not [None]. *)
Definition cell_text (c : option str) : str := match c with Some t => t | None => [] end.

(** Equality of two keys [(table, column)]. *)
Definition key_eqb (k1 k2 : str * str) : bool :=
  str_eqb (fst k1) (fst k2) && str_eqb (snd k1) (snd k2).

(** [schema[k] = typ]: an existing key keeps its place. *)
Fixpoint schema_set (k : str * str) (typ : str) (schema : schema_t) : schema_t :=
  match schema with
  | [] => [(k, typ)]
  | (k', typ') :: rest =>
      if key_eqb k' k then (k', typ) :: rest else (k', typ') :: schema_set k typ rest
  end.

(** [by_db.setdefault(db, {})[k] = typ] *)
Fixpoint by_db_set (db : str) (k : str * str) (typ : str)
    (by_db : list (str * schema_t)) : list (str * schema_t) :=
  match by_db with
  | [] => [(db, [(k, typ)])]
  | (db', schema) :: rest =>
      if str_eqb db' db then (db', schema_set k typ schema) :: rest
      else (db', schema) :: by_db_set db k typ rest
  end.

(** One turn of the loop over a file with a [database] column; [None]
    stands for the [AttributeError] of [None.strip()]. *)
Definition load_db_row (by_db : list (str * schema_t)) (row : csv_row)
  : option (list (str * schema_t)) :=
  match row_get_or "database" [] row with
  | None => None
  | Some d =>
      let db := strip d in
      let t := row_get "table_name" row in
      let c := row_get "column_name" row in
      let typ := row_get "column_type" row in
      if nonempty db && truthy t && truthy c && truthy typ
      then Some (by_db_set db (strip (cell_text t), strip (cell_text c)) (strip (cell_text typ)) by_db)
      else Some by_db
  end.

(** One turn of the loop over a file without a [database] column. *)
Definition load_plain_row (schema : schema_t) (row : csv_row) : schema_t :=
  let t := row_get "table_name" row in
  let c := row_get "column_name" row in
  let typ := row_get "column_type" row in
  if truthy t && truthy c && truthy typ
  then schema_set (strip (cell_text t), strip (cell_text c)) (strip (cell_text typ)) schema
  else schema.

(** The loop over the rows of a file with a [database] column: once a row
    has raised, the call has ended. *)
Definition load_loop (rows : list csv_row) (acc : option (list (str * schema_t)))
  : option (list (str * schema_t)) :=
  fold_left (fun acc row =>
               match acc with
               | Some by_db => load_db_row by_db row
               | None => None
               end) rows acc.

(** [load_schema_csv] on the parsed file. *)
Definition load_schema_csv (fieldnames : list str) (rows : list csv_row)
  : option (list (str * schema_t)) :=
  if mem (s "database") fieldnames then load_loop rows (Some [])
  else Some [(s "movie_platform", fold_left load_plain_row rows [])].

(** ** Predicates and checks used in the statements *)

(** The scanner invariant: the segments emitted so far spell the text up to
    [code_start], which the cursor has passed. *)
Definition scanner_ok (sql : str) (st : scanner) : Prop :=
  sc_code_start st <= sc_i st
  /\ join_all (sc_segments st) = firstn (sc_code_start st) sql.

(** The pieces [assemble] joins, one per segment. *)
Definition pieces (rewrite : str -> str) (segs : list (bool * str)) : list str :=
  map (fun seg : bool * str => if fst seg then snd seg else rewrite (snd seg)) segs.

(** [out] is a concatenation of one piece per segment of [sql], in the
    segments' order, the piece of a comment segment being its text. *)
Definition verbatim_comments (sql out : str) : Prop :=
  exists outs : list str,
    Forall2 (fun seg piece => fst seg = true -> piece = snd seg)
            (_split_comments sql) outs
    /\ out = concat outs.

(** What the repetition needs of the matcher it repeats: the result depends
    on the continuation's values only, and there is no match when the
    continuation accepts nothing. *)
Definition respects (body : mstate -> (mstate -> option mstate) -> option mstate) : Prop :=
  (forall st k1 k2, (forall st', k1 st' = k2 st') -> body st k1 = body st k2)
  /\ (forall st, body st (fun _ => None) = None).

(** Every order in which a set can be iterated. *)
Fixpoint insert_everywhere (x : str) (l : list str) : list (list str) :=
  match l with
  | [] => [[x]]
  | y :: l' => (x :: l) :: map (cons y) (insert_everywhere x l')
  end.

Fixpoint perms (l : list str) : list (list str) :=
  match l with
  | [] => [[]]
  | x :: l' => flat_map (insert_everywhere x) (perms l')
  end.

(** [canonicalize_sql] on a non-blank query, the iteration orders given. *)
Definition generic_in_order (tables_iter columns_iter : list str)
    (ids : identifiers) (schema : schema_t) (segments : list (bool * str)) : str :=
  assemble (fun text =>
              apply_in_order tables_iter columns_iter (_replace_literals text)
                (i_table_alias_map ids) (i_col_alias_map ids)
                (Some (i_alias_to_table ids)) schema)
           segments.

(** [out] is the result of [canonicalize_sql] whatever the iteration orders. *)
Definition generic_all_orders (sql : str) (schema : schema_t) (out : str) : bool :=
  if is_blank sql then str_eqb sql out
  else
    let segments := _split_comments sql in
    let non_comment_text := non_comment segments in
    if is_blank non_comment_text then str_eqb sql out
    else
      let ids := _collect_identifiers_regex (_replace_literals non_comment_text) false in
      forallb (fun ti =>
        forallb (fun ci => str_eqb (generic_in_order ti ci ids schema segments) out)
                (perms (i_columns ids)))
        (perms (i_tables ids)).

(** [canonicalize_sql_bird] on a non-blank query, the iteration orders given. *)
Definition bird_in_order (tables_iter columns_iter refs_iter : list str)
    (ids : identifiers) (schema : schema_t) (segments : list (bool * str)) : str :=
  let boolean_col_refs :=
    match schema with [] => [] | _ => sorted_len_desc refs_iter end in
  assemble (fun text =>
              apply_in_order tables_iter columns_iter
                (_replace_literals_bird text boolean_col_refs)
                (table_alias_map_bird (i_table_alias_map ids))
                (col_alias_map_bird (i_col_alias_map ids))
                (Some (i_alias_to_table ids)) [])
           segments.

(** [out] is the result of [canonicalize_sql_bird] whatever the iteration orders. *)
Definition bird_all_orders (sql db_id : str) (schema_by_db : list (str * schema_t))
    (out : str) : bool :=
  if is_blank sql then str_eqb sql out
  else
    let segments := _split_comments sql in
    let non_comment_text := non_comment segments in
    if is_blank non_comment_text then str_eqb sql out
    else
      let schema := schema_for db_id schema_by_db in
      let ids := _collect_identifiers_regex non_comment_text true in
      forallb (fun ti =>
        forallb (fun ci =>
          forallb (fun ri =>
                     str_eqb (bird_in_order ti ci ri ids schema segments) out)
                  (perms (boolean_refs schema (i_tables ids) (i_alias_to_table ids))))
          (perms (i_columns ids)))
        (perms (i_tables ids)).

(** The aliases recorded by the FROM/JOIN ... AS pass. *)
Definition with_as_aliases (sql : str) : list str :=
  a_table_alias_order
    (fold_left on_with_as (finditer from_join_with_as sql)
       (fold_left on_cte (finditer cte_ctx sql) (mkAliases [] [] []))).



Definition typed_schema : list (str * schema_t) :=
  [(s "db", [((s "t", s "x"), s "num"); ((s "t", s "d"), s "date")])].


Definition date_schema : schema_t :=
  [((s "t", s "date"), s "string"); ((s "t", s "code"), s "date")].

Definition binary_schema : schema_t := [((s "t", s "x"), s "binary")].

Definition plain_join : str := s "SELECT a.x FROM t1 a JOIN t2 b ON a.id = b.id".
Definition decimal_join : str := s "SELECT 0.5 * T2.score FROM a AS T1, b AS T2".

(** *** The matcher on texts that lack a class of characters *)

(** A set of cursor positions (character before, text from the cursor on)
    that reading one character does not leave. *)
Definition closed (J : option ascii -> str -> Prop) : Prop :=
  forall p c rest, J p (c :: rest) -> J (Some c) rest.

(** The 256 characters. *)
Definition all_ascii : list ascii := map ascii_of_nat (List.seq 0 256).

(** Every character [test] accepts is in the class [P]. *)
Definition within (P test : ascii -> bool) : bool :=
  forallb (fun x => implb (test x) (P x)) all_ascii.

(** Every match of [r] reads a character of the class [P]. *)
Fixpoint needs (P : ascii -> bool) (ic : bool) (r : re) : bool :=
  match r with
  | Chr c => within P (char_eq ic c)
  | Cls neg items => within P (fun x => xorb neg (cls_has ic items x))
  | Dot => within P (fun x => negb (Ascii.eqb x nl))
  | Digit => within P is_digit
  | Word => within P is_word
  | Space => within P is_space
  | Seq a b => needs P ic a || needs P ic b
  | Alt a b => needs P ic a && needs P ic b
  | Grp _ a => needs P ic a
  | Eps | Wb | Bol | Eol | Star _ | Look _ => false
  end.

(** No character of [t] is in the class [P]. *)
Definition free_of (P : ascii -> bool) (t : str) : bool :=
  forallb (fun c => negb (P c)) t.

Definition is_quote (c : ascii) : bool := Ascii.eqb c squote || Ascii.eqb c dquote.



(** A character a literal is made of: a digit or a quote. *)
Definition literal_char (c : ascii) : bool := is_digit c || is_quote c.




Definition matched (r : option mstate) : bool :=
  match r with Some _ => true | None => false end.

(** *** Spans of the Segmenter *)


(** Every span is non-empty and no code span follows a code span directly. *)
Fixpoint spans_ok (segs : list (bool * str)) : bool :=
  match segs with
  | [] => true
  | (is_c, t) :: rest =>
      negb (match t with [] => true | _ => false end)
      && (is_c || match rest with (false, _) :: _ => false | _ => true end)
      && spans_ok rest
  end.

(** The list of spans is empty or ends with a comment. *)
Definition ends_comment (segs : list (bool * str)) : bool :=
  fst (last segs (true, [])).



(** [--] or [/*] somewhere in the text. *)
Fixpoint has_marker (t : str) : bool :=
  match t with
  | a :: t' =>
      match t' with
      | b :: _ =>
          (Ascii.eqb a "-" && Ascii.eqb b "-") || (Ascii.eqb a "/" && Ascii.eqb b "*")
          || has_marker t'
      | [] => false
      end
  | [] => false
  end.

(** The scanner keeps its list of spans well formed. *)
Definition spans_inv (sql : str) (st : scanner) : Prop :=
  sc_code_start st <= sc_i st
  /\ spans_ok (sc_segments st) = true
  /\ ends_comment (sc_segments st) = true.


(** No comment marker starts at index [p]. *)
Definition no_marker_pair (sql : str) (p : nat) : Prop :=
  str_eqb (slice sql p (p + 2)) (s "--") = false
  /\ str_eqb (slice sql p (p + 2)) (s "/*") = false.

(** The scanner on a text without quotes. *)
Definition plain_inv (sql : str) (st : scanner) : Prop :=
  sc_in_single st = false /\ sc_in_double st = false
  /\ sc_code_start st <= sc_i st /\ sc_i st <= length sql
  /\ (forall p, sc_code_start st <= p -> p < sc_i st -> no_marker_pair sql p)
  /\ (forall t, In (false, t) (sc_segments st) -> has_marker t = false).

(** *** Names *)

(** The four placeholder maps of a query: table and column aliases, in
    generic and in boolean-aware mode. *)
Definition alias_maps (sql : str) (raw_sql : bool) : list dict :=
  let ids := _collect_identifiers_regex sql raw_sql in
  [i_table_alias_map ids; i_col_alias_map ids;
   table_alias_map_bird (i_table_alias_map ids);
   col_alias_map_bird (i_col_alias_map ids)].

(** [r] is one of the references the code builds for a boolean column:
    [t.c], [alias.c] for an alias bound to [t], and the bare [c] when [t] is
    one of the query's tables. *)
Definition boolean_ref_of (schema : schema_t) (tables : list str) (alias_to_table : dict)
    (r : str) : Prop :=
  exists t c typ,
    In ((t, c), typ) schema /\ is_boolean_type typ = true
    /\ (r = dotted t c
        \/ (exists alias, In (alias, t) alias_to_table /\ r = dotted alias c)
        \/ (In t tables /\ r = c)).

(** What the FROM/JOIN passes keep true of the bindings they record. *)
Definition bindings_ok (st : aliases) : Prop :=
  forall a t, dict_get a (a_alias_to_table st) = Some t ->
    In t (a_tables st) /\ In a (a_table_alias_order st)
    /\ mem (upper a) not_table_alias_kw = false.

(** Longest first. *)
Definition longest_first (l : list str) : Prop :=
  StronglySorted (fun a b : str => length b <= length a) l.

(** The spans with the text of the comments blanked out. *)
Definition without_comment_text (segs : list (bool * str)) : list (bool * str) :=
  map (fun seg : bool * str => if fst seg then (true, []) else seg) segs.

Definition is_ascii_letter (c : ascii) : bool := is_ascii_upper c || is_ascii_lower c.

Definition not_ascii_letter (c : ascii) : bool := negb (is_ascii_letter c).

(** *** Loaded schemas *)

(** The keys of the result and of each schema in it are distinct, as in a dict. *)
Definition well_keyed (by_db : list (str * schema_t)) : Prop :=
  NoDup (map fst by_db) /\ forall db schema, In (db, schema) by_db -> NoDup (map fst schema).

(** The header and a row of a schema file of the boolean-aware mode. *)
Definition bird_header : list str :=
  [s "database"; s "table_name"; s "column_name"; s "column_type"].

Definition bird_row (d t c typ : string) : csv_row :=
  [(s "database", Some (s d)); (s "table_name", Some (s t));
   (s "column_name", Some (s c)); (s "column_type", Some (s typ))].

(** *** Quoted literals *)

(** A text with a quoted literal: [pre], the quote [q], [body], the quote
    again, [post]. *)
Definition literal_text (q : ascii) (pre body post : str) : str :=
  pre ++ q :: body ++ q :: post.

(** The quote [q] or a backslash. *)
Definition ends_or_escapes (q : ascii) (c : ascii) : bool :=
  Ascii.eqb c q || Ascii.eqb c backslash.

(** Nothing is emitted yet, or the first span is code and reaches index [L]. *)
Definition head_ok (sql : str) (L : nat) (segs : list (bool * str)) (code_start : nat)
  : Prop :=
  (segs = [] /\ code_start = 0)
  \/ exists j more, L <= j /\ j <= length sql /\ segs = (false, slice sql 0 j) :: more.

(** The scanner on [literal_text q pre body post]: up to the end of the
    literal nothing is emitted and the quote is open exactly inside the
    literal; afterwards the first span, once emitted, is code and reaches
    beyond the literal. *)
Definition literal_inv (q : ascii) (pre body post : str) (st : scanner) : Prop :=
  let sql := literal_text q pre body post in
  let L := length pre + length body + 2 in
  (sc_segments st = [] /\ sc_code_start st = 0
   /\ ((sc_i st <= length pre /\ sc_in_single st = false /\ sc_in_double st = false)
       \/ (length pre < sc_i st /\ sc_i st <= length pre + length body + 1
           /\ sc_in_single st = Ascii.eqb q squote
           /\ sc_in_double st = negb (Ascii.eqb q squote))))
  \/ (L <= sc_i st /\ head_ok sql L (sc_segments st) (sc_code_start st)).

(** *** Ties in the length order *)

(** No two names of the list have the same length. *)
Definition distinct_lengths (l : list str) : Prop :=
  forall x y, In x l -> In y l -> length x = length y -> x = y.

(** The names [canonicalize_sql] collects for a query: from the non-comment
    text after the literal pass. *)
Definition generic_names (sql : str) : identifiers :=
  _collect_identifiers_regex (_replace_literals (non_comment (_split_comments sql))) false.

(** The names [canonicalize_sql_bird] collects: from the raw non-comment text. *)
Definition bird_names (sql : str) : identifiers :=
  _collect_identifiers_regex (non_comment (_split_comments sql)) true.

(** [distinct_lengths], as a check. *)
Definition distinct_lengthsb (l : list str) : bool :=
  forallb (fun x => forallb (fun y => negb (length x =? length y) || str_eqb x y) l) l.

(** *** The surroundings of a number *)

(** The character before the cursor once [t] has been read from a cursor
    with [prev] before it. *)
Definition prev_after (prev : option ascii) (t : str) : option ascii :=
  fold_left (fun _ c => Some c) t prev.

(** The text before a number ends clear of it: it is empty or its last
    character is no word character. *)
Definition ends_clear (pre : str) : bool := negb (word_opt (prev_after None pre)).

(** The text after a number begins clear of it: it is empty or its first
    character is no word character and no dot. *)
Definition starts_clear (post : str) : bool :=
  match post with
  | [] => true
  | c :: _ => negb (is_word c) && negb (Ascii.eqb c ".")
  end.

(** The text is empty or begins with a character outside the class. *)
Definition begins_without (test : ascii -> bool) (t : str) : bool :=
  match t with [] => true | c :: _ => negb (test c) end.

(** *** A comment and what follows it *)

(** The scanner state moved [k] characters to the right, after the spans
    [segs0]. *)
Definition shift_state (k : nat) (segs0 : list (bool * str)) (st : scanner) : scanner :=
  mkScanner (sc_i st + k) (sc_in_single st) (sc_in_double st)
            (sc_code_start st + k) (segs0 ++ sc_segments st).

(** A line comment with its line break: [--], a body without line break,
    the line break. *)
Definition line_comment_text (body : str) : str := s "--" ++ body ++ [nl].

(** A closed block comment. *)
Definition block_comment_text (body : str) : str := s "/*" ++ body ++ s "*/".

(** [*/] somewhere in the text. *)
Fixpoint has_close (t : str) : bool :=
  match t with
  | a :: t' =>
      match t' with
      | b :: _ => (Ascii.eqb a "*" && Ascii.eqb b "/") || has_close t'
      | [] => false
      end
  | [] => false
  end.

(** [c] is a comment with its end: a line comment whose body has no line
    break, or a block comment whose body does not close it earlier. *)
Definition complete_comment (c : str) : Prop :=
  (exists body, c = line_comment_text body /\ free_of (Ascii.eqb nl) body = true)
  \/ (exists body, c = block_comment_text body /\ has_close (body ++ s "*") = false).

(** The code span of the text before a comment: none when it is empty. *)
Definition code_span (pre : str) : list (bool * str) :=
  match pre with [] => [] | _ => [(false, pre)] end.

Ltac conjuncts := repeat match goal with |- _ /\ _ => split end.

(** * Properties *)

(** ** Strings, sets and dicts *)

Lemma str_eqb_eq (a b : str) : str_eqb a b = true <-> a = b.
Proof.
  revert b. induction a as [|x a IH]; intros [|y b]; simpl; split;
    try discriminate; try reflexivity.
  - intros H. apply andb_prop in H as [H1 H2].
    apply Ascii.eqb_eq in H1. apply IH in H2. now subst.
  - intros H. injection H as -> ->. rewrite Ascii.eqb_refl. now apply IH.
Qed.

Lemma str_eqb_refl (a : str) : str_eqb a a = true.
Proof. now apply str_eqb_eq. Qed.

Lemma str_eqb_neq (a b : str) : str_eqb a b = false <-> a <> b.
Proof.
  split.
  - intros H E. apply str_eqb_eq in E. congruence.
  - intros H. destruct (str_eqb a b) eqn:E; [|reflexivity].
    apply str_eqb_eq in E. contradiction.
Qed.

Lemma mem_In (x : str) (xs : list str) : mem x xs = true <-> In x xs.
Proof.
  unfold mem. rewrite existsb_exists. split.
  - intros [y [Hy E]]. apply str_eqb_eq in E. now subst.
  - intros H. exists x. split; [exact H | apply str_eqb_refl].
Qed.

Lemma mem_not_In (x : str) (xs : list str) : mem x xs = false <-> ~ In x xs.
Proof.
  rewrite <- mem_In. destruct (mem x xs); split; congruence.
Qed.

Lemma NoDup_snoc (x : str) (xs : list str) :
  NoDup xs -> ~ In x xs -> NoDup (xs ++ [x]).
Proof.
  intros H Hx. apply NoDup_app; [exact H | repeat constructor; auto |].
  intros y Hy [<- | []]. contradiction.
Qed.

Lemma set_add_NoDup (x : str) (xs : list str) : NoDup xs -> NoDup (set_add x xs).
Proof.
  intros H. unfold set_add. destruct (mem x xs) eqn:E; [exact H|].
  apply NoDup_snoc; [exact H | now apply mem_not_In].
Qed.

Lemma set_add_In (x y : str) (xs : list str) :
  In y (set_add x xs) <-> y = x \/ In y xs.
Proof.
  unfold set_add. destruct (mem x xs) eqn:E.
  - apply mem_In in E. split; [auto | intros [-> | H]; auto].
  - rewrite in_app_iff. simpl. split; intros H; intuition.
Qed.

Lemma dict_get_set_same (k v : str) (d : dict) : dict_get k (dict_set k v d) = Some v.
Proof.
  unfold dict_get. induction d as [|[k' v'] d IH]; simpl.
  - now rewrite str_eqb_refl.
  - destruct (str_eqb k' k) eqn:E; simpl; rewrite E; [reflexivity | exact IH].
Qed.

Lemma dict_get_set_other (k k2 v : str) (d : dict) :
  k2 <> k -> dict_get k2 (dict_set k v d) = dict_get k2 d.
Proof.
  intros H. unfold dict_get. induction d as [|[k' v'] d IH]; simpl.
  - replace (str_eqb k k2) with false; [reflexivity|].
    symmetry. apply str_eqb_neq. congruence.
  - destruct (str_eqb k' k) eqn:E; simpl.
    + apply str_eqb_eq in E. subst k'.
      replace (str_eqb k k2) with false; [reflexivity|].
      symmetry. apply str_eqb_neq. congruence.
    + destruct (str_eqb k' k2); [reflexivity | exact IH].
Qed.

Lemma keys_dict_set_new (k v : str) (d : dict) :
  ~ In k (keys d) -> keys (dict_set k v d) = keys d ++ [k].
Proof.
  unfold keys. induction d as [|[k' v'] d IH]; simpl; intros H; [reflexivity|].
  destruct (str_eqb k' k) eqn:E.
  - apply str_eqb_eq in E. subst. tauto.
  - simpl. f_equal. apply IH. tauto.
Qed.

Lemma fold_left_inv (A B : Type) (P : A -> Prop) (f : A -> B -> A) :
  (forall a b, P a -> P (f a b)) ->
  forall l a, P a -> P (fold_left f l a).
Proof.
  intros Hf. induction l as [|b l IH]; intros a Ha; simpl; [exact Ha|].
  apply IH, Hf, Ha.
Qed.

(** ** Segmenter *)

Lemma firstn_slice (t : str) (a b : nat) :
  a <= b -> firstn a t ++ slice t a b = firstn b t.
Proof.
  intros H. unfold slice.
  rewrite firstn_skipn_comm. replace (a + (b - a)) with b by lia.
  rewrite <- (firstn_skipn a (firstn b t)) at 2.
  rewrite firstn_firstn. now replace (Nat.min a b) with a by lia.
Qed.

Lemma join_all_app (xs ys : list (bool * str)) :
  join_all (xs ++ ys) = join_all xs ++ join_all ys.
Proof. unfold join_all. now rewrite map_app, concat_app. Qed.

Lemma join_all_one (b : bool) (t : str) : join_all [(b, t)] = t.
Proof. unfold join_all. simpl. apply app_nil_r. Qed.

Lemma skip_line_ge (sql : str) : forall fuel i, i <= skip_line fuel sql i.
Proof.
  induction fuel as [|f IH]; intros i; simpl; [lia|].
  destruct (_ && _); [specialize (IH (i + 1)); lia | lia].
Qed.

Lemma skip_block_ge (sql : str) : forall fuel i, i <= skip_block fuel sql i.
Proof.
  induction fuel as [|f IH]; intros i; simpl; [lia|].
  destruct (_ && _); [specialize (IH (i + 1)); lia | lia].
Qed.

(** The inner loops end because their condition fails, not for lack of fuel. *)
Lemma skip_line_exits (sql : str) : forall fuel i,
  length sql - i <= fuel ->
  let j := skip_line fuel sql i in
  (j <? length sql) && negb (is_at sql j nl) = false.
Proof.
  induction fuel as [|f IH]; intros i H; simpl.
  - replace (i <? length sql) with false; [reflexivity|].
    symmetry. apply Nat.ltb_ge. lia.
  - destruct ((i <? length sql) && negb (is_at sql i nl)) eqn:E.
    + apply IH. lia.
    + exact E.
Qed.

Lemma skip_block_exits (sql : str) : forall fuel i,
  length sql - i <= fuel ->
  let j := skip_block fuel sql i in
  (j <? length sql - 1) && negb (str_eqb (slice sql j (j + 2)) (s "*/")) = false.
Proof.
  induction fuel as [|f IH]; intros i H; simpl.
  - replace (i <? length sql - 1) with false; [reflexivity|].
    symmetry. apply Nat.ltb_ge. lia.
  - destruct ((i <? length sql - 1) && _) eqn:E.
    + apply IH. lia.
    + exact E.
Qed.

Lemma split_step_advances (sql : str) (st : scanner) :
  sc_i st < sc_i (split_step sql st).
Proof.
  unfold split_step.
  repeat match goal with
  | |- _ < sc_i (if ?c then _ else _) => destruct c eqn:?
  end; cbv zeta; simpl; try lia.
  - pose proof (skip_line_ge sql (length sql) (sc_i st + 2)).
    destruct (_ <? _); lia.
  - apply andb_prop in Heqb2 as [Hn _]. apply Nat.leb_le in Hn.
    pose proof (skip_block_ge sql (length sql) (sc_i st + 2)).
    destruct (_ <? _); lia.
Qed.

Lemma split_loop_exits_gen (sql : str) : forall fuel st,
  length sql - sc_i st <= fuel -> length sql <= sc_i (split_loop fuel sql st).
Proof.
  induction fuel as [|f IH]; intros st H; simpl.
  - lia.
  - destruct (Nat.ltb_spec (sc_i st) (length sql)); [|lia].
    apply IH. pose proof (split_step_advances sql st). lia.
Qed.

(** [split_final] is the state in which [while i < n] ends. *)
Lemma split_loop_exits (sql : str) : length sql <= sc_i (split_final sql).
Proof. apply split_loop_exits_gen. simpl. lia. Qed.

(** More fuel does not change the scanner's result. *)
Lemma split_loop_fuel (sql : str) : forall fuel extra st,
  length sql - sc_i st <= fuel ->
  split_loop (fuel + extra) sql st = split_loop fuel sql st.
Proof.
  induction fuel as [|f IH]; intros extra st H; simpl.
  - destruct extra; simpl; [reflexivity|].
    destruct (Nat.ltb_spec (sc_i st) (length sql)); [lia | reflexivity].
  - destruct (Nat.ltb_spec (sc_i st) (length sql)); [|reflexivity].
    apply IH. pose proof (split_step_advances sql st). lia.
Qed.

Lemma flush_code_ok (sql : str) (st : scanner) :
  scanner_ok sql st -> join_all (flush_code sql st) = firstn (sc_i st) sql.
Proof.
  intros [Hle Hj]. unfold flush_code.
  destruct (Nat.ltb_spec (sc_code_start st) (sc_i st)).
  - rewrite join_all_app, join_all_one, Hj. apply firstn_slice. lia.
  - rewrite Hj. f_equal. lia.
Qed.

Lemma split_step_ok (sql : str) (st : scanner) :
  scanner_ok sql st -> scanner_ok sql (split_step sql st).
Proof.
  intros H. pose proof H as [Hle Hj]. unfold split_step.
  repeat match goal with
  | |- scanner_ok _ (if ?c then _ else _) => destruct c eqn:?
  end;
  try (split; simpl; [lia | exact Hj]).
  - apply andb_prop in Heqb1 as [Hn _]. apply Nat.leb_le in Hn.
    cbv zeta. split; simpl; [lia|].
    rewrite join_all_app, join_all_one, (flush_code_ok H).
    apply firstn_slice.
    pose proof (skip_line_ge sql (length sql) (sc_i st + 2)).
    destruct (_ <? _); lia.
  - apply andb_prop in Heqb2 as [Hn _]. apply Nat.leb_le in Hn.
    cbv zeta. split; simpl; [lia|].
    rewrite join_all_app, join_all_one, (flush_code_ok H).
    apply firstn_slice.
    pose proof (skip_block_ge sql (length sql) (sc_i st + 2)).
    destruct (_ <? _); lia.
Qed.

Lemma split_loop_ok (sql : str) : forall fuel st,
  scanner_ok sql st -> scanner_ok sql (split_loop fuel sql st).
Proof.
  induction fuel as [|f IH]; intros st H; simpl; [exact H|].
  destruct (_ <? _); [apply IH, split_step_ok, H | exact H].
Qed.

Lemma join_split_comments (sql : str) : join_all (_split_comments sql) = sql.
Proof.
  unfold _split_comments.
  assert (H : scanner_ok sql (split_final sql)).
  { apply split_loop_ok. split; simpl; [lia | reflexivity]. }
  destruct H as [Hle Hj]. cbv zeta.
  destruct (Nat.ltb_spec (sc_code_start (split_final sql)) (length sql)).
  - rewrite join_all_app, join_all_one, Hj, firstn_slice by lia.
    apply firstn_all.
  - rewrite Hj. apply firstn_all2. lia.
Qed.

(** C1.  For every SQL string, the texts of the spans [_split_comments]
    returns, concatenated in order, are the input string: the segmentation
    loses nothing and is defined on every input ([split_loop_exits] shows
    that the scan it reads is the finished one). *)
Theorem segmentation_lossless (sql : str) :
  join_all (_split_comments sql) = sql.
Proof. exact (join_split_comments sql). Qed.

(** C4.  The code does not keep the quote open over a doubled quote: the
    scanner tests the second quote of the pair on its own and closes the
    literal there.  In [SELECT 'it''s -- no'] it is out of the literal after
    the pair (twelve characters in), and the [--] that follows inside the
    literal is cut off as a comment span. *)
Theorem doubled_quote_closes_literal :
  _split_comments (s "SELECT 'it''s -- no'")
  = [(false, s "SELECT 'it''s "); (true, s "-- no'")]
  /\ (let st := split_loop 12 (s "SELECT 'it''s -- no'") split_init in
      sc_i st = 12 /\ sc_in_single st = false).
Proof. vm_compute. repeat split. Qed.

(** ** The matcher: its fuel is enough *)

Lemma or_else_ext (a b : option mstate) (f g : unit -> option mstate) :
  a = b -> f tt = g tt -> or_else a f = or_else b g.
Proof. intros -> H. destruct b; simpl; [reflexivity | exact H]. Qed.

Lemma star_loop_ext body k1 k2 :
  respects body -> (forall st', k1 st' = k2 st') ->
  forall fuel st, star_loop body k1 fuel st = star_loop body k2 fuel st.
Proof.
  intros [Hb _] Hk. induction fuel as [|f IH]; intros st; simpl; [apply Hk|].
  apply or_else_ext; [|apply Hk].
  apply Hb. intros st'. destruct (_ <? _); [apply IH | reflexivity].
Qed.

Lemma star_loop_none body :
  respects body -> forall fuel st, star_loop body (fun _ => None) fuel st = None.
Proof.
  intros [Hb Hn]. induction fuel as [|f IH]; intros st; simpl; [reflexivity|].
  rewrite (Hb st _ (fun _ => None)); [now rewrite Hn|].
  intros st'. destruct (_ <? _); [apply IH | reflexivity].
Qed.

Lemma eat_ext test st k1 k2 :
  (forall st', k1 st' = k2 st') -> eat test st k1 = eat test st k2.
Proof.
  intros H. unfold eat. destruct (m_rest st); [reflexivity|].
  destruct (test a); [apply H | reflexivity].
Qed.

Lemma eat_none test st : eat test st (fun _ => None) = None.
Proof. unfold eat. destruct (m_rest st); [reflexivity|]. now destruct (test a). Qed.

Lemma run_respects (ic : bool) (r : re) : respects (run ic r).
Proof.
  induction r as [ | c | neg items | | | | | | | | a IHa b IHb | a IHa b IHb
                 | a IHa | n a IHa | a IHa ]; split; intros st; simpl;
    try (intros k1 k2 H; apply eat_ext; exact H);
    try (apply eat_none).
  - intros k1 k2 H. apply H.
  - reflexivity.
  - intros k1 k2 H. destruct (at_boundary st); [apply H | reflexivity].
  - now destruct (at_boundary st).
  - intros k1 k2 H. destruct (m_prev st); [reflexivity | apply H].
  - now destruct (m_prev st).
  - intros k1 k2 H. destruct (at_eol st); [apply H | reflexivity].
  - now destruct (at_eol st).
  - intros k1 k2 H. apply IHa. intros st'. apply IHb. exact H.
  - rewrite (proj1 IHa st _ (fun _ => None)); [apply IHa|].
    intros st'. apply IHb.
  - intros k1 k2 H. apply or_else_ext; [apply IHa | apply IHb]; exact H.
  - rewrite (proj2 IHa). simpl. apply IHb.
  - intros k1 k2 H. apply star_loop_ext; assumption.
  - apply star_loop_none. exact IHa.
  - intros k1 k2 H. apply IHa. intros st'. apply H.
  - apply IHa.
  - intros k1 k2 H. destruct (run ic a st _); [apply H | reflexivity].
  - now destruct (run ic a st _).
Qed.

(** Any fuel from [len(rest)] on gives the repetition the same result. *)
Lemma star_loop_fuel body k :
  respects body ->
  forall f1 f2 st,
    length (m_rest st) <= f1 -> length (m_rest st) <= f2 ->
    star_loop body k f1 st = star_loop body k f2 st.
Proof.
  intros [Hb Hn].
  assert (Hzero : forall f st, length (m_rest st) = 0 ->
                  star_loop body k f st = k st).
  { intros [|f] st H0; simpl; [reflexivity|].
    rewrite (Hb st _ (fun _ => None)); [now rewrite Hn|].
    intros st'. rewrite H0.
    now replace (length (m_rest st') <? 0) with false
      by (symmetry; apply Nat.ltb_ge; lia). }
  induction f1 as [|f1 IH]; intros f2 st H1 H2.
  - rewrite (Hzero f2) by lia. reflexivity.
  - destruct f2 as [|f2].
    + rewrite (Hzero (S f1)) by lia. reflexivity.
    + simpl. apply or_else_ext; [|reflexivity].
      apply Hb. intros st'.
      destruct (Nat.ltb_spec (length (m_rest st')) (length (m_rest st)));
        [|reflexivity].
      apply IH; lia.
Qed.

Lemma run_star_fuel (ic : bool) (a : re) (st : mstate) (k : mstate -> option mstate)
    (fuel : nat) :
  length (m_rest st) <= fuel ->
  run ic (Star a) st k = star_loop (run ic a) k fuel st.
Proof.
  intros H. simpl. apply star_loop_fuel; [apply run_respects | lia | exact H].
Qed.

(** Any fuel from [len(rest) + 1] on gives [re.sub] and [re.finditer] the
    same result. *)
Lemma sub_loop_fuel (p : pattern) (repl : str) :
  forall f1 f2 prev rest,
    S (length rest) <= f1 -> S (length rest) <= f2 ->
    sub_loop f1 p repl prev rest = sub_loop f2 p repl prev rest.
Proof.
  induction f1 as [|f1 IH]; intros f2 prev rest H1 H2; [lia|].
  destruct f2 as [|f2]; [lia|]. simpl.
  destruct (match_here p prev rest) as [e|].
  - destruct (Nat.ltb_spec (length (m_rest e)) (length rest)).
    + f_equal. apply IH; lia.
    + f_equal. destruct rest as [|c rest]; [reflexivity|].
      f_equal. simpl in *. apply IH; lia.
  - destruct rest as [|c rest]; [reflexivity|].
    f_equal. simpl in *. apply IH; lia.
Qed.

Lemma finditer_loop_fuel (p : pattern) :
  forall f1 f2 prev rest,
    S (length rest) <= f1 -> S (length rest) <= f2 ->
    finditer_loop f1 p prev rest = finditer_loop f2 p prev rest.
Proof.
  induction f1 as [|f1 IH]; intros f2 prev rest H1 H2; [lia|].
  destruct f2 as [|f2]; [lia|]. simpl.
  destruct (match_here p prev rest) as [e|].
  - destruct (Nat.ltb_spec (length (m_rest e)) (length rest)).
    + f_equal. apply IH; lia.
    + f_equal. destruct rest as [|c rest]; [reflexivity|].
      simpl in *. apply IH; lia.
  - destruct rest as [|c rest]; [reflexivity|].
    simpl in *. apply IH; lia.
Qed.

(** ** Literal normalizer *)

(** The examples of the spec, and an identifier that ends in a digit. *)
Lemma literal_examples :
  _replace_literals (s "SELECT * FROM t WHERE x = 5") = s "SELECT * FROM t WHERE x = NUM"
  /\ _replace_literals (s "WHERE name = 'Alice'") = s "WHERE name = STR"
  /\ _replace_literals (s "WHERE d = DATE '2020-01-01'") = s "WHERE d = DATE"
  /\ _replace_literals (s "WHERE col2 = 1.5e-3 AND t = timestamp '2020-01-01 00:00'")
     = s "WHERE col2 = NUM AND t = DATE".
Proof. vm_compute. repeat split. Qed.

(** C5.  A leading-dot decimal is not replaced by [NUM]: the first numeric
    pattern takes the digits after the dot, and the pattern written for
    leading-dot decimals asks for a word boundary before the dot, which a
    decimal that starts with the dot does not have.  The dot stays:
    [x = .5] becomes [x = .NUM], where [x = 0.5] becomes [x = NUM]. *)
Theorem leading_dot_decimal_keeps_dot :
  _replace_literals (s "SELECT * FROM t WHERE x = .5")
  = s "SELECT * FROM t WHERE x = .NUM"
  /\ sub dot_number_pattern (s "NUM") (s "SELECT * FROM t WHERE x = .5")
     = s "SELECT * FROM t WHERE x = .5"
  /\ _replace_literals (s "SELECT * FROM t WHERE x = 0.5")
     = s "SELECT * FROM t WHERE x = NUM".
Proof. vm_compute. repeat split. Qed.

(** ** Assembler *)

Lemma assemble_id (segs : list (bool * str)) :
  assemble (fun t => t) segs = join_all segs.
Proof.
  unfold assemble, join_all. f_equal. apply map_ext.
  intros [b t]. simpl. now destruct b.
Qed.

Lemma pieces_verbatim (rewrite : str -> str) (segs : list (bool * str)) :
  Forall2 (fun seg out => fst seg = true -> out = snd seg) segs (pieces rewrite segs).
Proof.
  induction segs as [|[b t] segs IH]; simpl; constructor; [|exact IH].
  simpl. now intros ->.
Qed.

Lemma assemble_verbatim (rewrite : str -> str) (sql : str) :
  verbatim_comments sql (assemble rewrite (_split_comments sql)).
Proof.
  exists (pieces rewrite (_split_comments sql)). split.
  - apply pieces_verbatim.
  - reflexivity.
Qed.

(** The early returns give the input back, which is its own segments joined. *)
Lemma identity_verbatim (sql : str) : verbatim_comments sql sql.
Proof.
  rewrite <- (join_split_comments sql) at 2.
  rewrite <- assemble_id. apply assemble_verbatim.
Qed.

(** C2.  For every input, schema and iteration order, the output of
    [canonicalize_sql] and of [canonicalize_sql_bird] is the concatenation of
    one piece per span of the Segmenter, in the spans' order, and the piece
    of every comment span is that span's text, character for character. *)
Theorem comments_preserved (o : set_order) (sql : str) (schema : schema_t)
    (db_id : str) (schema_by_db : list (str * schema_t)) :
  verbatim_comments sql (canonicalize_sql o sql schema)
  /\ verbatim_comments sql (canonicalize_sql_bird o sql db_id schema_by_db).
Proof.
  split.
  - unfold canonicalize_sql.
    destruct (is_blank sql); [apply identity_verbatim|].
    cbv zeta. destruct (is_blank (non_comment (_split_comments sql)));
      [apply identity_verbatim | apply assemble_verbatim].
  - unfold canonicalize_sql_bird.
    destruct (is_blank sql); [apply identity_verbatim|].
    cbv zeta. destruct (is_blank (non_comment (_split_comments sql)));
      [apply identity_verbatim | apply assemble_verbatim].
Qed.

(** ** Iteration orders of sets *)

Lemma insert_everywhere_in (x : str) (p1 p2 : list str) :
  In (p1 ++ x :: p2) (insert_everywhere x (p1 ++ p2)).
Proof.
  induction p1 as [|y p1 IH]; simpl.
  - destruct p2; simpl; auto.
  - right. apply in_map. exact IH.
Qed.

Lemma perms_complete (l : list str) : forall p, Permutation p l -> In p (perms l).
Proof.
  induction l as [|x l IH]; intros p H.
  - apply Permutation_sym, Permutation_nil in H. subst. simpl. auto.
  - assert (Hx : In x p).
    { apply (Permutation_in x (Permutation_sym H)). simpl. auto. }
    apply in_split in Hx as [p1 [p2 ->]].
    simpl. apply in_flat_map. exists (p1 ++ p2). split.
    + apply IH. apply Permutation_sym in H.
      apply Permutation_cons_app_inv in H. now apply Permutation_sym.
    + apply insert_everywhere_in.
Qed.

Lemma set_iter_in_perms (o : set_order) (l : list str) : In (set_iter o l) (perms l).
Proof. apply perms_complete, set_iter_perm. Qed.

Lemma set_iter_nil (o : set_order) : set_iter o [] = [].
Proof. apply Permutation_nil, Permutation_sym, set_iter_perm. Qed.

(** A result checked for every iteration order holds for the interpreter's. *)
Lemma generic_all_orders_sound (sql : str) (schema : schema_t) (out : str) :
  generic_all_orders sql schema out = true ->
  forall o, canonicalize_sql o sql schema = out.
Proof.
  unfold generic_all_orders, canonicalize_sql. intros H o.
  destruct (is_blank sql); [now apply str_eqb_eq|].
  cbv zeta in *.
  destruct (is_blank (non_comment (_split_comments sql))); [now apply str_eqb_eq|].
  rewrite forallb_forall in H.
  specialize (H _ (set_iter_in_perms o _)).
  rewrite forallb_forall in H.
  specialize (H _ (set_iter_in_perms o _)).
  apply str_eqb_eq in H. exact H.
Qed.

Lemma bird_all_orders_sound (sql db_id : str) (schema_by_db : list (str * schema_t))
    (out : str) :
  bird_all_orders sql db_id schema_by_db out = true ->
  forall o, canonicalize_sql_bird o sql db_id schema_by_db = out.
Proof.
  unfold bird_all_orders, canonicalize_sql_bird. intros H o.
  destruct (is_blank sql); [now apply str_eqb_eq|].
  cbv zeta in *.
  destruct (is_blank (non_comment (_split_comments sql))); [now apply str_eqb_eq|].
  rewrite forallb_forall in H.
  specialize (H _ (set_iter_in_perms o _)).
  rewrite forallb_forall in H.
  specialize (H _ (set_iter_in_perms o _)).
  rewrite forallb_forall in H.
  specialize (H _ (set_iter_in_perms o _)).
  apply str_eqb_eq in H. exact H.
Qed.

Ltac all_orders :=
  match goal with
  | |- canonicalize_sql _ _ _ = _ =>
      apply generic_all_orders_sound; vm_compute; reflexivity
  | |- canonicalize_sql_bird _ _ _ _ = _ =>
      apply bird_all_orders_sound; vm_compute; reflexivity
  end.

(** ** Numbering of aliases *)

Lemma enumerate_dict_other (prefix : string) (a : str) : forall order i d,
  ~ In a order ->
  dict_get a (enumerate_dict prefix i order d) = dict_get a d.
Proof.
  induction order as [|b order IH]; intros i d H; simpl; [reflexivity|].
  rewrite IH by (simpl in H; tauto).
  apply dict_get_set_other. simpl in H. intros ->. tauto.
Qed.

Lemma enumerate_dict_nth (prefix : string) (a : str) : forall order i d k,
  NoDup order -> nth_error order k = Some a ->
  dict_get a (enumerate_dict prefix i order d) = Some (numbered prefix (i + k)).
Proof.
  induction order as [|b order IH]; intros i d k Hnd Hk.
  - destruct k; discriminate.
  - inversion Hnd as [|? ? Hb Hnd']; subst. destruct k as [|k]; simpl in *.
    + injection Hk as ->. rewrite enumerate_dict_other by exact Hb.
      rewrite dict_get_set_same. f_equal. f_equal. lia.
    + rewrite (IH (S i) (dict_set b (numbered prefix i) d) k Hnd' Hk).
      f_equal. f_equal. lia.
Qed.

Lemma enumerate_dict_keys (prefix : string) : forall order i d,
  NoDup (keys d ++ order) ->
  keys (enumerate_dict prefix i order d) = keys d ++ order.
Proof.
  induction order as [|b order IH]; intros i d H; simpl.
  - now rewrite app_nil_r.
  - assert (Hb : ~ In b (keys d)).
    { apply NoDup_remove_2 in H. intros Hin. apply H. apply in_or_app. auto. }
    rewrite IH; rewrite keys_dict_set_new by exact Hb.
    + now rewrite <- app_assoc.
    + now rewrite <- app_assoc.
Qed.

Lemma bind_alias_NoDup (a t : str) (st : aliases) :
  NoDup (a_table_alias_order st) -> NoDup (a_table_alias_order (bind_alias a t st)).
Proof.
  intros H. unfold bind_alias. simpl.
  destruct (mem a (a_table_alias_order st)) eqn:E; [exact H|].
  apply NoDup_snoc; [exact H | now apply mem_not_In].
Qed.

Lemma alias_passes_NoDup (sql : str) : NoDup (a_table_alias_order (alias_passes sql)).
Proof.
  unfold alias_passes.
  repeat (apply fold_left_inv with (P := fun st => NoDup (a_table_alias_order st));
          [intros st caps H | ]).
  - exact H.
  - unfold on_no_as. cbv zeta. destruct (grp 2 caps); [exact H|].
    destruct (_ && _); [now apply bind_alias_NoDup | exact H].
  - unfold on_with_as. cbv zeta.
    destruct (negb _); [now apply bind_alias_NoDup | exact H].
  - exact H.
  - constructor.
Qed.

Lemma table_alias_order_NoDup (sql : str) : NoDup (table_alias_order_of sql).
Proof.
  unfold table_alias_order_of, qualified_pass.
  apply fold_left_inv with (P := fun acc : list str * list str => NoDup (snd acc)).
  - intros [cols order] caps H. unfold on_qualified. simpl in *.
    destruct (negb (mem (grp 1 caps) order) && _ && _); [|exact H].
    destruct (mem (grp 1 caps) order) eqn:E; simpl; [exact H|].
    apply NoDup_snoc; [exact H | now apply mem_not_In].
  - simpl. apply alias_passes_NoDup.
Qed.

Lemma fold_left_extends (A B : Type) (order : A -> list str) (f : A -> B -> A) :
  (forall a b, exists ext, order (f a b) = order a ++ ext) ->
  forall l a, exists ext, order (fold_left f l a) = order a ++ ext.
Proof.
  intros Hf. induction l as [|b l IH]; intros a; simpl.
  - exists []. now rewrite app_nil_r.
  - destruct (IH (f a b)) as [e1 H1]. destruct (Hf a b) as [e2 H2].
    exists (e2 ++ e1). now rewrite H1, H2, app_assoc.
Qed.

Lemma bind_alias_extends (a t : str) (st : aliases) :
  exists ext, a_table_alias_order (bind_alias a t st) = a_table_alias_order st ++ ext.
Proof.
  unfold bind_alias. simpl. destruct (mem a (a_table_alias_order st)).
  - exists []. now rewrite app_nil_r.
  - now exists [a].
Qed.

Lemma same_extends (l : list str) : exists ext : list str, l = l ++ ext.
Proof. exists []. now rewrite app_nil_r. Qed.

(** Later passes only append: the aliases of the FROM/JOIN ... AS pass come
    first, then the new ones of the pass without AS, then the qualifiers
    inferred from [q.col] references. *)
Lemma alias_order_by_pass (sql : str) :
  exists no_as_new inferred,
    a_table_alias_order (alias_passes sql) = with_as_aliases sql ++ no_as_new
    /\ table_alias_order_of sql = with_as_aliases sql ++ no_as_new ++ inferred.
Proof.
  assert (H1 : exists e, a_table_alias_order (alias_passes sql) = with_as_aliases sql ++ e).
  { unfold alias_passes, with_as_aliases.
    set (st := fold_left on_with_as _ _).
    destruct (fold_left_extends a_table_alias_order on_no_as) with
      (l := finditer from_join_no_as sql) (a := st) as [e1 E1].
    { intros a caps. unfold on_no_as. cbv zeta.
      destruct (grp 2 caps) as [|c w]; [apply same_extends|].
      destruct (_ && _); [|apply same_extends].
      destruct (bind_alias_extends (c :: w) (grp 1 caps) (add_table (grp 1 caps) a))
        as [e He]. exists e. exact He. }
    destruct (fold_left_extends a_table_alias_order on_table_only) with
      (l := finditer from_join_table_only sql)
      (a := fold_left on_no_as (finditer from_join_no_as sql) st) as [e2 E2].
    { intros a caps. apply same_extends. }
    exists (e1 ++ e2). rewrite E2, E1. now rewrite app_assoc. }
  destruct H1 as [e H1]. exists e.
  unfold table_alias_order_of, qualified_pass.
  destruct (fold_left_extends (fun acc : list str * list str => snd acc)
              (on_qualified (a_tables (alias_passes sql))))
    with (l := finditer qualified sql)
         (a := (@nil str, a_table_alias_order (alias_passes sql))) as [e3 E3].
  { intros [cols order] caps. unfold on_qualified. simpl.
    destruct (negb (mem (grp 1 caps) order) && _ && _); [|apply same_extends].
    destruct (mem (grp 1 caps) order); simpl; [apply same_extends | now exists [grp 1 caps]]. }
  exists e3. split; [exact H1|]. rewrite E3. simpl. rewrite H1. now rewrite app_assoc.
Qed.

(** The claim's query in both modes, and the same aliases used more often
    and in another order: [a] keeps 0 and [b] keeps 1. *)
Lemma plain_join_numbering (o : set_order) :
  table_alias_order_of plain_join = [s "a"; s "b"]
  /\ canonicalize_sql o plain_join []
     = s "SELECT table_alias_placeholder0.col_name FROM table_name table_alias_placeholder0 JOIN table_name table_alias_placeholder1 ON table_alias_placeholder0.col_name = table_alias_placeholder1.col_name"
  /\ canonicalize_sql_bird o plain_join (s "db") []
     = s "SELECT table_alias0.col_name FROM table_name table_alias0 JOIN table_name table_alias1 ON table_alias0.col_name = table_alias1.col_name"
  /\ canonicalize_sql o (s "SELECT b.x, b.x, a.x FROM t1 a JOIN t2 b ON b.id = a.id AND b.x = a.x") []
     = s "SELECT table_alias_placeholder1.col_name, table_alias_placeholder1.col_name, table_alias_placeholder0.col_name FROM table_name table_alias_placeholder0 JOIN table_name table_alias_placeholder1 ON table_alias_placeholder1.col_name = table_alias_placeholder0.col_name AND table_alias_placeholder1.col_name = table_alias_placeholder0.col_name".
Proof.
  split; [vm_compute; reflexivity|]. conjuncts; all_orders.
Qed.




(** ** Schema-aware substitution *)



(** A column without a unique type leaves the text of step 2 as it is. *)
Lemma schema_column_step_skips (schema : schema_t) (col : str) (out : str) :
  unique_type schema col = None ->
  schema_column_step [col] schema out = (out, []).
Proof. intros H. unfold schema_column_step. simpl. now rewrite H. Qed.


(** ** Boolean-aware mode *)

Lemma bird_output_from_refs (o : set_order) (sql db_id : str)
    (schema_by_db1 schema_by_db2 : list (str * schema_t)) :
  let ids := _collect_identifiers_regex (non_comment (_split_comments sql)) true in
  _build_boolean_col_refs o (schema_for db_id schema_by_db1)
                          (i_tables ids) (i_alias_to_table ids)
  = _build_boolean_col_refs o (schema_for db_id schema_by_db2)
                            (i_tables ids) (i_alias_to_table ids) ->
  canonicalize_sql_bird o sql db_id schema_by_db1
  = canonicalize_sql_bird o sql db_id schema_by_db2.
Proof.
  cbv zeta. intros H. unfold canonicalize_sql_bird.
  destruct (is_blank sql); [reflexivity|]. cbv zeta.
  destruct (is_blank (non_comment (_split_comments sql))); [reflexivity|].
  now rewrite H.
Qed.

Lemma boolean_refs_none (schema : schema_t) (tables : list str) (a2t : dict) :
  (forall e, In e schema -> is_boolean_type (snd e) = false) ->
  boolean_refs schema tables a2t = [].
Proof.
  intros H. unfold boolean_refs. cbv zeta.
  assert (F : forall (f : list str -> (str * str) * str -> list str),
             (forall r e, In e schema -> f r e = r) -> forall r, fold_left f schema r = r).
  { intros f Hf. clear H. induction schema as [|e sch IH]; intros r; simpl; [reflexivity|].
    rewrite Hf by (simpl; auto). apply IH. intros r' e' He'. apply Hf. simpl. auto. }
  rewrite F.
  - apply F. intros r [[t c] typ] He. specialize (H _ He). simpl in H. now rewrite H.
  - intros r [[t c] typ] He. specialize (H _ He). simpl in H. now rewrite H.
Qed.

(** X19.  A schema without boolean columns gives the output of no schema at all:
    the types num, string, date of its columns are never substituted. *)
Lemma bird_ignores_column_types (o : set_order) (sql db_id : str)
    (schema_by_db : list (str * schema_t)) :
  (forall e, In e (schema_for db_id schema_by_db) -> is_boolean_type (snd e) = false) ->
  canonicalize_sql_bird o sql db_id schema_by_db = canonicalize_sql_bird o sql db_id [].
Proof.
  intros H. apply bird_output_from_refs. cbv zeta.
  unfold _build_boolean_col_refs. rewrite boolean_refs_none by exact H.
  rewrite set_iter_nil. simpl. now destruct (schema_for db_id schema_by_db).
Qed.

(** Where generic mode substitutes the type, boolean-aware mode does not. *)
Lemma bird_keeps_col_name (o : set_order) :
  canonicalize_sql_bird o (s "SELECT x FROM t WHERE t.d = 1") (s "db") typed_schema
  = s "SELECT col_name FROM table_name WHERE table_name.col_name = num"
  /\ canonicalize_sql o (s "SELECT x FROM t WHERE t.d = 1") (schema_for (s "db") typed_schema)
  = s "SELECT num FROM table_name WHERE table_name.date = NUM".
Proof. conjuncts; all_orders. Qed.





(** ** Determinism and idempotence *)

(** C9.  The output depends on the order in which the interpreter iterates
    over the set [columns]: [date] and [code] have the same length, so
    [sorted(columns, key=len, reverse=True)] keeps the set's order, and the
    type tag [date] written for [code] is rewritten again as the column
    [date] when that column comes second. *)
Theorem output_depends_on_set_order :
  canonicalize_sql insertion_order (s "SELECT T1.date, code FROM t AS T1") date_schema
  = s "SELECT table_alias_placeholder0.string, date FROM table_name AS table_alias_placeholder0"
  /\ canonicalize_sql reverse_order (s "SELECT T1.date, code FROM t AS T1") date_schema
  = s "SELECT table_alias_placeholder0.string, string FROM table_name AS table_alias_placeholder0"
  /\ canonicalize_sql insertion_order (s "SELECT T1.date, code FROM t AS T1") date_schema
     <> canonicalize_sql reverse_order (s "SELECT T1.date, code FROM t AS T1") date_schema.
Proof. vm_compute. conjuncts; try reflexivity. discriminate. Qed.

(** C3.  A second pass changes the template.  In boolean-aware mode the
    integer part of the decimal 0.5 is counted as a table alias, so [T2]
    gets index 2 in the first pass and 1 in the second.  In generic mode the
    type tag [binary] of the schema is a column to the second pass. *)
Theorem second_pass_changes_template (o : set_order) :
  canonicalize_sql_bird o decimal_join (s "db") []
  = s "SELECT num * table_alias2.col_name FROM table_name AS table_alias0, col_name AS table_alias2"
  /\ canonicalize_sql_bird o (canonicalize_sql_bird o decimal_join (s "db") []) (s "db") []
  = s "SELECT num * table_alias1.col_name FROM table_name AS table_alias0, col_name AS table_alias1"
  /\ canonicalize_sql o (s "SELECT x FROM t") binary_schema
  = s "SELECT binary FROM table_name"
  /\ canonicalize_sql o (canonicalize_sql o (s "SELECT x FROM t") binary_schema) binary_schema
  = s "SELECT col_name FROM table_name".
Proof.
  assert (B : canonicalize_sql_bird o decimal_join (s "db") []
    = s "SELECT num * table_alias2.col_name FROM table_name AS table_alias0, col_name AS table_alias2")
    by all_orders.
  assert (G : canonicalize_sql o (s "SELECT x FROM t") binary_schema
    = s "SELECT binary FROM table_name") by all_orders.
  rewrite B, G. split; [reflexivity|]. split; [all_orders|].
  split; [reflexivity | all_orders].
Qed.

(** * Further properties of the code *)

(** ** Segmenter: shape of the spans *)

Lemma slice_length (t : str) (a b : nat) :
  b <= length t -> length (slice t a b) = b - a.
Proof. intros H. unfold slice. rewrite length_firstn, length_skipn. lia. Qed.


Lemma slice_nonempty (t : str) (a b : nat) :
  a < b -> b <= length t -> slice t a b <> [].
Proof.
  intros Hab Hb E. apply (f_equal (@length ascii)) in E.
  rewrite slice_length in E by exact Hb. simpl in E. lia.
Qed.

Lemma slice_slice (t : str) (a b c d : nat) :
  a + d <= b -> slice (slice t a b) c d = slice t (a + c) (a + d).
Proof.
  intros H. unfold slice.
  rewrite skipn_firstn_comm, firstn_firstn, skipn_skipn.
  replace (Nat.min (d - c) (b - a - c)) with (a + d - (a + c)) by lia.
  now replace (c + a) with (a + c) by lia.
Qed.


Lemma slice_all (t : str) : slice t 0 (length t) = t.
Proof. unfold slice. simpl. rewrite Nat.sub_0_r. apply firstn_all. Qed.

Lemma skip_line_le (sql : str) : forall fuel i,
  i <= length sql -> skip_line fuel sql i <= length sql.
Proof.
  induction fuel as [|f IH]; intros i H; simpl; [exact H|].
  destruct (Nat.ltb_spec i (length sql)); simpl; [|exact H].
  destruct (negb _); [apply IH; lia | exact H].
Qed.



Lemma skip_block_le (sql : str) : forall fuel i,
  i <= length sql -> skip_block fuel sql i <= length sql.
Proof.
  induction fuel as [|f IH]; intros i H; simpl; [exact H|].
  destruct (Nat.ltb_spec i (length sql - 1)); simpl; [|exact H].
  destruct (negb _); [apply IH; lia | exact H].
Qed.

Lemma spans_ok_snoc_comment (t : str) : forall segs,
  spans_ok segs = true -> t <> [] -> spans_ok (segs ++ [(true, t)]) = true.
Proof.
  induction segs as [|[b t0] segs IH]; intros H Ht; simpl.
  - destruct t; [congruence | reflexivity].
  - simpl in H. apply andb_prop in H as [H H3]. apply andb_prop in H as [H1 H2].
    rewrite H1, (IH H3 Ht). simpl. rewrite andb_true_r.
    destruct b; [reflexivity|]. simpl in *.
    destruct segs as [|[b1 t1] segs]; [reflexivity | exact H2].
Qed.

Lemma ends_comment_tail (x y : bool * str) (segs : list (bool * str)) :
  ends_comment (x :: y :: segs) = ends_comment (y :: segs).
Proof. reflexivity. Qed.

Lemma spans_ok_snoc_code (t : str) : forall segs,
  spans_ok segs = true -> ends_comment segs = true -> t <> [] ->
  spans_ok (segs ++ [(false, t)]) = true.
Proof.
  induction segs as [|[b t0] segs IH]; intros H He Ht; simpl.
  - destruct t; [congruence | reflexivity].
  - simpl in H. apply andb_prop in H as [H H3]. apply andb_prop in H as [H1 H2].
    rewrite H1. simpl.
    destruct segs as [|[b1 t1] segs].
    + unfold ends_comment in He. simpl in He. subst b. simpl.
      destruct t; [congruence | reflexivity].
    + rewrite ends_comment_tail in He. rewrite (IH H3 He Ht).
      rewrite andb_true_r. simpl. exact H2.
Qed.

Lemma ends_comment_snoc (segs : list (bool * str)) (t : str) :
  ends_comment (segs ++ [(true, t)]) = true.
Proof. unfold ends_comment. now rewrite last_last. Qed.

Lemma spans_ok_In (is_c : bool) (t : str) : forall segs,
  spans_ok segs = true -> In (is_c, t) segs -> t <> [].
Proof.
  induction segs as [|[b t0] segs IH]; intros H Hin; [destruct Hin|].
  simpl in H. apply andb_prop in H as [H H3]. apply andb_prop in H as [H1 H2].
  destruct Hin as [E|Hin]; [|now apply IH].
  injection E as -> ->. now destruct t.
Qed.

Lemma spans_ok_no_adjacent_code (t1 t2 : str) (l2 : list (bool * str)) : forall l1,
  spans_ok (l1 ++ (false, t1) :: (false, t2) :: l2) = false.
Proof.
  induction l1 as [|[b t0] l1 IH]; simpl.
  - now rewrite andb_false_r.
  - rewrite IH. apply andb_false_r.
Qed.

Lemma flush_code_spans (sql : str) (st : scanner) :
  sc_i st < length sql -> spans_inv sql st -> spans_ok (flush_code sql st) = true.
Proof.
  intros Hi (Hle & Hok & He). unfold flush_code.
  destruct (Nat.ltb_spec (sc_code_start st) (sc_i st)); [|exact Hok].
  apply spans_ok_snoc_code; [exact Hok | exact He |].
  apply slice_nonempty; lia.
Qed.

Lemma split_step_spans (sql : str) (st : scanner) :
  sc_i st < length sql -> spans_inv sql st -> spans_inv sql (split_step sql st).
Proof.
  intros Hi H. pose proof H as (Hle & Hok & He). unfold split_step.
  repeat match goal with
  | |- spans_inv _ (if ?c then _ else _) => destruct c eqn:?
  end;
  try (split; [simpl; lia | split; assumption]).
  - apply andb_prop in Heqb1 as [Hn _]. apply Nat.leb_le in Hn.
    cbv zeta. split; [simpl; lia|]. simpl. split; [|apply ends_comment_snoc].
    apply spans_ok_snoc_comment; [now apply flush_code_spans|].
    pose proof (skip_line_ge sql (length sql) (sc_i st + 2)).
    pose proof (@skip_line_le sql (length sql) (sc_i st + 2) Hn).
    apply slice_nonempty; destruct (Nat.ltb_spec (skip_line (length sql) sql (sc_i st + 2)) (length sql)); lia.
  - apply andb_prop in Heqb2 as [Hn _]. apply Nat.leb_le in Hn.
    cbv zeta. split; [simpl; lia|]. simpl. split; [|apply ends_comment_snoc].
    apply spans_ok_snoc_comment; [now apply flush_code_spans|].
    pose proof (skip_block_ge sql (length sql) (sc_i st + 2)).
    apply slice_nonempty; destruct (Nat.ltb_spec (skip_block (length sql) sql (sc_i st + 2)) (length sql - 1)); lia.
Qed.

Lemma split_loop_spans (sql : str) : forall fuel st,
  spans_inv sql st -> spans_inv sql (split_loop fuel sql st).
Proof.
  induction fuel as [|f IH]; intros st H; simpl; [exact H|].
  destruct (Nat.ltb_spec (sc_i st) (length sql)); [|exact H].
  now apply IH, split_step_spans.
Qed.

Lemma split_comments_spans_ok (sql : str) : spans_ok (_split_comments sql) = true.
Proof.
  assert (H : spans_inv sql (split_final sql)).
  { apply split_loop_spans. repeat split. simpl. lia. }
  destruct H as (Hle & Hok & He). unfold _split_comments. cbv zeta.
  destruct (Nat.ltb_spec (sc_code_start (split_final sql)) (length sql)); [|exact Hok].
  apply spans_ok_snoc_code; [exact Hok | exact He |].
  apply slice_nonempty; lia.
Qed.

(** X1.  The Segmenter never returns an empty span, and never two code
    spans in a row: between two comments all the code is one span. *)
Theorem spans_well_formed (sql : str) :
  (forall is_c t, In (is_c, t) (_split_comments sql) -> t <> [])
  /\ (forall l1 t1 t2 l2,
        _split_comments sql <> l1 ++ (false, t1) :: (false, t2) :: l2).
Proof.
  pose proof (split_comments_spans_ok sql) as H. split.
  - intros is_c t Hin. exact (@spans_ok_In is_c t _ H Hin).
  - intros l1 t1 t2 l2 E. rewrite E, spans_ok_no_adjacent_code in H. discriminate.
Qed.

(** *** Extent of the comment spans *)











(** *** Text without comment markers *)

Lemma no_marker_at (m : str) : forall sql i,
  m = s "--" \/ m = s "/*" ->
  has_marker sql = false -> str_eqb (slice sql i (i + 2)) m = false.
Proof.
  intros sql i Hm. revert i.
  induction sql as [|a sql IH]; intros i H.
  - unfold slice. rewrite skipn_nil, firstn_nil. destruct Hm as [-> | ->]; reflexivity.
  - destruct i as [|i].
    + unfold slice. simpl. simpl in H. destruct sql as [|b sql].
      * destruct Hm as [-> | ->]; simpl; now rewrite andb_false_r.
      * apply orb_false_elim in H as [H _]. apply orb_false_elim in H as [H1 H2].
        simpl. destruct Hm as [-> | ->]; simpl; rewrite andb_true_r.
        -- exact H1.
        -- exact H2.
    + change (slice (a :: sql) (S i) (S i + 2)) with (slice sql i (i + 2)).
      apply IH. simpl in H. destruct sql as [|b sql]; [reflexivity|].
      now apply orb_false_elim in H as [_ H].
Qed.

Lemma split_step_no_marker (sql : str) (st : scanner) :
  has_marker sql = false ->
  sc_segments st = [] /\ sc_code_start st = 0 ->
  sc_segments (split_step sql st) = [] /\ sc_code_start (split_step sql st) = 0.
Proof.
  intros Hm H. unfold split_step.
  rewrite (@no_marker_at (s "--") sql (sc_i st)) by (auto).
  rewrite (@no_marker_at (s "/*") sql (sc_i st)) by (auto).
  rewrite !andb_false_r.
  repeat match goal with
  | |- context [if ?c then _ else _] => destruct c
  end; exact H.
Qed.

Lemma split_loop_no_marker (sql : str) :
  has_marker sql = false ->
  forall fuel st,
    sc_segments st = [] /\ sc_code_start st = 0 ->
    sc_segments (split_loop fuel sql st) = []
    /\ sc_code_start (split_loop fuel sql st) = 0.
Proof.
  intros Hm. induction fuel as [|f IH]; intros st H; simpl; [exact H|].
  destruct (_ <? _); [|exact H]. apply IH. now apply split_step_no_marker.
Qed.

(** X3.  A text without [--] and without [/*] is one code span, the whole
    text; the empty text has no span. *)
Theorem no_marker_one_span (sql : str) :
  has_marker sql = false ->
  _split_comments sql = match sql with [] => [] | _ => [(false, sql)] end.
Proof.
  intros Hm.
  assert (H : sc_segments (split_final sql) = [] /\ sc_code_start (split_final sql) = 0).
  { apply split_loop_no_marker; [exact Hm | now split]. }
  destruct H as [Hs Hc]. unfold _split_comments. cbv zeta. rewrite Hs, Hc.
  destruct sql as [|a sql]; [reflexivity|].
  change (0 <? length (a :: sql)) with true. cbv iota.
  now rewrite slice_all.
Qed.

Lemma no_marker_one_span_witness :
  has_marker (s "SELECT a - b FROM t") = false
  /\ _split_comments (s "SELECT a - b FROM t") = [(false, s "SELECT a - b FROM t")].
Proof.
  split; [vm_compute; reflexivity|].
  apply (@no_marker_one_span (s "SELECT a - b FROM t")). vm_compute. reflexivity.
Defined.

Lemma str_eqb_length (a b : str) : length a <> length b -> str_eqb a b = false.
Proof.
  intros H. apply str_eqb_neq. intros ->. now apply H.
Qed.

Lemma has_marker_pairs : forall t,
  (forall q, no_marker_pair t q) -> has_marker t = false.
Proof.
  induction t as [|a t IH]; intros H; [reflexivity|].
  destruct t as [|b t]; [reflexivity|].
  change (has_marker (a :: b :: t))
    with ((Ascii.eqb a "-" && Ascii.eqb b "-") || (Ascii.eqb a "/" && Ascii.eqb b "*")
          || has_marker (b :: t)).
  destruct (H 0) as [H1 H2]. unfold slice in H1, H2. simpl in H1, H2.
  rewrite andb_true_r in H1, H2. rewrite H1, H2. simpl.
  apply IH. intros q. exact (H (S q)).
Qed.

Lemma has_marker_slice (sql : str) (a b : nat) :
  b <= length sql ->
  (forall p, a <= p -> p + 2 <= b -> no_marker_pair sql p) ->
  has_marker (slice sql a b) = false.
Proof.
  intros Hb H. apply has_marker_pairs. intros q.
  destruct (Nat.le_gt_cases (q + 2) (b - a)) as [Hq|Hq].
  - unfold no_marker_pair. rewrite slice_slice by lia.
    replace (a + (q + 2)) with (a + q + 2) by lia. apply H; lia.
  - split; apply str_eqb_length; unfold slice at 1;
      rewrite length_firstn, length_skipn, slice_length by lia; simpl; lia.
Qed.

Lemma is_at_free (P : ascii -> bool) (sql : str) (i : nat) (c : ascii) :
  free_of P sql = true -> P c = true -> is_at sql i c = false.
Proof.
  intros Hf Hc. unfold is_at. destruct (nth_error sql i) as [x|] eqn:E; [|reflexivity].
  apply nth_error_In in E. unfold free_of in Hf. rewrite forallb_forall in Hf.
  specialize (Hf x E). destruct (Ascii.eqb x c) eqn:Ex; [|reflexivity].
  apply Ascii.eqb_eq in Ex. subst x. rewrite Hc in Hf. discriminate.
Qed.

Lemma flush_code_plain (sql : str) (st : scanner) :
  plain_inv sql st ->
  forall t, In (false, t) (flush_code sql st) -> has_marker t = false.
Proof.
  intros (_ & _ & Hle & Hn & Hp & Hs) t. unfold flush_code.
  destruct (_ <? _); [|apply Hs].
  intros Hin. apply in_app_or in Hin as [Hin | [E | []]]; [now apply Hs|].
  injection E as <-. apply has_marker_slice; [lia|].
  intros p H1 H2. apply Hp; lia.
Qed.

Lemma split_step_plain (sql : str) (st : scanner) :
  free_of is_quote sql = true ->
  sc_i st < length sql -> plain_inv sql st -> plain_inv sql (split_step sql st).
Proof.
  intros Hq Hi H. pose proof H as (H1 & H2 & Hle & Hn & Hp & Hs).
  unfold split_step. rewrite H1, H2.
  rewrite (@is_at_free is_quote sql (sc_i st) squote Hq eq_refl).
  rewrite (@is_at_free is_quote sql (sc_i st) dquote Hq eq_refl).
  cbn [andb].
  destruct ((sc_i st + 2 <=? length sql) && str_eqb _ (s "--")) eqn:E1.
  { apply andb_prop in E1 as [En _]. apply Nat.leb_le in En. cbv zeta.
    pose proof (@skip_line_le sql (length sql) (sc_i st + 2) En).
    pose proof (skip_line_ge sql (length sql) (sc_i st + 2)).
    refine (conj eq_refl (conj eq_refl (conj _ (conj _ (conj _ _))))); simpl.
    - lia.
    - destruct (Nat.ltb_spec (skip_line (length sql) sql (sc_i st + 2)) (length sql)); lia.
    - intros p Ha Hb. lia.
    - intros t Hin. apply in_app_or in Hin as [Hin | [E | []]]; [|discriminate].
      now apply (flush_code_plain H). }
  destruct ((sc_i st + 2 <=? length sql) && str_eqb _ (s "/*")) eqn:E2.
  { apply andb_prop in E2 as [En _]. apply Nat.leb_le in En. cbv zeta.
    pose proof (@skip_block_le sql (length sql) (sc_i st + 2) En).
    pose proof (skip_block_ge sql (length sql) (sc_i st + 2)).
    refine (conj eq_refl (conj eq_refl (conj _ (conj _ (conj _ _))))); simpl.
    - lia.
    - destruct (Nat.ltb_spec (skip_block (length sql) sql (sc_i st + 2)) (length sql - 1)); lia.
    - intros p Ha Hb. lia.
    - intros t Hin. apply in_app_or in Hin as [Hin | [E | []]]; [|discriminate].
      now apply (flush_code_plain H). }
  refine (conj eq_refl (conj eq_refl (conj _ (conj _ (conj _ Hs))))); simpl; try lia.
  intros p Ha Hb.
  destruct (Nat.eq_dec p (sc_i st)) as [->|Hne]; [|apply Hp; lia].
  destruct (Nat.leb_spec (sc_i st + 2) (length sql)) as [Hl|Hl].
  - simpl in E1, E2. now split.
  - split; apply str_eqb_length; unfold slice;
      rewrite length_firstn, length_skipn; simpl; lia.
Qed.

Lemma split_loop_plain (sql : str) :
  free_of is_quote sql = true ->
  forall fuel st, plain_inv sql st -> plain_inv sql (split_loop fuel sql st).
Proof.
  intros Hq. induction fuel as [|f IH]; intros st H; simpl; [exact H|].
  destruct (Nat.ltb_spec (sc_i st) (length sql)); [|exact H].
  now apply IH, split_step_plain.
Qed.

(** X4.  In a text without quotes every comment is found: no code span
    contains [--] or [/*]. *)
Theorem code_spans_without_markers (sql : str) (t : str) :
  free_of is_quote sql = true ->
  In (false, t) (_split_comments sql) -> has_marker t = false.
Proof.
  intros Hq.
  assert (H : plain_inv sql (split_final sql)).
  { apply split_loop_plain; [exact Hq|].
    refine (conj eq_refl (conj eq_refl (conj _ (conj _ (conj _ _))))); simpl; lia. }
  destruct H as (_ & _ & Hle & Hn & Hp & Hs).
  unfold _split_comments. cbv zeta. destruct (_ <? _); [|apply Hs].
  intros Hin. apply in_app_or in Hin as [Hin | [E | []]]; [now apply Hs|].
  injection E as <-. apply has_marker_slice; [lia|].
  intros p H1 H2. apply Hp; [exact H1|].
  pose proof (split_loop_exits sql). lia.
Qed.

Lemma code_spans_without_markers_witness :
  free_of is_quote (s "a - b -- c") = true
  /\ In (false, s "a - b ") (_split_comments (s "a - b -- c"))
  /\ has_marker (s "a - b ") = false.
Proof.
  split; [vm_compute; reflexivity|]. split; [vm_compute; tauto|].
  apply (@code_spans_without_markers (s "a - b -- c") (s "a - b ")).
  - vm_compute; reflexivity.
  - vm_compute; tauto.
Defined.

(** X5.  The scan ends: every turn of the loop moves the index forward, so
    after at most [len(sql)] turns the loop condition [i < n] fails. *)
Theorem scan_terminates (sql : str) :
  (forall st, sc_i st < sc_i (split_step sql st))
  /\ length sql <= sc_i (split_loop (length sql) sql split_init).
Proof.
  split; [intros st; apply split_step_advances | apply split_loop_exits].
Qed.

(** ** The matcher on texts that lack a class of characters *)

Lemma all_ascii_complete (x : ascii) : In x all_ascii.
Proof.
  unfold all_ascii. rewrite <- (ascii_nat_embedding x).
  apply in_map, in_seq. pose proof (nat_ascii_bounded x). lia.
Qed.

Lemma within_spec (P test : ascii -> bool) (x : ascii) :
  within P test = true -> test x = true -> P x = true.
Proof.
  unfold within. rewrite forallb_forall. intros H Hx.
  specialize (H x (all_ascii_complete x)). rewrite Hx in H. exact H.
Qed.

(** A continuation that fails on a closed set of positions makes the
    matcher fail from any position of the set. *)
Lemma run_closed_fail (J : option ascii -> str -> Prop) (ic : bool) (r : re) :
  closed J ->
  forall st k,
    J (m_prev st) (m_rest st) ->
    (forall st', J (m_prev st') (m_rest st') -> k st' = None) ->
    run ic r st k = None.
Proof.
  intros HJ.
  assert (Heat : forall test st k,
             J (m_prev st) (m_rest st) ->
             (forall st', J (m_prev st') (m_rest st') -> k st' = None) ->
             eat test st k = None).
  { intros test [p rest caps] k Hst Hk. unfold eat. simpl in *.
    destruct rest as [|c rest]; [reflexivity|].
    destruct (test c); [|reflexivity]. apply Hk. simpl. eapply HJ, Hst. }
  induction r as [ | c | neg items | | | | | | | | a IHa b IHb | a IHa b IHb
                 | a IHa | n a IHa | a IHa ]; intros st k Hst Hk; simpl;
    try (apply Heat; assumption).
  - now apply Hk.
  - destruct (at_boundary st); [now apply Hk | reflexivity].
  - destruct (m_prev st) eqn:E; [reflexivity | ]. apply Hk. now rewrite E.
  - destruct (at_eol st); [now apply Hk | reflexivity].
  - apply IHa; [exact Hst|]. intros st' H'. now apply IHb.
  - rewrite IHa by assumption. simpl. now apply IHb.
  - generalize (length (m_rest st)). intros fuel. revert st Hst.
    induction fuel as [|f IHf]; intros st Hst; simpl; [now apply Hk|].
    rewrite IHa; [simpl; now apply Hk | exact Hst |].
    intros st' H'. destruct (_ <? _); [now apply IHf | reflexivity].
  - apply IHa; [exact Hst|]. intros st' H'. apply Hk. simpl. exact H'.
  - destruct (run ic a st _); [now apply Hk | reflexivity].
Qed.

Lemma free_of_closed (P : ascii -> bool) : closed (fun _ rest => free_of P rest = true).
Proof. intros p c rest H. simpl in H. now apply andb_prop in H. Qed.

(** A pattern that needs a character of a class finds nothing in a text
    without such characters. *)
Lemma needs_fail (P : ascii -> bool) (ic : bool) (r : re) :
  needs P ic r = true ->
  forall st k, free_of P (m_rest st) = true -> run ic r st k = None.
Proof.
  assert (Heat : forall test st k,
             within P test = true -> free_of P (m_rest st) = true ->
             eat test st k = None).
  { intros test [p rest caps] k Hw Hf. unfold eat. simpl in *.
    destruct rest as [|c rest]; [reflexivity|].
    destruct (test c) eqn:E; [|reflexivity].
    simpl in Hf. apply andb_prop in Hf as [Hc _].
    rewrite (within_spec _ _ _ Hw E) in Hc. discriminate. }
  induction r as [ | c | neg items | | | | | | | | a IHa b IHb | a IHa b IHb
                 | a IHa | n a IHa | a IHa ]; intros Hn st k Hf; simpl in *;
    try discriminate; try (apply Heat; assumption).
  - destruct (needs P ic a) eqn:Ea.
    + now apply IHa.
    + simpl in Hn.
      apply (run_closed_fail (J := fun _ rest => free_of P rest = true));
        [apply free_of_closed | exact Hf |].
      intros st' H'. now apply IHb.
  - apply andb_prop in Hn as [Ha Hb].
    rewrite IHa by assumption. simpl. now apply IHb.
  - now apply IHa.
Qed.


(** [re.sub] gives the text back, and [re.finditer] nothing, when the
    pattern matches at no position. *)
Lemma sub_loop_no_match (p : pattern) (repl : str) (Q : option ascii -> str -> Prop) :
  closed Q ->
  (forall prev rest, Q prev rest -> match_here p prev rest = None) ->
  forall fuel prev rest, Q prev rest -> sub_loop fuel p repl prev rest = rest.
Proof.
  intros HQ Hm. induction fuel as [|f IH]; intros prev rest Hq; simpl; [reflexivity|].
  rewrite Hm by exact Hq. destruct rest as [|c rest]; [reflexivity|].
  f_equal. apply IH. eapply HQ, Hq.
Qed.

Lemma finditer_loop_no_match (p : pattern) (Q : option ascii -> str -> Prop) :
  closed Q ->
  (forall prev rest, Q prev rest -> match_here p prev rest = None) ->
  forall fuel prev rest, Q prev rest -> finditer_loop fuel p prev rest = [].
Proof.
  intros HQ Hm. induction fuel as [|f IH]; intros prev rest Hq; simpl; [reflexivity|].
  rewrite Hm by exact Hq. destruct rest as [|c rest]; [reflexivity|].
  apply IH. eapply HQ, Hq.
Qed.

Lemma sub_needs (P : ascii -> bool) (p : pattern) (repl t : str) :
  needs P (p_icase p) (p_re p) = true -> free_of P t = true -> sub p repl t = t.
Proof.
  intros Hn Hf. unfold sub.
  apply sub_loop_no_match with (Q := fun _ rest => free_of P rest = true);
    [apply free_of_closed | | exact Hf].
  intros prev rest H. unfold match_here. now apply (needs_fail _ _ _ Hn).
Qed.

(** ** Texts the rewriting leaves alone *)





Lemma free_of_weaken (P Q : ascii -> bool) (t : str) :
  (forall c, Q c = true -> P c = true) -> free_of P t = true -> free_of Q t = true.
Proof.
  intros H. unfold free_of. rewrite !forallb_forall. intros Hf c Hc.
  specialize (Hf c Hc). destruct (Q c) eqn:E; [|reflexivity].
  rewrite (H c E) in Hf. discriminate.
Qed.























(** ** Numeric tokens *)

Lemma matched_or_else (a : option mstate) (b : unit -> option mstate) :
  matched (or_else a b) = matched a || matched (b tt).
Proof. now destruct a. Qed.

Lemma run_seq_cons (ic : bool) (r : re) (rs : list re) (st : mstate)
    (k : mstate -> option mstate) :
  run ic (seq (r :: rs)) st k = run ic r st (fun st' => run ic (seq rs) st' k).
Proof. destruct rs; reflexivity. Qed.

(** A literal word, matched to the end of the text without regard to case. *)
Lemma run_lit_to_end (t : str) :
  lower t = t ->
  forall w prev caps,
    matched (run true (lit t) (mkM prev w caps)
                 (fun st => match m_rest st with [] => Some st | _ => None end))
    = str_eqb (lower w) t.
Proof.
  unfold lit. induction t as [|c t IH]; intros Ht w prev caps.
  - simpl. now destruct w.
  - simpl in Ht. injection Ht as Hc Ht.
    change (map Chr (c :: t)) with (Chr c :: map Chr t). rewrite run_seq_cons.
    simpl. unfold eat. simpl. destruct w as [|x w]; [reflexivity|].
    unfold char_eq. rewrite Hc. simpl. rewrite (Ascii.eqb_sym c).
    destruct (Ascii.eqb (lower_char x) c); [|reflexivity].
    simpl. now apply IH.
Qed.

Lemma letters_free (P : ascii -> bool) (w : str) :
  within not_ascii_letter P = true ->
  forallb is_ascii_letter w = true -> free_of P w = true.
Proof.
  intros HP Hw. unfold free_of. rewrite forallb_forall in *. intros c Hc.
  specialize (Hw c Hc). destruct (P c) eqn:E; [|reflexivity].
  apply (within_spec _ _ _ HP) in E. unfold not_ascii_letter in E.
  rewrite Hw in E. discriminate.
Qed.

Lemma drop_space_letters (w : str) :
  forallb is_ascii_letter w = true -> drop_space w = w.
Proof.
  destruct w as [|c w]; [reflexivity|]. simpl. intros H.
  apply andb_prop in H as [H _].
  assert (E : is_space c = false).
  { destruct (is_space c) eqn:E; [|reflexivity].
    assert (W : within not_ascii_letter is_space = true) by (vm_compute; reflexivity).
    apply (within_spec _ _ _ W) in E. unfold not_ascii_letter in E.
    rewrite H in E. discriminate. }
  now rewrite E.
Qed.

Lemma strip_letters (w : str) : forallb is_ascii_letter w = true -> strip w = w.
Proof.
  intros H. unfold strip. rewrite (drop_space_letters _ H).
  rewrite drop_space_letters; [apply rev_involutive|].
  rewrite forallb_forall in *. intros c Hc. apply H. now apply in_rev.
Qed.

Lemma drop_underscores_letters : forall (w : str) (prev : option ascii),
  match prev with Some p => Ascii.eqb p "_" = false | None => True end ->
  forallb is_ascii_letter w = true -> drop_underscores prev w = Some w.
Proof.
  induction w as [|c w IH]; intros prev Hp H; simpl.
  - destruct prev as [p|]; [now rewrite Hp | reflexivity].
  - simpl in H. apply andb_prop in H as [Hc Hw].
    assert (E : Ascii.eqb c "_" = false).
    { destruct (Ascii.eqb c "_") eqn:E; [|reflexivity].
      apply Ascii.eqb_eq in E. subst c. discriminate. }
    rewrite E.
    replace (match prev with
             | Some p => Ascii.eqb p "_" && negb (is_ascii_digit c)
             | None => false end) with false
      by (destruct prev as [p|]; [now rewrite Hp | reflexivity]).
    now rewrite (IH (Some c) E Hw).
Qed.

Lemma run_Seq (ic : bool) (a b : re) (st : mstate) (k : mstate -> option mstate) :
  run ic (Seq a b) st k = run ic a st (fun st' => run ic b st' k).
Proof. reflexivity. Qed.

Lemma run_Alt (ic : bool) (a b : re) (st : mstate) (k : mstate -> option mstate) :
  run ic (Alt a b) st k = or_else (run ic a st k) (fun _ => run ic b st k).
Proof. reflexivity. Qed.

Lemma run_Eps (ic : bool) (st : mstate) (k : mstate -> option mstate) :
  run ic Eps st k = k st.
Proof. reflexivity. Qed.

Lemma float_syntax_shape :
  p_re float_syntax
  = Seq (opt (Cls false [CChar "+"; CChar "-"]))
        (Alt (ch "infinity") (Alt (ch "inf") (Alt (ch "nan")
           (seq [alts [seq [plus Digit; opt (Chr "."); Star Digit];
                       seq [Chr "."; plus Digit]];
                 opt (seq [Chr "e"; opt (Cls false [CChar "+"; CChar "-"]);
                           plus Digit])])))).
Proof. reflexivity. Qed.

Lemma fullmatch_float_letters (w : str) :
  forallb is_ascii_letter w = true ->
  fullmatch float_syntax w = mem (lower w) (words ["infinity"; "inf"; "nan"]).
Proof.
  intros H. unfold fullmatch.
  change (match ?r with Some _ => true | None => false end) with (matched r).
  rewrite float_syntax_shape.
  change (p_icase float_syntax) with true.
  set (kend := fun st : mstate => match m_rest st with [] => Some st | _ => None end).
  unfold opt. rewrite run_Seq, run_Alt, matched_or_else.
  rewrite (@needs_fail (fun c => Ascii.eqb c "+" || Ascii.eqb c "-") true
             (Cls false [CChar "+"; CChar "-"]));
    [| vm_compute; reflexivity | apply letters_free; [vm_compute; reflexivity | exact H]].
  cbn [matched orb]. rewrite run_Eps. cbv beta.
  rewrite !run_Alt, !matched_or_else.
  unfold ch. rewrite !run_lit_to_end by reflexivity.
  match goal with |- context [run true ?r ?st kend] =>
    rewrite (@needs_fail (fun c => is_digit c || Ascii.eqb c ".") true r) end;
    [| vm_compute; reflexivity | apply letters_free; [vm_compute; reflexivity | exact H]].
  reflexivity.
Qed.

(** X10.  Among the tokens made of ASCII letters only, the numeric ones are
    exactly inf, infinity and nan in any letter case: [float] reads them, so
    in raw mode the bare-word pass does not take them for columns. *)
Theorem letter_tokens_numeric (w : str) :
  forallb is_ascii_letter w = true ->
  _is_numeric_token w = mem (lower w) (words ["infinity"; "inf"; "nan"]).
Proof.
  intros H. destruct w as [|c w]; [reflexivity|].
  unfold _is_numeric_token.
  assert (Hd : isdigit (c :: w) = false).
  { unfold isdigit. simpl. simpl in H. apply andb_prop in H as [Hc _].
    assert (W : within not_ascii_letter char_isdigit = true) by (vm_compute; reflexivity).
    destruct (char_isdigit c) eqn:E; [|reflexivity].
    apply (within_spec _ _ _ W) in E. unfold not_ascii_letter in E.
    rewrite Hc in E. discriminate. }
  rewrite Hd. unfold float_ok.
  rewrite (strip_letters _ H), (@drop_underscores_letters _ None I H).
  now apply fullmatch_float_letters.
Qed.

Lemma letter_tokens_numeric_witness :
  forallb is_ascii_letter (s "NaN") = true
  /\ _is_numeric_token (s "NaN") = mem (lower (s "NaN")) (words ["infinity"; "inf"; "nan"]).
Proof.
  split; [vm_compute; reflexivity|].
  apply (@letter_tokens_numeric (s "NaN")). vm_compute. reflexivity.
Defined.

(** ** What the resolver records *)

Lemma to_uint_not_nil (n : nat) : Nat.to_uint n <> Decimal.Nil.
Proof.
  intros E. pose proof (Unsigned.of_to n) as H. rewrite E in H. simpl in H.
  subst n. discriminate.
Qed.

Lemma s_inj (x y : string) : s x = s y -> x = y.
Proof.
  intros H. apply (f_equal string_of_list_ascii) in H.
  unfold s in H. now rewrite !string_of_list_ascii_of_string in H.
Qed.

Lemma numbered_inj (prefix : string) (i j : nat) :
  numbered prefix i = numbered prefix j -> i = j.
Proof.
  unfold numbered. intros H. apply app_inv_head, s_inj in H.
  apply (f_equal NilZero.uint_of_string) in H.
  rewrite !NilZero.usu in H by apply to_uint_not_nil.
  injection H as H. now apply Unsigned.to_uint_inj.
Qed.

Lemma dict_get_nil (a : str) : dict_get a [] = None.
Proof. reflexivity. Qed.

Lemma enumerate_dict_index (prefix : string) (order : list str) (a v : str) :
  NoDup order ->
  dict_get a (enumerate_dict prefix 0 order []) = Some v ->
  exists k, nth_error order k = Some a /\ v = numbered prefix k.
Proof.
  intros Hnd H. destruct (in_dec (list_eq_dec ascii_dec) a order) as [Hin|Hout].
  - apply In_nth_error in Hin as [k Hk]. exists k. split; [exact Hk|].
    rewrite (@enumerate_dict_nth prefix a order 0 [] k Hnd Hk) in H.
    now injection H as <-.
  - rewrite enumerate_dict_other in H by exact Hout. discriminate.
Qed.

Lemma enumerate_dict_inj (prefix : string) (order : list str) (a b v : str) :
  NoDup order ->
  dict_get a (enumerate_dict prefix 0 order []) = Some v ->
  dict_get b (enumerate_dict prefix 0 order []) = Some v ->
  a = b.
Proof.
  intros Hnd Ha Hb.
  destruct (@enumerate_dict_index prefix order a v Hnd Ha) as [k [Hk ->]].
  destruct (@enumerate_dict_index prefix order b _ Hnd Hb) as [k' [Hk' E]].
  apply numbered_inj in E. subst k'. congruence.
Qed.

Lemma col_alias_order_NoDup (sql : str) : NoDup (col_alias_order_of sql).
Proof.
  unfold col_alias_order_of. apply fold_left_inv; [|constructor].
  intros order caps H. unfold on_as_alias. cbv zeta.
  destruct (mem _ col_alias_kw); [exact H|].
  destruct (mem _ (a_table_alias_order _)); [exact H|].
  destruct (mem (grp 1 caps) order) eqn:E; [exact H|].
  apply NoDup_snoc; [exact H | now apply mem_not_In].
Qed.

Lemma keys_enumerate (prefix : string) (order : list str) :
  NoDup order -> keys (enumerate_dict prefix 0 order []) = order.
Proof. intros H. now rewrite enumerate_dict_keys. Qed.

(** X11.  Placeholders are never shared: in each of the four alias maps of a
    query, two aliases with the same placeholder are the same alias. *)
Theorem placeholders_injective (sql : str) (raw_sql : bool) (m : dict) (a b v : str) :
  In m (alias_maps sql raw_sql) ->
  dict_get a m = Some v -> dict_get b m = Some v -> a = b.
Proof.
  pose proof (table_alias_order_NoDup sql) as Ht.
  pose proof (col_alias_order_NoDup sql) as Hc.
  unfold alias_maps, _collect_identifiers_regex. cbv zeta. simpl.
  intros [<- | [<- | [<- | [<- | []]]]].
  - now apply enumerate_dict_inj.
  - now apply enumerate_dict_inj.
  - unfold table_alias_map_bird. rewrite keys_enumerate by exact Ht.
    now apply enumerate_dict_inj.
  - unfold col_alias_map_bird. rewrite keys_enumerate by exact Hc.
    now apply enumerate_dict_inj.
Qed.

Lemma placeholders_injective_witness :
  In (table_alias_map_bird (i_table_alias_map (_collect_identifiers_regex plain_join true)))
     (alias_maps plain_join true)
  /\ (dict_get (s "b") (table_alias_map_bird
                          (i_table_alias_map (_collect_identifiers_regex plain_join true)))
      = Some (s "table_alias1"))
  /\ s "b" = s "b".
Proof.
  split; [right; right; left; reflexivity|].
  split; [vm_compute; reflexivity|].
  apply (@placeholders_injective plain_join true
           (table_alias_map_bird (i_table_alias_map (_collect_identifiers_regex plain_join true)))
           (s "b") (s "b") (s "table_alias1")).
  - right; right; left; reflexivity.
  - vm_compute; reflexivity.
  - vm_compute; reflexivity.
Defined.

(** *** What the FROM/JOIN passes record *)

Lemma add_table_ok (t : str) (st : aliases) : bindings_ok st -> bindings_ok (add_table t st).
Proof.
  intros H a t' E. simpl in E. destruct (H a t' E) as (H1 & H2 & H3).
  simpl. repeat split; [|exact H2 | exact H3].
  apply set_add_In. now right.
Qed.

Lemma bind_alias_ok (a t : str) (st : aliases) :
  mem (upper a) not_table_alias_kw = false ->
  bindings_ok st -> bindings_ok (bind_alias a t (add_table t st)).
Proof.
  intros Hkw H a' t' E. simpl in E.
  assert (Hsub : forall x, In x (a_table_alias_order st) ->
                 In x (if mem a (a_table_alias_order st) then a_table_alias_order st
                       else a_table_alias_order st ++ [a])).
  { intros x Hx. destruct (mem a _); [exact Hx | apply in_or_app; now left]. }
  destruct (list_eq_dec ascii_dec a' a) as [->|Hne].
  - rewrite dict_get_set_same in E. injection E as <-. simpl.
    repeat split; [apply set_add_In; now left | | exact Hkw].
    destruct (mem a (a_table_alias_order st)) eqn:Em.
    + now apply mem_In.
    + apply in_or_app. right. now left.
  - rewrite dict_get_set_other in E by exact Hne.
    destruct (H a' t' E) as (H1 & H2 & H3). simpl.
    repeat split; [apply set_add_In; now right | now apply Hsub | exact H3].
Qed.

Lemma alias_passes_ok (sql : str) : bindings_ok (alias_passes sql).
Proof.
  unfold alias_passes. cbv zeta.
  repeat (apply fold_left_inv with (P := bindings_ok); [intros st caps H | ]).
  - now apply add_table_ok.
  - unfold on_no_as. cbv zeta. destruct (grp 2 caps) as [|c w]; [now apply add_table_ok|].
    destruct (negb (str_eqb _ _) && negb (mem _ _)) eqn:E; [|now apply add_table_ok].
    apply andb_prop in E as [_ E]. apply negb_true_iff in E.
    now apply bind_alias_ok.
  - unfold on_with_as. cbv zeta.
    destruct (negb (mem _ _)) eqn:E; [|now apply add_table_ok].
    apply negb_true_iff in E. now apply bind_alias_ok.
  - now apply add_table_ok.
  - intros a t E. discriminate.
Qed.

Lemma alias_order_kept (sql : str) (a : str) :
  In a (a_table_alias_order (alias_passes sql)) -> In a (table_alias_order_of sql).
Proof.
  destruct (alias_order_by_pass sql) as (e1 & e2 & H1 & H2).
  rewrite H1, H2, app_assoc. intros H. apply in_or_app. now left.
Qed.

Lemma enumerate_dict_has (prefix : string) (order : list str) (a : str) :
  NoDup order -> In a order -> dict_has a (enumerate_dict prefix 0 order []) = true.
Proof.
  intros Hnd Hin. apply In_nth_error in Hin as [k Hk]. unfold dict_has.
  now rewrite (@enumerate_dict_nth prefix a order 0 [] k Hnd Hk).
Qed.

(** X12.  Every binding [alias -> table] the resolver returns is usable: the
    table is one of the collected tables, the alias has a placeholder in the
    table-alias map, and the alias is none of the reserved words that may
    follow a table name. *)
Theorem alias_bindings_sound (sql : str) (raw_sql : bool) (a t : str) :
  let ids := _collect_identifiers_regex sql raw_sql in
  dict_get a (i_alias_to_table ids) = Some t ->
  In t (i_tables ids)
  /\ dict_has a (i_table_alias_map ids) = true
  /\ mem (upper a) not_table_alias_kw = false.
Proof.
  cbv zeta. unfold _collect_identifiers_regex. cbv zeta. simpl. intros H.
  destruct (@alias_passes_ok sql a t H) as (H1 & H2 & H3).
  repeat split; [exact H1 | | exact H3].
  apply enumerate_dict_has; [apply table_alias_order_NoDup | now apply alias_order_kept].
Qed.

Lemma alias_bindings_sound_witness :
  dict_get (s "b") (i_alias_to_table (_collect_identifiers_regex plain_join false))
  = Some (s "t2")
  /\ In (s "t2") (i_tables (_collect_identifiers_regex plain_join false))
  /\ dict_has (s "b") (i_table_alias_map (_collect_identifiers_regex plain_join false)) = true
  /\ mem (upper (s "b")) not_table_alias_kw = false.
Proof.
  split; [vm_compute; reflexivity|].
  apply (@alias_bindings_sound plain_join false (s "b") (s "t2")).
  vm_compute. reflexivity.
Defined.

(** X13.  A column alias is never a reserved word of the column-alias list and
    never an alias bound to a table by a FROM/JOIN clause. *)
Theorem column_aliases_sound (sql : str) (raw_sql : bool) (a : str) :
  let ids := _collect_identifiers_regex sql raw_sql in
  dict_has a (i_col_alias_map ids) = true ->
  mem (upper a) col_alias_kw = false
  /\ dict_get a (i_alias_to_table ids) = None.
Proof.
  cbv zeta. unfold _collect_identifiers_regex. cbv zeta. simpl. intros H.
  assert (Hin : In a (col_alias_order_of sql)).
  { destruct (in_dec (list_eq_dec ascii_dec) a (col_alias_order_of sql)) as [Hin|Hout];
      [exact Hin|].
    unfold dict_has in H. rewrite enumerate_dict_other in H by exact Hout. discriminate. }
  clear H.
  assert (Hall : forall x, In x (col_alias_order_of sql) ->
                 mem (upper x) col_alias_kw = false
                 /\ mem x (a_table_alias_order (alias_passes sql)) = false).
  { unfold col_alias_order_of.
    apply fold_left_inv with
      (P := fun order : list str => forall x, In x order ->
              mem (upper x) col_alias_kw = false
              /\ mem x (a_table_alias_order (alias_passes sql)) = false);
      [|intros x []].
    intros order caps IH x. unfold on_as_alias. cbv zeta.
    destruct (mem (upper (grp 1 caps)) col_alias_kw) eqn:E1; [apply IH|].
    destruct (mem (grp 1 caps) (a_table_alias_order (alias_passes sql))) eqn:E2; [apply IH|].
    destruct (mem (grp 1 caps) order); [apply IH|].
    intros Hx. apply in_app_or in Hx as [Hx|[<-|[]]]; [now apply IH | now split]. }
  destruct (Hall a Hin) as [H1 H2]. split; [exact H1|].
  destruct (dict_get a (a_alias_to_table (alias_passes sql))) as [t|] eqn:E; [|reflexivity].
  destruct (@alias_passes_ok sql a t E) as (_ & H3 & _).
  apply mem_In in H3. congruence.
Qed.

Lemma column_aliases_sound_witness :
  dict_has (s "n") (i_col_alias_map
     (_collect_identifiers_regex (s "SELECT COUNT(x) AS n FROM t AS a") false)) = true
  /\ mem (upper (s "n")) col_alias_kw = false
  /\ dict_get (s "n") (i_alias_to_table
       (_collect_identifiers_regex (s "SELECT COUNT(x) AS n FROM t AS a") false)) = None.
Proof.
  split; [vm_compute; reflexivity|].
  apply (@column_aliases_sound (s "SELECT COUNT(x) AS n FROM t AS a") false (s "n")).
  vm_compute. reflexivity.
Defined.

(** X14.  Column aliases are numbered like table aliases: the alias at
    position [k] of the order in which the AS pass first meets them gets
    [col_alias_placeholder<k>] in generic mode and [column_alias<k>] in
    boolean-aware mode. *)
Theorem column_alias_numbering (sql : str) (raw_sql : bool) (k : nat) (a : str) :
  nth_error (col_alias_order_of sql) k = Some a ->
  dict_get a (i_col_alias_map (_collect_identifiers_regex sql raw_sql))
    = Some (numbered "col_alias_placeholder" k)
  /\ dict_get a (col_alias_map_bird
                   (i_col_alias_map (_collect_identifiers_regex sql raw_sql)))
    = Some (numbered "column_alias" k).
Proof.
  intros H. pose proof (col_alias_order_NoDup sql) as Hnd.
  unfold _collect_identifiers_regex. cbv zeta. simpl.
  split.
  - now rewrite (@enumerate_dict_nth _ _ _ 0 [] _ Hnd H).
  - unfold col_alias_map_bird.
    rewrite enumerate_dict_keys by exact Hnd. simpl.
    now rewrite (@enumerate_dict_nth _ _ _ 0 [] _ Hnd H).
Qed.

Lemma column_alias_numbering_witness :
  nth_error (col_alias_order_of (s "SELECT x AS p, y AS q FROM t")) 1 = Some (s "q")
  /\ dict_get (s "q") (i_col_alias_map
        (_collect_identifiers_regex (s "SELECT x AS p, y AS q FROM t") false))
     = Some (s "col_alias_placeholder1")
  /\ dict_get (s "q") (col_alias_map_bird (i_col_alias_map
        (_collect_identifiers_regex (s "SELECT x AS p, y AS q FROM t") false)))
     = Some (s "column_alias1").
Proof.
  split; [vm_compute; reflexivity|].
  apply (@column_alias_numbering (s "SELECT x AS p, y AS q FROM t") false 1 (s "q")).
  vm_compute. reflexivity.
Defined.

(** ** Boolean column references, columns, comments *)

Lemma insert_by_len_perm (x : str) : forall acc, Permutation (insert_by_len x acc) (x :: acc).
Proof.
  induction acc as [|y acc IH]; simpl; [reflexivity|].
  destruct (_ <=? _); [|reflexivity].
  rewrite IH. apply perm_swap.
Qed.

Lemma sorted_len_desc_perm (xs : list str) : Permutation (sorted_len_desc xs) xs.
Proof.
  unfold sorted_len_desc.
  assert (H : forall acc, Permutation (fold_left (fun acc x => insert_by_len x acc) xs acc)
                                      (xs ++ acc)).
  { induction xs as [|x xs IH]; intros acc; simpl; [reflexivity|].
    rewrite IH, insert_by_len_perm. symmetry. apply Permutation_middle. }
  rewrite H. now rewrite app_nil_r.
Qed.

Lemma insert_by_len_sorted (x : str) : forall acc,
  longest_first acc -> longest_first (insert_by_len x acc).
Proof.
  unfold longest_first.
  induction acc as [|y acc IH]; intros H; simpl.
  - repeat constructor.
  - inversion H as [|? ? Hs Hf]; subst.
    destruct (Nat.leb_spec (length x) (length y)).
    + constructor; [now apply IH|].
      apply (Permutation_Forall (Permutation_sym (insert_by_len_perm x acc))).
      now constructor.
    + constructor; [exact H|]. constructor; [lia|].
      eapply Forall_impl; [|exact Hf]. simpl. intros b Hb. lia.
Qed.

Lemma sorted_len_desc_sorted (xs : list str) : longest_first (sorted_len_desc xs).
Proof.
  unfold sorted_len_desc. apply fold_left_inv.
  - intros acc x H. now apply insert_by_len_sorted.
  - constructor.
Qed.

Lemma fold_left_In (A : Type) (f : list str -> A -> list str) (C : A -> str -> Prop) :
  (forall acc e r, In r (f acc e) <-> In r acc \/ C e r) ->
  forall l acc r, In r (fold_left f l acc) <-> In r acc \/ exists e, In e l /\ C e r.
Proof.
  intros Hf. induction l as [|e l IH]; intros acc r; simpl.
  - split; [auto | intros [H | [e [[] _]]]; exact H].
  - rewrite IH, Hf. split.
    + intros [[H | H] | [e' [H1 H2]]]; [now left | right; exists e; auto
                                        | right; exists e'; auto].
    + intros [H | [e' [[<- | H1] H2]]]; [now left; left | now left; right
                                         | right; exists e'; auto].
Qed.

Lemma fold_left_NoDup (A : Type) (f : list str -> A -> list str) :
  (forall acc e, NoDup acc -> NoDup (f acc e)) ->
  forall l acc, NoDup acc -> NoDup (fold_left f l acc).
Proof. intros Hf l acc H. now apply fold_left_inv. Qed.

Lemma boolean_refs_In (schema : schema_t) (tables : list str) (a2t : dict) (r : str) :
  In r (boolean_refs schema tables a2t) <-> boolean_ref_of schema tables a2t r.
Proof.
  unfold boolean_refs. cbv zeta.
  rewrite (@fold_left_In _ _
             (fun e r => is_boolean_type (snd e) = true
                         /\ In (fst (fst e)) tables /\ r = snd (fst e))).
  2:{ intros acc [[t c] typ] r'. simpl. destruct (is_boolean_type typ); simpl.
      - destruct (mem t tables) eqn:E.
        + apply mem_In in E. rewrite set_add_In. intuition.
        + apply mem_not_In in E. intuition.
      - intuition discriminate. }
  rewrite (@fold_left_In _ _
             (fun e r => is_boolean_type (snd e) = true
                         /\ (r = dotted (fst (fst e)) (snd (fst e))
                             \/ exists alias, In (alias, fst (fst e)) a2t
                                              /\ r = dotted alias (snd (fst e))))).
  2:{ intros acc [[t c] typ] r'. simpl. destruct (is_boolean_type typ); simpl.
      - rewrite (@fold_left_In _ _
                   (fun at_ r => snd at_ = t /\ r = dotted (fst at_) c)).
        2:{ intros acc' [alias tbl] r''. simpl. destruct (str_eqb tbl t) eqn:E.
            - apply str_eqb_eq in E. rewrite set_add_In. intuition.
            - apply str_eqb_neq in E. intuition. }
        rewrite set_add_In. split.
        + intros [[-> | H] | [[alias tbl] [H1 [H2 H3]]]]; simpl in *; subst; auto.
          right. split; [reflexivity|]. right. now exists alias.
        + intros [H | [_ [-> | [alias [H1 ->]]]]]; auto.
          right. exists (alias, t). auto.
      - intuition discriminate. }
  unfold boolean_ref_of. split.
  - intros [[[] | [[[t c] typ] [H1 [H2 H3]]]] | [[[t c] typ] [H1 [H2 [H3 H4]]]]];
      simpl in *; exists t, c, typ; repeat split; auto.
    destruct H3 as [-> | [alias [Ha ->]]]; [now left | right; left; now exists alias].
  - intros (t & c & typ & H1 & H2 & [-> | [[alias [Ha ->]] | [Ht ->]]]).
    + left. right. exists ((t, c), typ). simpl. auto.
    + left. right. exists ((t, c), typ). simpl. repeat split; auto.
      right. now exists alias.
    + right. exists ((t, c), typ). simpl. auto.
Qed.

Lemma boolean_refs_NoDup (schema : schema_t) (tables : list str) (a2t : dict) :
  NoDup (boolean_refs schema tables a2t).
Proof.
  unfold boolean_refs. cbv zeta.
  apply fold_left_NoDup.
  { intros acc [[t c] typ] H. destruct (negb _); [exact H|].
    destruct (mem t tables); [now apply set_add_NoDup | exact H]. }
  apply fold_left_NoDup; [|constructor].
  intros acc [[t c] typ] H. destruct (negb _); [exact H|].
  apply fold_left_NoDup; [|now apply set_add_NoDup].
  intros acc' [alias tbl] H'. destruct (str_eqb tbl t); [now apply set_add_NoDup | exact H'].
Qed.

Lemma build_refs_perm (o : set_order) (schema : schema_t) (tables : list str) (a2t : dict) :
  Permutation (_build_boolean_col_refs o schema tables a2t)
              (boolean_refs schema tables a2t).
Proof.
  unfold _build_boolean_col_refs. destruct schema as [|e schema]; [reflexivity|].
  rewrite sorted_len_desc_perm. apply set_iter_perm.
Qed.

(** X15.  The references [_build_boolean_col_refs] returns are exactly: for
    every schema column of type boolean or bool (any letter case), [t.c],
    [alias.c] for each alias the query binds to [t], and the bare [c] when
    [t] is one of the query's tables; whatever the set iteration order. *)
Theorem boolean_col_refs_members (o : set_order) (schema : schema_t)
    (tables : list str) (alias_to_table : dict) (r : str) :
  In r (_build_boolean_col_refs o schema tables alias_to_table)
  <-> boolean_ref_of schema tables alias_to_table r.
Proof.
  rewrite <- boolean_refs_In. split; apply Permutation_in.
  - apply build_refs_perm.
  - apply Permutation_sym, build_refs_perm.
Qed.

(** X16.  [_build_boolean_col_refs] returns each reference once, the longest
    first, so that a qualified reference is rewritten before the bare column
    it ends with. *)
Theorem boolean_col_refs_ordered (o : set_order) (schema : schema_t)
    (tables : list str) (alias_to_table : dict) :
  NoDup (_build_boolean_col_refs o schema tables alias_to_table)
  /\ longest_first (_build_boolean_col_refs o schema tables alias_to_table).
Proof.
  split.
  - apply (Permutation_NoDup (Permutation_sym (build_refs_perm o schema tables alias_to_table))).
    apply boolean_refs_NoDup.
  - unfold _build_boolean_col_refs. destruct schema; [constructor|].
    apply sorted_len_desc_sorted.
Qed.

(** *** The bare-word pass *)

(** X17.  A name the bare-word pass adds to the columns is no keyword, no
    table, no table alias and no column alias of the query, and in raw mode
    no numeric token; the other columns come from qualified references. *)
Theorem bare_columns_filtered (sql : str) (raw_sql : bool) (w : str) :
  let ids := _collect_identifiers_regex sql raw_sql in
  In w (i_columns ids) ->
  In w (fst (qualified_pass sql))
  \/ (mem (upper w) keywords = false
      /\ ~ In w (i_tables ids)
      /\ dict_has w (i_table_alias_map ids) = false
      /\ dict_has w (i_col_alias_map ids) = false
      /\ (raw_sql = true -> _is_numeric_token w = false)).
Proof.
  cbv zeta. unfold _collect_identifiers_regex. cbv zeta. simpl.
  set (tables := a_tables (alias_passes sql)).
  set (tam := enumerate_dict "table_alias_placeholder" 0 (table_alias_order_of sql) []).
  set (cam := enumerate_dict "col_alias_placeholder" 0 (col_alias_order_of sql) []).
  revert w.
  apply fold_left_inv with
    (P := fun columns : list str => forall w, In w columns ->
            In w (fst (qualified_pass sql))
            \/ (mem (upper w) keywords = false /\ ~ In w tables
                /\ dict_has w tam = false /\ dict_has w cam = false
                /\ (raw_sql = true -> _is_numeric_token w = false)));
    [|now left].
  intros columns caps IH w. unfold on_bare_word. cbv zeta.
  destruct (mem (upper (grp 1 caps)) keywords) eqn:E1; [apply IH|].
  destruct (mem (grp 1 caps) tables) eqn:E2; [apply IH|].
  destruct (dict_has (grp 1 caps) tam) eqn:E3; [apply IH|].
  destruct (dict_has (grp 1 caps) cam) eqn:E4; [apply IH|]. cbn [orb].
  destruct (is_placeholder_alias (grp 1 caps)); [apply IH|].
  destruct (mem (grp 1 caps) (words ["table_name"; "col_name"])); [apply IH|].
  destruct (mem (grp 1 caps)
                (words ["NUM"; "STR"; "DATE"; "num"; "string"; "date"; "boolean"]));
    [apply IH|].
  destruct (raw_sql && _is_numeric_token (grp 1 caps)) eqn:E5; [apply IH|].
  intros H. apply set_add_In in H as [-> | H]; [|now apply IH].
  right. repeat split; try assumption.
  - now apply mem_not_In.
  - intros ->. exact E5.
Qed.

Lemma bare_columns_filtered_witness :
  In (s "x") (i_columns (_collect_identifiers_regex (s "SELECT x FROM t AS a") true))
  /\ (In (s "x") (fst (qualified_pass (s "SELECT x FROM t AS a")))
      \/ (mem (upper (s "x")) keywords = false
          /\ ~ In (s "x") (i_tables (_collect_identifiers_regex (s "SELECT x FROM t AS a") true))
          /\ dict_has (s "x") (i_table_alias_map
               (_collect_identifiers_regex (s "SELECT x FROM t AS a") true)) = false
          /\ dict_has (s "x") (i_col_alias_map
               (_collect_identifiers_regex (s "SELECT x FROM t AS a") true)) = false
          /\ (true = true -> _is_numeric_token (s "x") = false))).
Proof.
  split; [vm_compute; tauto|].
  apply (@bare_columns_filtered (s "SELECT x FROM t AS a") true (s "x")).
  vm_compute. tauto.
Defined.

(** *** Comments and the rewrite of the code *)

Lemma non_comment_erased (segs : list (bool * str)) :
  non_comment (without_comment_text segs) = non_comment segs.
Proof.
  unfold non_comment, without_comment_text. f_equal.
  induction segs as [|[b t] segs IH]; simpl; [reflexivity|].
  destruct b; simpl; [exact IH | now rewrite IH].
Qed.

Lemma is_blank_app (a b : str) : is_blank (a ++ b) = is_blank a && is_blank b.
Proof. apply forallb_app. Qed.

Lemma blank_non_comment (segs : list (bool * str)) :
  is_blank (join_all segs) = true -> is_blank (non_comment segs) = true.
Proof.
  unfold join_all, non_comment.
  induction segs as [|[b t] segs IH]; simpl; [reflexivity|].
  rewrite is_blank_app. intros H. apply andb_prop in H as [H1 H2].
  destruct b; simpl; [now apply IH|].
  rewrite is_blank_app, H1. now apply IH.
Qed.

Lemma blank_sql_non_comment (sql : str) :
  is_blank sql = true -> is_blank (non_comment (_split_comments sql)) = true.
Proof.
  intros H. apply blank_non_comment. now rewrite join_split_comments.
Qed.

Lemma assemble_self (sql : str) : assemble (fun t => t) (_split_comments sql) = sql.
Proof. rewrite assemble_id. apply join_split_comments. Qed.

(** X18.  The text of the comments plays no part in how the code is
    rewritten: two inputs whose spans differ only in the text of their
    comments have their code spans rewritten by one and the same function,
    in generic and in boolean-aware mode. *)
Theorem comments_do_not_steer (o : set_order) (sql1 sql2 : str) (schema : schema_t)
    (db_id : str) (schema_by_db : list (str * schema_t)) :
  without_comment_text (_split_comments sql1) = without_comment_text (_split_comments sql2) ->
  (exists rewrite,
      canonicalize_sql o sql1 schema = assemble rewrite (_split_comments sql1)
      /\ canonicalize_sql o sql2 schema = assemble rewrite (_split_comments sql2))
  /\ (exists rewrite,
      canonicalize_sql_bird o sql1 db_id schema_by_db
        = assemble rewrite (_split_comments sql1)
      /\ canonicalize_sql_bird o sql2 db_id schema_by_db
        = assemble rewrite (_split_comments sql2)).
Proof.
  intros H.
  assert (Hnc : non_comment (_split_comments sql1) = non_comment (_split_comments sql2)).
  { now rewrite <- (non_comment_erased (_split_comments sql1)), H, non_comment_erased. }
  pose proof (blank_sql_non_comment sql1) as B1.
  pose proof (blank_sql_non_comment sql2) as B2.
  rewrite <- Hnc in B2.
  unfold canonicalize_sql, canonicalize_sql_bird. cbv zeta. rewrite <- Hnc.
  destruct (is_blank (non_comment (_split_comments sql1))) eqn:E.
  - split; exists (fun t => t); rewrite !assemble_self;
      split; repeat match goal with |- (if ?c then _ else _) = _ => destruct c end;
      reflexivity.
  - destruct (is_blank sql1); [specialize (B1 eq_refl); discriminate|].
    destruct (is_blank sql2); [specialize (B2 eq_refl); discriminate|].
    split; eexists; split; reflexivity.
Qed.

Lemma comments_do_not_steer_witness :
  without_comment_text (_split_comments (s "SELECT a /* x */ FROM t"))
  = without_comment_text (_split_comments (s "SELECT a /* other */ FROM t"))
  /\ ((exists rewrite,
         canonicalize_sql insertion_order (s "SELECT a /* x */ FROM t") []
           = assemble rewrite (_split_comments (s "SELECT a /* x */ FROM t"))
         /\ canonicalize_sql insertion_order (s "SELECT a /* other */ FROM t") []
           = assemble rewrite (_split_comments (s "SELECT a /* other */ FROM t")))
      /\ (exists rewrite,
         canonicalize_sql_bird insertion_order (s "SELECT a /* x */ FROM t") (s "db") []
           = assemble rewrite (_split_comments (s "SELECT a /* x */ FROM t"))
         /\ canonicalize_sql_bird insertion_order (s "SELECT a /* other */ FROM t") (s "db") []
           = assemble rewrite (_split_comments (s "SELECT a /* other */ FROM t")))).
Proof.
  split; [vm_compute; reflexivity|].
  apply (@comments_do_not_steer insertion_order (s "SELECT a /* x */ FROM t")
           (s "SELECT a /* other */ FROM t") [] (s "db") []).
  vm_compute. reflexivity.
Defined.

Lemma bird_ignores_column_types_witness :
  (forall e, In e (schema_for (s "db") [(s "db", date_schema)]) -> is_boolean_type (snd e) = false)
  /\ canonicalize_sql_bird insertion_order (s "SELECT code FROM t") (s "db")
       [(s "db", date_schema)]
     = canonicalize_sql_bird insertion_order (s "SELECT code FROM t") (s "db") [].
Proof.
  assert (H : forall e, In e (schema_for (s "db") [(s "db", date_schema)]) ->
                        is_boolean_type (snd e) = false).
  { intros e He. vm_compute in He. destruct He as [<- | [<- | []]]; vm_compute; reflexivity. }
  split; [exact H|].
  apply (@bird_ignores_column_types insertion_order (s "SELECT code FROM t") (s "db")
           [(s "db", date_schema)]).
  exact H.
Defined.

(** ** Schema loader *)

Lemma key_eqb_eq (k1 k2 : str * str) : key_eqb k1 k2 = true <-> k1 = k2.
Proof.
  destruct k1 as [a b], k2 as [c d]. unfold key_eqb. simpl.
  rewrite andb_true_iff, !str_eqb_eq. split; [intros [-> ->] | intros [= -> ->]]; auto.
Qed.

Lemma schema_set_In (k : str * str) (typ : str) : forall schema,
  In (k, typ) (schema_set k typ schema).
Proof.
  induction schema as [|[k' typ'] schema IH]; simpl; [now left|].
  destruct (key_eqb k' k) eqn:E.
  - apply key_eqb_eq in E. subst. now left.
  - right. exact IH.
Qed.

Lemma schema_set_keys (k : str * str) (typ : str) : forall schema k',
  In k' (map fst (schema_set k typ schema)) <-> k' = k \/ In k' (map fst schema).
Proof.
  induction schema as [|[k0 typ0] schema IH]; intros k'; simpl; [intuition|].
  destruct (key_eqb k0 k) eqn:E; simpl.
  - apply key_eqb_eq in E. subst. intuition.
  - rewrite IH. intuition.
Qed.

Lemma schema_set_NoDup (k : str * str) (typ : str) : forall schema,
  NoDup (map fst schema) -> NoDup (map fst (schema_set k typ schema)).
Proof.
  induction schema as [|[k0 typ0] schema IH]; intros H; simpl.
  - repeat constructor. intros [].
  - inversion H as [|? ? Hn Hd]; subst.
    destruct (key_eqb k0 k) eqn:E; simpl; [now constructor|].
    constructor; [|now apply IH].
    rewrite schema_set_keys. intros [-> | Hin]; [|contradiction].
    assert (E' : key_eqb k k = true) by now apply key_eqb_eq.
    simpl in E. congruence.
Qed.

Lemma unique_key (k : str * str) (typ typ' : str) (schema : schema_t) :
  NoDup (map fst schema) -> In (k, typ) schema -> In (k, typ') schema -> typ' = typ.
Proof.
  induction schema as [|[k0 typ0] schema IH]; intros H H1 H2; [destruct H1|].
  inversion H as [|? ? Hn Hd]; subst. simpl in *.
  destruct H1 as [E1|H1], H2 as [E2|H2].
  - congruence.
  - injection E1 as -> ->. exfalso. apply Hn.
    now apply (in_map fst) in H2.
  - injection E2 as -> ->. exfalso. apply Hn.
    now apply (in_map fst) in H1.
  - now apply IH.
Qed.

Lemma by_db_set_keys (db : str) (k : str * str) (typ : str) : forall by_db db',
  In db' (map fst (by_db_set db k typ by_db)) <-> db' = db \/ In db' (map fst by_db).
Proof.
  induction by_db as [|[d0 s0] by_db IH]; intros db'; simpl; [intuition|].
  destruct (str_eqb d0 db) eqn:E; simpl.
  - apply str_eqb_eq in E. subst. intuition.
  - rewrite IH. intuition.
Qed.

Lemma by_db_set_well_keyed (db : str) (k : str * str) (typ : str) : forall by_db,
  well_keyed by_db -> well_keyed (by_db_set db k typ by_db).
Proof.
  induction by_db as [|[d0 s0] by_db IH]; intros [H1 H2]; simpl.
  - split; [repeat constructor; intros [] |].
    intros db' schema [E | []]. injection E as <- <-. simpl.
    repeat constructor. intros [].
  - inversion H1 as [|? ? Hn Hd]; subst.
    destruct (str_eqb d0 db) eqn:E.
    + split; [exact H1|]. intros db' schema [E' | Hin].
      * injection E' as <- <-. apply schema_set_NoDup. apply (H2 d0). now left.
      * apply (H2 db'). now right.
    + destruct IH as [I1 I2].
      { split; [exact Hd|]. intros db' schema Hin. apply (H2 db'). now right. }
      split.
      * simpl. constructor; [|exact I1].
        rewrite by_db_set_keys. intros [-> | Hin]; [|contradiction].
        rewrite str_eqb_refl in E. discriminate.
      * intros db' schema [E' | Hin].
        -- injection E' as <- <-. apply (H2 d0). now left.
        -- now apply (I2 db').
Qed.

Lemma by_db_set_lookup (db : str) (k : str * str) (typ : str) : forall by_db,
  In (k, typ) (schema_for db (by_db_set db k typ by_db)).
Proof.
  unfold schema_for.
  induction by_db as [|[d0 s0] by_db IH]; simpl.
  - rewrite str_eqb_refl. simpl. now left.
  - destruct (str_eqb d0 db) eqn:E; simpl; rewrite E; [apply schema_set_In | exact IH].
Qed.

Lemma schema_for_In (db : str) (by_db : list (str * schema_t)) :
  schema_for db by_db = [] \/ In (db, schema_for db by_db) by_db.
Proof.
  unfold schema_for. destruct (find _ by_db) as [[d0 s0]|] eqn:E; [|now left].
  right. apply find_some in E as [Hin E]. simpl in E. apply str_eqb_eq in E. now subst.
Qed.

Lemma load_loop_none (rows : list csv_row) : load_loop rows None = None.
Proof. induction rows as [|row rows IH]; simpl; [reflexivity | exact IH]. Qed.

Lemma load_db_row_well_keyed (by_db by_db' : list (str * schema_t)) (row : csv_row) :
  well_keyed by_db -> load_db_row by_db row = Some by_db' -> well_keyed by_db'.
Proof.
  intros H. unfold load_db_row. destruct (row_get_or _ _ row) as [d|]; [|discriminate].
  cbv zeta. destruct (_ && _); intros [= <-]; [now apply by_db_set_well_keyed | exact H].
Qed.

Lemma load_loop_well_keyed : forall rows by_db by_db',
  well_keyed by_db -> load_loop rows (Some by_db) = Some by_db' -> well_keyed by_db'.
Proof.
  induction rows as [|row rows IH]; intros by_db by_db' H E; simpl in E.
  - now injection E as <-.
  - destruct (load_db_row by_db row) as [b|] eqn:Er.
    + apply (IH b by_db'); [exact (@load_db_row_well_keyed by_db b row H Er) | exact E].
    + change (load_loop rows None = Some by_db') in E.
      rewrite load_loop_none in E. discriminate.
Qed.

(** X20.  A complete row is stored, and the last one wins: after a row with
    a database, table, column and type, the schema of the (stripped) database
    maps the (stripped) table and column to the (stripped) type of that row,
    and to no other type. *)
Theorem load_schema_last_row_wins (fieldnames : list str) (rows : list csv_row)
    (row : csv_row) (by_db : list (str * schema_t)) (d t c typ : str) :
  mem (s "database") fieldnames = true ->
  load_schema_csv fieldnames rows = Some by_db ->
  row_get_or "database" [] row = Some d ->
  row_get "table_name" row = Some t ->
  row_get "column_name" row = Some c ->
  row_get "column_type" row = Some typ ->
  strip d <> [] -> t <> [] -> c <> [] -> typ <> [] ->
  exists by_db',
    load_schema_csv fieldnames (rows ++ [row]) = Some by_db'
    /\ In ((strip t, strip c), strip typ) (schema_for (strip d) by_db')
    /\ forall typ', In ((strip t, strip c), typ') (schema_for (strip d) by_db') ->
                    typ' = strip typ.
Proof.
  intros Hf Hl Hd Ht Hc Hty Nd Nt Nc Nty.
  unfold load_schema_csv in *. rewrite Hf in *.
  unfold load_loop in *. rewrite fold_left_app, Hl. simpl.
  unfold load_db_row. rewrite Hd, Ht, Hc, Hty. cbv zeta. simpl.
  replace (nonempty (strip d)) with true by (destruct (strip d); [contradiction | reflexivity]).
  replace (nonempty t) with true by (destruct t; [contradiction | reflexivity]).
  replace (nonempty c) with true by (destruct c; [contradiction | reflexivity]).
  replace (nonempty typ) with true by (destruct typ; [contradiction | reflexivity]).
  simpl. eexists. split; [reflexivity|].
  assert (Hin := by_db_set_lookup (strip d) (strip t, strip c) (strip typ) by_db).
  split; [exact Hin|].
  intros typ' Hin'.
  assert (Hw : well_keyed (by_db_set (strip d) (strip t, strip c) (strip typ) by_db)).
  { apply by_db_set_well_keyed. apply (@load_loop_well_keyed rows [] by_db); [|exact Hl].
    split; [constructor | intros ? ? []]. }
  destruct Hw as [_ Hw].
  destruct (schema_for_In (strip d)
              (by_db_set (strip d) (strip t, strip c) (strip typ) by_db)) as [E|E].
  - rewrite E in Hin. destruct Hin.
  - apply (@unique_key (strip t, strip c) (strip typ) typ' _ (Hw _ _ E) Hin Hin').
Qed.

Lemma load_schema_last_row_wins_witness :
  exists by_db',
    load_schema_csv bird_header
      ([bird_row "db" "t" "x" "text"] ++ [bird_row " db" "t " "x" "integer "]) = Some by_db'
    /\ In ((strip (s "t "), strip (s "x")), strip (s "integer "))
          (schema_for (strip (s " db")) by_db')
    /\ forall typ', In ((strip (s "t "), strip (s "x")), typ')
                       (schema_for (strip (s " db")) by_db') ->
                    typ' = strip (s "integer ").
Proof.
  apply (@load_schema_last_row_wins bird_header [bird_row "db" "t" "x" "text"]
           (bird_row " db" "t " "x" "integer ")
           [(s "db", [((s "t", s "x"), s "text")])]
           (s " db") (s "t ") (s "x") (s "integer "));
    try (vm_compute; reflexivity); vm_compute; discriminate.
Defined.

(** X21.  With a [database] column the loader raises exactly when some row
    has no cell for it (a line too short): [None.strip()]; without that
    column it never raises. *)
Theorem load_schema_raises (fieldnames : list str) (rows : list csv_row) :
  load_schema_csv fieldnames rows = None
  <-> mem (s "database") fieldnames = true
      /\ exists row, In row rows /\ row_get_or "database" [] row = None.
Proof.
  unfold load_schema_csv. destruct (mem (s "database") fieldnames).
  2:{ split; [discriminate | intros [H _]; discriminate]. }
  assert (H : forall rows by_db,
             load_loop rows (Some by_db) = None
             <-> exists row, In row rows /\ row_get_or "database" [] row = None).
  { clear rows. induction rows as [|row rows IH]; intros by_db; simpl.
    - split; [discriminate | intros [row [[] _]]].
    - destruct (load_db_row by_db row) as [b|] eqn:E.
      + change (fold_left _ rows (Some b)) with (load_loop rows (Some b)).
        rewrite IH. split.
        * intros [r [H1 H2]]. exists r. auto.
        * intros [r [[<- | H1] H2]]; [|exists r; auto].
          unfold load_db_row in E. rewrite H2 in E. discriminate.
      + change (fold_left _ rows None) with (load_loop rows None).
        rewrite load_loop_none. split; [|reflexivity]. intros _.
        exists row. split; [now left|].
        unfold load_db_row in E. destruct (row_get_or _ _ row); [|reflexivity].
        cbv zeta in E. destruct (_ && _); discriminate. }
  rewrite H. split; [now split | now intros [_ ?]].
Qed.

(** ** Inferred aliases; quoted literals *)

(** *** The table aliases inferred from qualifiers *)

Lemma bind_alias_keys (a t : str) (st : aliases) :
  (forall x, In x (a_table_alias_order st) <-> dict_has x (a_alias_to_table st) = true) ->
  forall x, In x (a_table_alias_order (bind_alias a t st))
            <-> dict_has x (a_alias_to_table (bind_alias a t st)) = true.
Proof.
  intros H x. unfold bind_alias, dict_has. simpl.
  destruct (list_eq_dec ascii_dec x a) as [->|Hne].
  - rewrite dict_get_set_same. split; [reflexivity|]. intros _.
    destruct (mem a (a_table_alias_order st)) eqn:E.
    + now apply mem_In.
    + apply in_or_app. right. now left.
  - rewrite dict_get_set_other by exact Hne. fold (dict_has x (a_alias_to_table st)).
    rewrite <- H. destruct (mem a (a_table_alias_order st)); [reflexivity|].
    rewrite in_app_iff. simpl. intuition congruence.
Qed.

Lemma alias_passes_keys (sql : str) (x : str) :
  In x (a_table_alias_order (alias_passes sql))
  <-> dict_has x (a_alias_to_table (alias_passes sql)) = true.
Proof.
  revert x. unfold alias_passes. cbv zeta.
  repeat (apply fold_left_inv with
            (P := fun st => forall x, In x (a_table_alias_order st)
                                      <-> dict_has x (a_alias_to_table st) = true);
          [intros st caps H | ]).
  - exact H.
  - unfold on_no_as. cbv zeta. destruct (grp 2 caps) as [|c w]; [exact H|].
    destruct (_ && _); [|exact H].
    apply (@bind_alias_keys (c :: w) (grp 1 caps) (add_table (grp 1 caps) st)). exact H.
  - unfold on_with_as. cbv zeta. destruct (negb _); [|exact H].
    apply (@bind_alias_keys (grp 2 caps) (grp 1 caps) (add_table (grp 1 caps) st)). exact H.
  - exact H.
  - intros x. simpl. split; [intros [] | discriminate].
Qed.

(** X22.  Every table alias with a placeholder is either bound to a table by
    a FROM/JOIN clause or was inferred from a qualifier [q.col]; an inferred
    one is no collected table and none of the words excluded from inference. *)
Theorem inferred_aliases_filtered (sql : str) (raw_sql : bool) (a : str) :
  let ids := _collect_identifiers_regex sql raw_sql in
  dict_has a (i_table_alias_map ids) = true ->
  dict_has a (i_alias_to_table ids) = true
  \/ (~ In a (i_tables ids) /\ mem (upper a) not_inferred_alias = false).
Proof.
  cbv zeta. unfold _collect_identifiers_regex. cbv zeta. simpl. intros H.
  assert (Hin : In a (table_alias_order_of sql)).
  { destruct (in_dec (list_eq_dec ascii_dec) a (table_alias_order_of sql)) as [Hin|Hout];
      [exact Hin|].
    unfold dict_has in H. rewrite enumerate_dict_other in H by exact Hout. discriminate. }
  clear H. rewrite <- alias_passes_keys. revert a Hin.
  unfold table_alias_order_of, qualified_pass.
  apply fold_left_inv with
    (P := fun acc : list str * list str => forall a, In a (snd acc) ->
            In a (a_table_alias_order (alias_passes sql))
            \/ (~ In a (a_tables (alias_passes sql))
                /\ mem (upper a) not_inferred_alias = false));
    [|intros a Ha; now left].
  intros [cols order] caps IH a. unfold on_qualified.
  cbv beta iota zeta. cbn [snd] in *.
  destruct (mem (grp 1 caps) order) eqn:E1; cbn [negb andb]; [apply IH|].
  destruct (mem (grp 1 caps) (a_tables (alias_passes sql))) eqn:E2;
    cbn [negb andb]; [apply IH|].
  destruct (mem (upper (grp 1 caps)) not_inferred_alias) eqn:E3;
    cbn [negb andb]; [apply IH|].
  intros Ha. apply in_app_or in Ha as [Ha | [<- | []]]; [now apply IH|].
  right. split; [now apply mem_not_In | exact E3].
Qed.

Lemma inferred_aliases_filtered_witness :
  dict_has (s "u") (i_table_alias_map
     (_collect_identifiers_regex (s "SELECT u.x FROM t AS a") false)) = true
  /\ (dict_has (s "u") (i_alias_to_table
        (_collect_identifiers_regex (s "SELECT u.x FROM t AS a") false)) = true
      \/ (~ In (s "u") (i_tables (_collect_identifiers_regex (s "SELECT u.x FROM t AS a") false))
          /\ mem (upper (s "u")) not_inferred_alias = false)).
Proof.
  split; [vm_compute; reflexivity|].
  apply (@inferred_aliases_filtered (s "SELECT u.x FROM t AS a") false (s "u")).
  vm_compute. reflexivity.
Defined.

(** *** Comment markers inside a quoted literal *)

Lemma split_loop_invariant (P : scanner -> Prop) (sql : str) :
  (forall st, sc_i st < length sql -> P st -> P (split_step sql st)) ->
  forall fuel st, P st -> P (split_loop fuel sql st).
Proof.
  intros Hs. induction fuel as [|f IH]; intros st H; simpl; [exact H|].
  destruct (Nat.ltb_spec (sc_i st) (length sql)); [|exact H].
  now apply IH, Hs.
Qed.

Lemma literal_length (q : ascii) (pre body post : str) :
  length (literal_text q pre body post) = length pre + length body + 2 + length post.
Proof. unfold literal_text. rewrite length_app. simpl. rewrite length_app. simpl. lia. Qed.

Lemma is_at_pre (q : ascii) (pre body post : str) (i : nat) (c : ascii) :
  i < length pre -> is_at (literal_text q pre body post) i c = is_at pre i c.
Proof. intros H. unfold is_at, literal_text. now rewrite nth_error_app1. Qed.

Lemma is_at_open (q : ascii) (pre body post : str) (c : ascii) :
  is_at (literal_text q pre body post) (length pre) c = Ascii.eqb q c.
Proof.
  unfold is_at, literal_text. rewrite nth_error_app2 by lia.
  rewrite Nat.sub_diag. reflexivity.
Qed.

Lemma is_at_body (q : ascii) (pre body post : str) (i : nat) (c : ascii) :
  length pre < i -> i <= length pre + length body ->
  is_at (literal_text q pre body post) i c = is_at body (i - length pre - 1) c.
Proof.
  intros H1 H2. unfold is_at, literal_text. rewrite nth_error_app2 by lia.
  destruct (i - length pre) as [|k] eqn:E; [lia|].
  simpl. rewrite Nat.sub_0_r. rewrite nth_error_app1 by lia. reflexivity.
Qed.

Lemma is_at_close (q : ascii) (pre body post : str) (c : ascii) :
  is_at (literal_text q pre body post) (length pre + length body + 1) c = Ascii.eqb q c.
Proof.
  unfold is_at, literal_text. rewrite nth_error_app2 by lia.
  replace (length pre + length body + 1 - length pre) with (S (length body)) by lia.
  simpl. rewrite nth_error_app2 by lia. rewrite Nat.sub_diag. reflexivity.
Qed.

Lemma is_at_post (q : ascii) (pre body post : str) (c : ascii) :
  is_at (literal_text q pre body post) (length pre + length body + 1 + 1) c
  = is_at post 0 c.
Proof.
  unfold is_at, literal_text. rewrite nth_error_app2 by lia.
  replace (length pre + length body + 1 + 1 - length pre) with (S (length body + 1)) by lia.
  simpl. rewrite nth_error_app2 by lia.
  replace (length body + 1 - length body) with 1 by lia. reflexivity.
Qed.

(** The two characters at [i] are [a] and [b]. *)
Lemma slice_pair (a b : ascii) : forall (t : str) (i : nat),
  str_eqb (slice t i (i + 2)) [a; b] = is_at t i a && is_at t (i + 1) b.
Proof.
  induction t as [|x t IH]; intros i.
  - unfold slice, is_at. rewrite skipn_nil, firstn_nil.
    now destruct i.
  - destruct i as [|i].
    + unfold slice, is_at. simpl. destruct t as [|y t]; simpl.
      * now rewrite andb_false_r.
      * now rewrite andb_true_r.
    + change (slice (x :: t) (S i) (S i + 2)) with (slice t i (i + 2)).
      rewrite IH. reflexivity.
Qed.

Lemma quote_cases (q : ascii) :
  is_quote q = true -> q = squote \/ q = dquote.
Proof.
  unfold is_quote. intros H. apply orb_prop in H as [H | H];
    apply Ascii.eqb_eq in H; auto.
Qed.

Lemma literal_no_marker (q : ascii) (pre body post : str) (i : nat) (m : str) :
  m = s "--" \/ m = s "/*" ->
  is_quote q = true -> has_marker pre = false -> i <= length pre ->
  str_eqb (slice (literal_text q pre body post) i (i + 2)) m = false.
Proof.
  intros Hm Hq Hp Hi.
  assert (E : exists a b, m = [a; b] /\ Ascii.eqb q a = false /\ Ascii.eqb q b = false).
  { destruct (quote_cases _ Hq) as [-> | ->], Hm as [-> | ->];
      eexists; eexists; (split; [reflexivity|]); split; reflexivity. }
  destruct E as (a & b & -> & Ha & Hb). rewrite slice_pair.
  destruct (Nat.eq_dec i (length pre)) as [-> | Hne].
  - now rewrite is_at_open, Ha.
  - rewrite is_at_pre by lia.
    destruct (Nat.eq_dec (i + 1) (length pre)) as [E1 | Hne1].
    + rewrite E1, is_at_open, Hb. apply andb_false_r.
    + rewrite is_at_pre by lia. rewrite <- slice_pair.
      now apply no_marker_at.
Qed.

Lemma head_ok_snoc (sql : str) (L : nat) (segs : list (bool * str)) (cs : nat)
    (x : bool * str) :
  (exists j more, L <= j /\ j <= length sql /\ segs = (false, slice sql 0 j) :: more) ->
  head_ok sql L (segs ++ [x]) cs.
Proof.
  intros (j & more & H1 & H2 & ->). right. exists j, (more ++ [x]). now repeat split.
Qed.

Lemma head_ok_flush (sql : str) (L : nat) (st : scanner) (x : bool * str) (cs : nat) :
  0 < L -> L <= sc_i st -> sc_i st < length sql ->
  head_ok sql L (sc_segments st) (sc_code_start st) ->
  head_ok sql L (flush_code sql st ++ [x]) cs.
Proof.
  intros HL Hi Hn H. apply head_ok_snoc. unfold flush_code.
  destruct H as [[Hs Hc] | (j & more & H1 & H2 & Hs)].
  - rewrite Hs, Hc. replace (0 <? sc_i st) with true by (symmetry; apply Nat.ltb_lt; lia).
    exists (sc_i st), []. repeat split; [lia | lia].
  - rewrite Hs. destruct (_ <? _).
    + exists j, (more ++ [(false, slice sql (sc_code_start st) (sc_i st))]). now repeat split.
    + exists j, more. now repeat split.
Qed.

Lemma split_step_literal (q : ascii) (pre body post : str) (st : scanner) :
  is_quote q = true ->
  free_of is_quote pre = true -> has_marker pre = false ->
  free_of (ends_or_escapes q) body = true ->
  is_at post 0 q = false ->
  sc_i st < length (literal_text q pre body post) ->
  literal_inv q pre body post st ->
  literal_inv q pre body post (split_step (literal_text q pre body post) st).
Proof.
  intros Hq Hpre Hm Hbody Hpost Hn H.
  set (sql := literal_text q pre body post) in *.
  destruct st as [i s1 s2 cs segs]. unfold literal_inv in *. cbv zeta in *.
  fold sql in H |- *. simpl in H, Hn.
  destruct H as [(Hs & Hc & [(Hi & H1 & H2) | (Hi1 & Hi2 & H1 & H2)]) | (Hi & Hh)].
  - (* before the literal *)
    subst segs cs s1 s2. unfold split_step. cbn [sc_i sc_in_single sc_in_double
      sc_code_start sc_segments].
    unfold sql.
    rewrite (@literal_no_marker q pre body post i (s "--")) by auto.
    rewrite (@literal_no_marker q pre body post i (s "/*")) by auto.
    rewrite !andb_false_r. cbn [negb andb]. rewrite !andb_true_r.
    destruct (Nat.eq_dec i (length pre)) as [-> | Hne].
    + unfold sql. rewrite !is_at_open.
      destruct (Ascii.eqb q squote) eqn:E.
      * left. simpl. repeat split; try reflexivity. right.
        repeat split; try reflexivity; lia.
      * destruct (quote_cases _ Hq) as [-> | ->]; [discriminate|].
        left. simpl. repeat split; try reflexivity. right.
        repeat split; try reflexivity; lia.
    + unfold sql. rewrite !is_at_pre by lia.
      rewrite (@is_at_free is_quote pre i squote Hpre eq_refl).
      rewrite (@is_at_free is_quote pre i dquote Hpre eq_refl).
      left. simpl. repeat split; try reflexivity. left. repeat split; try reflexivity. lia.
  - (* inside the literal *)
    subst segs cs s1 s2. unfold split_step. cbn [sc_i sc_in_single sc_in_double
      sc_code_start sc_segments].
    assert (Hclose : i = length pre + length body + 1 ->
              forall c, is_at sql i c = Ascii.eqb q c
                        /\ is_at sql (i + 1) q = false).
    { intros -> c. unfold sql. now rewrite is_at_close, is_at_post. }
    assert (Hin : i <> length pre + length body + 1 ->
              is_at sql i q = false /\ is_at sql i backslash = false).
    { intros Hne. unfold sql. rewrite !is_at_body by lia. split.
      - apply (@is_at_free (ends_or_escapes q)); [exact Hbody|].
        unfold ends_or_escapes. now rewrite Ascii.eqb_refl.
      - apply (@is_at_free (ends_or_escapes q)); [exact Hbody|].
        unfold ends_or_escapes. apply orb_true_r. }
    destruct (Ascii.eqb q squote) eqn:E.
    + apply Ascii.eqb_eq in E. subst q. cbn [negb].
      destruct (Nat.eq_dec i (length pre + length body + 1)) as [Hi | Hi].
      * destruct (Hclose Hi squote) as [-> ->]. cbn [negb]. rewrite orb_true_r. simpl.
        right. simpl. split; [lia|]. now left.
      * destruct (Hin Hi) as [-> ->]. simpl.
        left. simpl. repeat split; try reflexivity. right. repeat split; try reflexivity; lia.
    + destruct (quote_cases _ Hq) as [-> | ->]; [discriminate|]. cbn [negb].
      destruct (Nat.eq_dec i (length pre + length body + 1)) as [Hi | Hi].
      * destruct (Hclose Hi dquote) as [-> ->]. cbn [negb]. rewrite orb_true_r. simpl.
        right. simpl. split; [lia|]. now left.
      * destruct (Hin Hi) as [-> ->]. simpl.
        left. simpl. repeat split; try reflexivity. right. repeat split; try reflexivity; lia.
  - (* after the literal *)
    right. unfold split_step.
    cbn [sc_i sc_in_single sc_in_double sc_code_start sc_segments].
    destruct s1.
    { destruct (_ && _); [split; [simpl; lia | exact Hh]|].
      destruct (is_at sql i backslash); split; try exact Hh; simpl; lia. }
    destruct s2.
    { destruct (_ && _); [split; [simpl; lia | exact Hh]|].
      destruct (is_at sql i backslash); split; try exact Hh; simpl; lia. }
    destruct ((i + 2 <=? length sql) && str_eqb _ (s "--")) eqn:E1.
    { cbv zeta. simpl. split.
      - pose proof (skip_line_ge sql (length sql) (i + 2)).
        destruct (_ <? _); lia.
      - apply (@head_ok_flush sql _ (mkScanner i false false cs segs)); simpl;
          [lia | lia | exact Hn | exact Hh]. }
    destruct ((i + 2 <=? length sql) && str_eqb _ (s "/*")) eqn:E2.
    { apply andb_prop in E2 as [Hle _]. apply Nat.leb_le in Hle.
      cbv zeta. simpl. split.
      - pose proof (skip_block_ge sql (length sql) (i + 2)).
        destruct (_ <? _); lia.
      - apply (@head_ok_flush sql _ (mkScanner i false false cs segs)); simpl;
          [lia | lia | exact Hn | exact Hh]. }
    destruct (is_at sql i squote && negb false); [split; [simpl; lia | exact Hh]|].
    destruct (is_at sql i dquote && negb false); split; try exact Hh; simpl; lia.
Qed.

(** X23.  Comment markers inside a quoted literal are not comments.  When a
    text opens with a prefix without quotes and comment markers, followed by
    a literal in single or double quotes whose body has neither that quote
    nor a backslash, and the closing quote is not directly followed by the
    same quote, then the first span is code and holds the prefix and the
    whole literal, whatever the body contains. *)
Theorem quoted_markers_are_code (q : ascii) (pre body post : str) :
  is_quote q = true ->
  free_of is_quote pre = true -> has_marker pre = false ->
  free_of (ends_or_escapes q) body = true ->
  is_at post 0 q = false ->
  exists rest more,
    _split_comments (literal_text q pre body post)
    = (false, literal_text q pre body rest) :: more.
Proof.
  intros Hq Hpre Hm Hbody Hpost.
  set (sql := literal_text q pre body post).
  set (L := length pre + length body + 2).
  assert (Hlen : length sql = L + length post) by apply literal_length.
  assert (H : literal_inv q pre body post (split_final sql)).
  { unfold split_final. apply (@split_loop_invariant (literal_inv q pre body post) sql).
    - intros st Hn Hst. now apply split_step_literal.
    - left. simpl. repeat split. left. repeat split. lia. }
  pose proof (split_loop_exits sql) as Hex.
  assert (Hcut : forall j, L <= j -> j <= length sql ->
            slice sql 0 j = literal_text q pre body (firstn (j - L) post)).
  { intros j H1 H2. unfold slice. simpl. rewrite Nat.sub_0_r.
    unfold sql, literal_text.
    rewrite firstn_app. f_equal; [apply firstn_all2; lia|].
    replace (j - length pre) with (S (j - length pre - 1)) by lia. simpl. f_equal.
    rewrite firstn_app. f_equal; [apply firstn_all2; lia|].
    replace (j - length pre - 1 - length body) with (S (j - L)) by lia. reflexivity. }
  unfold literal_inv in H. cbv zeta in H. fold sql L in H.
  destruct H as [(_ & _ & [(Hi & _) | (_ & Hi & _)]) | (Hi & Hh)]; [lia | lia |].
  unfold _split_comments. cbv zeta.
  destruct Hh as [[Hs Hc] | (j & more & H1 & H2 & Hs)].
  - rewrite Hs, Hc. replace (0 <? length sql) with true by (symmetry; apply Nat.ltb_lt; lia).
    exists (firstn (length sql - L) post), []. simpl. now rewrite Hcut by lia.
  - rewrite Hs, (Hcut j H1 H2). destruct (_ <? _); eexists; eexists; reflexivity.
Qed.

Lemma quoted_markers_are_code_witness :
  exists rest more,
    _split_comments (literal_text squote (s "SELECT ") (s "a -- b /* c") (s " x -- y"))
    = (false, literal_text squote (s "SELECT ") (s "a -- b /* c") rest) :: more.
Proof.
  apply (@quoted_markers_are_code squote (s "SELECT ") (s "a -- b /* c") (s " x -- y"));
    vm_compute; reflexivity.
Defined.

(** ** Iteration order without effect *)

Lemma distinct_lengthsb_sound (l : list str) :
  distinct_lengthsb l = true -> distinct_lengths l.
Proof.
  unfold distinct_lengthsb. rewrite forallb_forall. intros H x y Hx Hy E.
  specialize (H x Hx). rewrite forallb_forall in H. specialize (H y Hy).
  apply Nat.eqb_eq in E. rewrite E in H. simpl in H. now apply str_eqb_eq.
Qed.

Lemma sorted_perm_unique : forall l1 l2 : list str,
  Permutation l1 l2 -> longest_first l1 -> longest_first l2 -> distinct_lengths l1 ->
  l1 = l2.
Proof.
  induction l1 as [|a t1 IH]; intros l2 Hp H1 H2 Hd.
  - apply Permutation_nil in Hp. now subst.
  - destruct l2 as [|b t2]; [apply Permutation_sym, Permutation_nil in Hp; discriminate|].
    inversion H1 as [|? ? Hs1 Hf1]; subst. inversion H2 as [|? ? Hs2 Hf2]; subst.
    assert (E : a = b).
    { assert (Ha : In a (b :: t2)) by (apply (Permutation_in _ Hp); now left).
      assert (Hb : In b (a :: t1)) by (apply (Permutation_in _ (Permutation_sym Hp)); now left).
      destruct Ha as [Ha | Ha]; [now subst|].
      destruct Hb as [Hb | Hb]; [now subst|].
      rewrite Forall_forall in Hf1, Hf2.
      apply Hd; [now left | now right |].
      specialize (Hf1 b Hb). specialize (Hf2 a Ha). simpl in *. lia. }
    subst b. f_equal. apply IH; [now apply Permutation_cons_inv in Hp | exact Hs1 | exact Hs2 |].
    intros x y Hx Hy. apply Hd; now right.
Qed.

Lemma sorted_len_desc_order_free (l1 l2 : list str) :
  Permutation l1 l2 -> distinct_lengths l1 ->
  sorted_len_desc l1 = sorted_len_desc l2.
Proof.
  intros Hp Hd. apply sorted_perm_unique.
  - rewrite !sorted_len_desc_perm. exact Hp.
  - apply sorted_len_desc_sorted.
  - apply sorted_len_desc_sorted.
  - intros x y Hx Hy. apply Hd; apply (Permutation_in _ (sorted_len_desc_perm l1)); assumption.
Qed.

Lemma set_iter_order_free (o1 o2 : set_order) (l : list str) :
  distinct_lengths l ->
  sorted_len_desc (set_iter o1 l) = sorted_len_desc (set_iter o2 l).
Proof.
  intros Hd. apply sorted_len_desc_order_free.
  - rewrite !set_iter_perm. reflexivity.
  - intros x y Hx Hy. apply Hd; apply (Permutation_in _ (set_iter_perm o1 l)); assumption.
Qed.

Lemma apply_without_schema_order_free (o1 o2 : set_order) (text : str)
    (tables : list str) (table_alias_map col_alias_map : dict) (columns : list str)
    (alias_to_table : option dict) :
  distinct_lengths tables -> distinct_lengths columns ->
  _apply_identifier_replacements o1 text tables table_alias_map col_alias_map columns
                                 alias_to_table []
  = _apply_identifier_replacements o2 text tables table_alias_map col_alias_map columns
                                   alias_to_table [].
Proof.
  intros Ht Hc. unfold _apply_identifier_replacements, apply_in_order. cbv zeta.
  rewrite (set_iter_order_free o1 o2 Ht), (set_iter_order_free o1 o2 Hc). reflexivity.
Qed.

Lemma assemble_ext (f g : str -> str) (segs : list (bool * str)) :
  (forall t, f t = g t) -> assemble f segs = assemble g segs.
Proof.
  intros H. unfold assemble. f_equal. apply map_ext. intros [b t]. simpl.
  now destruct b.
Qed.

(** X24.  Without a schema the output of [canonicalize_sql] does not depend
    on the order in which the interpreter iterates over its sets, provided
    no two collected tables and no two collected columns have the same
    length: [sorted(..., key=len, reverse=True)] then leaves no tie. *)
Theorem generic_output_order_free (o1 o2 : set_order) (sql : str) :
  distinct_lengths (i_tables (generic_names sql)) ->
  distinct_lengths (i_columns (generic_names sql)) ->
  canonicalize_sql o1 sql [] = canonicalize_sql o2 sql [].
Proof.
  intros Ht Hc. unfold canonicalize_sql.
  destruct (is_blank sql); [reflexivity|]. cbv zeta.
  destruct (is_blank _); [reflexivity|].
  apply assemble_ext. intros t. now apply apply_without_schema_order_free.
Qed.

Lemma generic_output_order_free_witness :
  distinct_lengths (i_tables (generic_names (s "SELECT a, bb FROM t JOIN uu ON a = bb")))
  /\ distinct_lengths (i_columns (generic_names (s "SELECT a, bb FROM t JOIN uu ON a = bb")))
  /\ canonicalize_sql insertion_order (s "SELECT a, bb FROM t JOIN uu ON a = bb") []
     = canonicalize_sql reverse_order (s "SELECT a, bb FROM t JOIN uu ON a = bb") [].
Proof.
  assert (Ht : distinct_lengths
                 (i_tables (generic_names (s "SELECT a, bb FROM t JOIN uu ON a = bb"))))
    by (apply distinct_lengthsb_sound; vm_compute; reflexivity).
  assert (Hc : distinct_lengths
                 (i_columns (generic_names (s "SELECT a, bb FROM t JOIN uu ON a = bb"))))
    by (apply distinct_lengthsb_sound; vm_compute; reflexivity).
  split; [exact Ht|]. split; [exact Hc|].
  exact (@generic_output_order_free insertion_order reverse_order
           (s "SELECT a, bb FROM t JOIN uu ON a = bb") Ht Hc).
Defined.

(** X25.  The output of [canonicalize_sql_bird] does not depend on the
    iteration order of the sets either, provided no two collected tables, no
    two collected columns and no two boolean column references have the same
    length. *)
Theorem bird_output_order_free (o1 o2 : set_order) (sql db_id : str)
    (schema_by_db : list (str * schema_t)) :
  distinct_lengths (i_tables (bird_names sql)) ->
  distinct_lengths (i_columns (bird_names sql)) ->
  distinct_lengths (boolean_refs (schema_for db_id schema_by_db)
                                 (i_tables (bird_names sql))
                                 (i_alias_to_table (bird_names sql))) ->
  canonicalize_sql_bird o1 sql db_id schema_by_db
  = canonicalize_sql_bird o2 sql db_id schema_by_db.
Proof.
  intros Ht Hc Hr. unfold canonicalize_sql_bird.
  destruct (is_blank sql); [reflexivity|]. cbv zeta.
  destruct (is_blank _); [reflexivity|].
  fold (bird_names sql).
  assert (E : _build_boolean_col_refs o1 (schema_for db_id schema_by_db)
                (i_tables (bird_names sql)) (i_alias_to_table (bird_names sql))
              = _build_boolean_col_refs o2 (schema_for db_id schema_by_db)
                  (i_tables (bird_names sql)) (i_alias_to_table (bird_names sql))).
  { unfold _build_boolean_col_refs. destruct (schema_for db_id schema_by_db); [reflexivity|].
    now apply set_iter_order_free. }
  rewrite E. apply assemble_ext. intros t. now apply apply_without_schema_order_free.
Qed.

Lemma bird_output_order_free_witness :
  distinct_lengths (i_tables (bird_names (s "SELECT a FROM t WHERE ok = 1")))
  /\ distinct_lengths (i_columns (bird_names (s "SELECT a FROM t WHERE ok = 1")))
  /\ distinct_lengths (boolean_refs (schema_for (s "db") [(s "db", [((s "t", s "ok"), s "boolean")])])
                         (i_tables (bird_names (s "SELECT a FROM t WHERE ok = 1")))
                         (i_alias_to_table (bird_names (s "SELECT a FROM t WHERE ok = 1"))))
  /\ canonicalize_sql_bird insertion_order (s "SELECT a FROM t WHERE ok = 1") (s "db")
       [(s "db", [((s "t", s "ok"), s "boolean")])]
     = canonicalize_sql_bird reverse_order (s "SELECT a FROM t WHERE ok = 1") (s "db")
         [(s "db", [((s "t", s "ok"), s "boolean")])].
Proof.
  assert (Ht : distinct_lengths (i_tables (bird_names (s "SELECT a FROM t WHERE ok = 1"))))
    by (apply distinct_lengthsb_sound; vm_compute; reflexivity).
  assert (Hc : distinct_lengths (i_columns (bird_names (s "SELECT a FROM t WHERE ok = 1"))))
    by (apply distinct_lengthsb_sound; vm_compute; reflexivity).
  assert (Hr : distinct_lengths
                 (boolean_refs (schema_for (s "db") [(s "db", [((s "t", s "ok"), s "boolean")])])
                    (i_tables (bird_names (s "SELECT a FROM t WHERE ok = 1")))
                    (i_alias_to_table (bird_names (s "SELECT a FROM t WHERE ok = 1")))))
    by (apply distinct_lengthsb_sound; vm_compute; reflexivity).
  split; [exact Ht|]. split; [exact Hc|]. split; [exact Hr|].
  exact (@bird_output_order_free insertion_order reverse_order
           (s "SELECT a FROM t WHERE ok = 1") (s "db")
           [(s "db", [((s "t", s "ok"), s "boolean")])] Ht Hc Hr).
Defined.

(** ** Integer literals *)

Lemma run_Wb (ic : bool) (st : mstate) (k : mstate -> option mstate) :
  run ic Wb st k = if at_boundary st then k st else None.
Proof. reflexivity. Qed.

Lemma run_Grp (ic : bool) (n : nat) (a : re) (st : mstate) (k : mstate -> option mstate) :
  run ic (Grp n a) st k
  = run ic a st (fun st' =>
      k (mkM (m_prev st') (m_rest st') (set_cap n (consumed st st') (m_caps st')))).
Proof. reflexivity. Qed.

Lemma eat_fails (test : ascii -> bool) (st : mstate) (k : mstate -> option mstate) :
  begins_without test (m_rest st) = true -> eat test st k = None.
Proof.
  unfold eat, begins_without. destruct (m_rest st) as [|c rest]; [reflexivity|].
  intros H. apply negb_true_iff in H. now rewrite H.
Qed.

Lemma begins_without_weaken (P Q : ascii -> bool) (t : str) :
  within P Q = true -> begins_without P t = true -> begins_without Q t = true.
Proof.
  intros HW. destruct t as [|c t]; [reflexivity|]. simpl.
  intros H. apply negb_true_iff in H. apply negb_true_iff.
  destruct (Q c) eqn:E; [|reflexivity].
  apply (within_spec _ _ _ HW) in E. congruence.
Qed.

Lemma free_begins_without (P : ascii -> bool) (t : str) :
  free_of P t = true -> begins_without P t = true.
Proof.
  destruct t as [|c t]; [reflexivity|]. simpl. intros H. now apply andb_prop in H.
Qed.

Lemma number_pattern_shape :
  p_re number_pattern
  = Seq Wb (Seq (Seq Digit (Star Digit))
              (seq [opt (Chr "."); Star Digit; exponent 1; Wb])).
Proof. reflexivity. Qed.

(** No number starts before a character that is no digit. *)
Lemma number_fails_here (prev : option ascii) (rest : str) :
  begins_without is_digit rest = true -> match_here number_pattern prev rest = None.
Proof.
  intros H. unfold match_here. rewrite number_pattern_shape.
  change (p_icase number_pattern) with false.
  rewrite run_Seq, run_Wb. destruct (at_boundary _); [|reflexivity].
  rewrite !run_Seq. change (run false Digit ?st ?k) with (eat is_digit st k).
  now apply eat_fails.
Qed.

Lemma sub_loop_skip (repl : str) : forall (pre : str) (f : nat) (prev : option ascii) (rest : str),
  free_of is_digit pre = true ->
  sub_loop (length pre + f) number_pattern repl prev (pre ++ rest)
  = pre ++ sub_loop f number_pattern repl (prev_after prev pre) rest.
Proof.
  induction pre as [|c pre IH]; intros f prev rest H; [reflexivity|].
  simpl in H. apply andb_prop in H as [Hc Hp].
  change (length (c :: pre) + f) with (S (length pre + f)).
  change ((c :: pre) ++ rest) with (c :: pre ++ rest).
  cbn [sub_loop]. rewrite number_fails_here by exact Hc.
  rewrite (IH f (Some c) rest Hp). reflexivity.
Qed.

(** The greedy repetition of [\d] reads a whole run of digits. *)
Lemma star_digits (ic : bool) (K : mstate -> option mstate) (post : str)
    (caps : list (nat * str)) (r : mstate) :
  begins_without is_digit post = true ->
  forall (ds : str) (fuel : nat) (prev : option ascii),
    forallb is_digit ds = true -> length ds <= fuel ->
    K (mkM (prev_after prev ds) post caps) = Some r ->
    star_loop (run ic Digit) K fuel (mkM prev (ds ++ post) caps) = Some r.
Proof.
  intros Hpost. induction ds as [|d ds IH]; intros fuel prev Hd Hf HK.
  - simpl in *. destruct fuel as [|f]; [exact HK|]. simpl.
    change (run ic Digit ?st ?k) with (eat is_digit st k).
    rewrite eat_fails by exact Hpost. exact HK.
  - destruct fuel as [|f]; [simpl in Hf; lia|].
    simpl in Hd. apply andb_prop in Hd as [Hd1 Hd2].
    cbn [star_loop]. change (run ic Digit ?st ?k) with (eat is_digit st k).
    unfold eat at 1. cbn [m_rest app]. rewrite Hd1. cbn [m_rest m_caps].
    replace (length (ds ++ post) <? length (d :: ds ++ post)) with true
      by (symmetry; apply Nat.ltb_lt; simpl; lia).
    rewrite (IH f (Some d)); [reflexivity | exact Hd2 | simpl in Hf; lia | exact HK].
Qed.

Lemma digit_is_word (c : ascii) : is_digit c = true -> is_word c = true.
Proof. apply (within_spec is_word is_digit c). vm_compute. reflexivity. Qed.

(** After the digits: no dot, no further digit, no exponent, and a word
    boundary. *)
Lemma number_tail (d : ascii) (post : str) (caps : list (nat * str)) :
  is_digit d = true -> starts_clear post = true ->
  run false (seq [opt (Chr "."); Star Digit; exponent 1; Wb])
      (mkM (Some d) post caps) (fun st => Some st)
  = Some (mkM (Some d) post caps).
Proof.
  intros Hd Hp.
  assert (Hw : begins_without is_word post = true).
  { destruct post as [|c post]; [reflexivity|]. unfold starts_clear in Hp.
    now apply andb_prop in Hp. }
  assert (Hdot : begins_without (char_eq false ".") post = true).
  { destruct post as [|c post]; [reflexivity|]. unfold starts_clear in Hp.
    apply andb_prop in Hp as [_ Hp]. unfold begins_without, char_eq.
    now rewrite Ascii.eqb_sym. }
  rewrite run_seq_cons. unfold opt at 1. rewrite run_Alt.
  change (run false (Chr ".") ?st ?k) with (eat (char_eq false ".") st k).
  rewrite eat_fails by exact Hdot. cbn [or_else]. rewrite run_Eps.
  rewrite run_seq_cons. change (run false (Star Digit) ?st ?k)
    with (star_loop (run false Digit) k (length (m_rest st)) st).
  rewrite (@star_digits false _ post caps (mkM (Some d) post caps)
             (begins_without_weaken is_word is_digit post eq_refl Hw)
             [] (length post) (Some d) eq_refl (Nat.le_0_l _)).
  - reflexivity.
  - cbn [prev_after fold_left]. rewrite run_seq_cons.
    unfold exponent, opt at 1. rewrite run_Alt, run_Grp, run_seq_cons.
    change (run false (Cls false ?items) ?st ?k)
      with (eat (fun x => xorb false (cls_has false items x)) st k).
    rewrite eat_fails.
    2:{ cbn [m_rest]. apply (begins_without_weaken is_word); [vm_compute; reflexivity | exact Hw]. }
    cbn [or_else]. rewrite run_Eps. cbn [seq]. rewrite run_Wb.
    unfold at_boundary. cbn [m_prev m_rest word_opt]. rewrite (digit_is_word _ Hd).
    destruct post as [|c post]; [reflexivity|].
    simpl in Hw. apply negb_true_iff in Hw. cbn [hd_error word_opt]. now rewrite Hw.
Qed.

Lemma prev_after_digits : forall (ds : str) (prev : option ascii),
  ds <> [] -> forallb is_digit ds = true ->
  exists d, prev_after prev ds = Some d /\ is_digit d = true.
Proof.
  induction ds as [|d ds IH]; intros prev Hn Hd; [contradiction|].
  simpl in Hd. apply andb_prop in Hd as [Hd1 Hd2].
  destruct ds as [|d' ds]; [exists d; now split|].
  apply (IH (Some d)); [discriminate | exact Hd2].
Qed.

(** A run of digits between a non-word character and a non-word character
    other than the dot is one match of the number pattern. *)
Lemma number_matches (prev : option ascii) (ds post : str) :
  word_opt prev = false -> ds <> [] -> forallb is_digit ds = true ->
  starts_clear post = true ->
  match_here number_pattern prev (ds ++ post) = Some (mkM (prev_after prev ds) post []).
Proof.
  intros Hprev Hn Hd Hp. destruct ds as [|d ds]; [contradiction|].
  destruct (prev_after_digits prev Hn Hd) as [dl [El Hl]].
  simpl in Hd. apply andb_prop in Hd as [Hd1 Hd2].
  unfold match_here. rewrite number_pattern_shape.
  change (p_icase number_pattern) with false.
  rewrite run_Seq, run_Wb.
  replace (at_boundary (mkM prev ((d :: ds) ++ post) [])) with true.
  2:{ unfold at_boundary. cbn [m_prev m_rest app hd_error word_opt].
      now rewrite Hprev, (digit_is_word _ Hd1). }
  rewrite !run_Seq. change (run false Digit ?st ?k) with (eat is_digit st k).
  unfold eat at 1. cbn [m_rest app]. rewrite Hd1. cbn [m_caps].
  change (run false (Star Digit) ?st ?k)
    with (star_loop (run false Digit) k (length (m_rest st)) st).
  cbn [m_rest].
  assert (Hw : begins_without is_digit post = true).
  { destruct post as [|c post]; [reflexivity|]. simpl in *.
    apply andb_prop in Hp as [Hp _]. apply negb_true_iff in Hp. apply negb_true_iff.
    destruct (is_digit c) eqn:E; [|reflexivity].
    apply digit_is_word in E. congruence. }
  apply (@star_digits false _ post [] _ Hw ds (length (ds ++ post)) (Some d) Hd2).
  - rewrite length_app. lia.
  - change (prev_after (Some d) ds) with (prev_after prev (d :: ds)).
    rewrite El. now apply number_tail.
Qed.

Lemma sub_number (repl pre ds post : str) :
  free_of is_digit pre = true -> free_of is_digit post = true ->
  ds <> [] -> forallb is_digit ds = true ->
  ends_clear pre = true -> starts_clear post = true ->
  sub number_pattern repl (pre ++ ds ++ post) = pre ++ repl ++ post.
Proof.
  intros Hpre Hpost Hn Hd Hec Hsc. unfold sub.
  replace (S (length (pre ++ ds ++ post)))
    with (length pre + S (length (ds ++ post)))
    by (rewrite !length_app; lia).
  rewrite sub_loop_skip by exact Hpre. f_equal.
  cbn [sub_loop]. rewrite number_matches; try assumption.
  2:{ unfold ends_clear in Hec. now apply negb_true_iff in Hec. }
  cbn [m_rest m_prev].
  replace (length post <? length (ds ++ post)) with true.
  2:{ symmetry. apply Nat.ltb_lt. rewrite length_app.
      destruct ds; [contradiction | simpl; lia]. }
  f_equal.
  apply sub_loop_no_match with (Q := fun _ rest => free_of is_digit rest = true);
    [apply free_of_closed | | exact Hpost].
  intros prev rest H. unfold match_here.
  apply (@needs_fail is_digit); [vm_compute; reflexivity | exact H].
Qed.

Lemma free_of_app (P : ascii -> bool) (a b : str) :
  free_of P (a ++ b) = free_of P a && free_of P b.
Proof. apply forallb_app. Qed.

Lemma digits_no_quote (ds : str) :
  forallb is_digit ds = true -> free_of is_quote ds = true.
Proof.
  unfold free_of. rewrite !forallb_forall. intros H c Hc. specialize (H c Hc).
  destruct (is_quote c) eqn:E; [|reflexivity].
  assert (W : within (fun x => negb (is_digit x)) is_quote = true) by (vm_compute; reflexivity).
  apply (within_spec _ _ _ W) in E. rewrite H in E. discriminate.
Qed.

Lemma literal_free_parts (t : str) :
  free_of literal_char t = true -> free_of is_digit t = true /\ free_of is_quote t = true.
Proof.
  intros H. split; (eapply free_of_weaken; [|exact H]); intros c Hc; unfold literal_char;
    rewrite Hc; [reflexivity | apply orb_true_r].
Qed.

Lemma number_passes (d q1 q2 n : str) (pre ds post : str) :
  free_of is_digit n = true ->
  free_of literal_char pre = true -> free_of literal_char post = true ->
  ds <> [] -> forallb is_digit ds = true ->
  ends_clear pre = true -> starts_clear post = true ->
  sub dot_number_pattern n
    (sub number_pattern n
       (sub double_quoted q2 (sub single_quoted q1 (sub date_pattern d (pre ++ ds ++ post)))))
  = pre ++ n ++ post.
Proof.
  intros Hn Hpre Hpost Hne Hd Hec Hsc.
  destruct (literal_free_parts _ Hpre) as [Hpd Hpq].
  destruct (literal_free_parts _ Hpost) as [Hqd Hqq].
  assert (Hq : free_of is_quote (pre ++ ds ++ post) = true).
  { now rewrite !free_of_app, Hpq, Hqq, (digits_no_quote _ Hd). }
  rewrite (@sub_needs is_quote date_pattern); [| vm_compute; reflexivity | exact Hq].
  rewrite (@sub_needs is_quote single_quoted); [| vm_compute; reflexivity | exact Hq].
  rewrite (@sub_needs is_quote double_quoted); [| vm_compute; reflexivity | exact Hq].
  rewrite sub_number by assumption.
  apply (@sub_needs is_digit dot_number_pattern); [vm_compute; reflexivity|].
  now rewrite !free_of_app, Hpd, Hqd, Hn.
Qed.

(** X26.  An unsigned integer becomes the number tag.  In a text with no
    other digit and no quote, a run of digits that stands after a non-word
    character (or at the start) and before a non-word character other than
    the dot (or at the end) is replaced by [NUM] by the generic normalizer,
    and by [num] by the boolean-aware one when there is no boolean column
    reference; the rest of the text is unchanged. *)
Theorem integer_becomes_num (pre digits post : str) :
  free_of literal_char pre = true -> free_of literal_char post = true ->
  digits <> [] -> forallb is_digit digits = true ->
  ends_clear pre = true -> starts_clear post = true ->
  _replace_literals (pre ++ digits ++ post) = pre ++ s "NUM" ++ post
  /\ _replace_literals_bird (pre ++ digits ++ post) [] = pre ++ s "num" ++ post.
Proof.
  intros Hpre Hpost Hne Hd Hec Hsc. split.
  - unfold _replace_literals. cbv zeta. now apply number_passes.
  - unfold _replace_literals_bird. cbv zeta. cbn [fold_left]. now apply number_passes.
Qed.

Lemma integer_becomes_num_witness :
  _replace_literals (s "WHERE x >= " ++ s "42" ++ s " AND y IS NULL")
  = s "WHERE x >= " ++ s "NUM" ++ s " AND y IS NULL"
  /\ _replace_literals_bird (s "WHERE x >= " ++ s "42" ++ s " AND y IS NULL") []
     = s "WHERE x >= " ++ s "num" ++ s " AND y IS NULL".
Proof.
  apply (@integer_becomes_num (s "WHERE x >= ") (s "42") (s " AND y IS NULL"));
    try (vm_compute; reflexivity).
  discriminate.
Defined.

(** ** The scan after a comment *)

Lemma split_loop_app (sql : str) : forall a b st,
  split_loop (a + b) sql st = split_loop b sql (split_loop a sql st).
Proof.
  induction a as [|a IH]; intros b st; [reflexivity|].
  simpl. destruct (Nat.ltb_spec (sc_i st) (length sql)) as [H|H]; [apply IH|].
  destruct b as [|b]; [reflexivity|]. simpl.
  now replace (sc_i st <? length sql) with false by (symmetry; apply Nat.ltb_ge; lia).
Qed.

Lemma is_at_shift (prefix post : str) (i : nat) (c : ascii) :
  is_at (prefix ++ post) (i + length prefix) c = is_at post i c.
Proof.
  unfold is_at. rewrite nth_error_app2 by lia.
  now replace (i + length prefix - length prefix) with i by lia.
Qed.

Lemma slice_shift (prefix post : str) (a b : nat) :
  slice (prefix ++ post) (a + length prefix) (b + length prefix) = slice post a b.
Proof.
  unfold slice. rewrite skipn_app.
  rewrite (skipn_all2 prefix) by lia.
  replace (a + length prefix - length prefix) with a by lia.
  now replace (b + length prefix - (a + length prefix)) with (b - a) by lia.
Qed.

Lemma skip_line_shift (prefix post : str) : forall fuel i,
  skip_line fuel (prefix ++ post) (i + length prefix)
  = skip_line fuel post i + length prefix.
Proof.
  induction fuel as [|f IH]; intros i; [reflexivity|]. simpl.
  rewrite is_at_shift, length_app.
  replace (i + length prefix <? length prefix + length post) with (i <? length post).
  2:{ destruct (Nat.ltb_spec i (length post));
      symmetry; [apply Nat.ltb_lt | apply Nat.ltb_ge]; lia. }
  destruct (_ && _); [|reflexivity].
  replace (i + length prefix + 1) with (i + 1 + length prefix) by lia. apply IH.
Qed.

Lemma skip_block_shift (prefix post : str) : forall fuel i,
  skip_block fuel (prefix ++ post) (i + length prefix)
  = skip_block fuel post i + length prefix.
Proof.
  induction fuel as [|f IH]; intros i; [reflexivity|]. simpl.
  replace (i + length prefix + 2) with (i + 2 + length prefix) by lia.
  rewrite slice_shift, length_app.
  replace (i + length prefix <? length prefix + length post - 1)
    with (i <? length post - 1).
  2:{ destruct (Nat.ltb_spec i (length post - 1));
      symmetry; [apply Nat.ltb_lt | apply Nat.ltb_ge]; lia. }
  destruct (_ && _); [|reflexivity].
  replace (i + length prefix + 1) with (i + 1 + length prefix) by lia. apply IH.
Qed.

Lemma skip_line_more_fuel (sql : str) : forall fuel extra i,
  length sql - i <= fuel -> skip_line (fuel + extra) sql i = skip_line fuel sql i.
Proof.
  induction fuel as [|f IH]; intros extra i H; simpl.
  - destruct extra; simpl; [reflexivity|].
    now replace (i <? length sql) with false by (symmetry; apply Nat.ltb_ge; lia).
  - destruct (_ && _); [apply IH; lia | reflexivity].
Qed.

Lemma skip_block_more_fuel (sql : str) : forall fuel extra i,
  length sql - i <= fuel -> skip_block (fuel + extra) sql i = skip_block fuel sql i.
Proof.
  induction fuel as [|f IH]; intros extra i H; simpl.
  - destruct extra; simpl; [reflexivity|].
    now replace (i <? length sql - 1) with false by (symmetry; apply Nat.ltb_ge; lia).
  - destruct (_ && _); [apply IH; lia | reflexivity].
Qed.

Lemma flush_code_shift (prefix post : str) (segs0 : list (bool * str)) (st : scanner) :
  flush_code (prefix ++ post) (shift_state (length prefix) segs0 st)
  = segs0 ++ flush_code post st.
Proof.
  unfold flush_code, shift_state. cbn [sc_i sc_code_start sc_segments].
  rewrite slice_shift.
  replace (sc_code_start st + length prefix <? sc_i st + length prefix)
    with (sc_code_start st <? sc_i st).
  2:{ destruct (Nat.ltb_spec (sc_code_start st) (sc_i st));
      symmetry; [apply Nat.ltb_lt | apply Nat.ltb_ge]; lia. }
  destruct (_ <? _); [now rewrite app_assoc | reflexivity].
Qed.

(** The scan of the rest of a text runs like the scan of that rest alone. *)
Lemma split_step_shift (prefix post : str) (segs0 : list (bool * str)) (st : scanner) :
  split_step (prefix ++ post) (shift_state (length prefix) segs0 st)
  = shift_state (length prefix) segs0 (split_step post st).
Proof.
  set (k := length prefix).
  assert (Hn : forall a, (length (prefix ++ post) <=? a + k) = (length post <=? a)).
  { intros a. rewrite length_app. fold k.
    destruct (Nat.leb_spec (length post) a);
      [apply Nat.leb_le | apply Nat.leb_gt]; lia. }
  assert (Hm : forall a, (a + k <=? length (prefix ++ post)) = (a <=? length post)).
  { intros a. rewrite length_app. fold k.
    destruct (Nat.leb_spec a (length post));
      [apply Nat.leb_le | apply Nat.leb_gt]; lia. }
  assert (Hl : forall a, (a + k <? length (prefix ++ post)) = (a <? length post)).
  { intros a. rewrite length_app. fold k.
    destruct (Nat.ltb_spec a (length post));
      [apply Nat.ltb_lt | apply Nat.ltb_ge]; lia. }
  assert (Hl1 : forall a, (a + k <? length (prefix ++ post) - 1) = (a <? length post - 1)).
  { intros a. rewrite length_app. fold k.
    destruct (Nat.ltb_spec a (length post - 1));
      [apply Nat.ltb_lt | apply Nat.ltb_ge]; lia. }
  destruct st as [i s1 s2 cs segs].
  unfold split_step.
  cbn [shift_state sc_i sc_in_single sc_in_double sc_code_start sc_segments].
  fold k.
  replace (i + k + 1) with (i + 1 + k) by lia.
  replace (i + k + 2) with (i + 2 + k) by lia.
  replace (i + 1 + k + 1) with (i + 1 + 1 + k) by lia.
  unfold k at 1 2 3 4 5 6 7 8 9 10. rewrite !is_at_shift, !slice_shift. fold k.
  rewrite !Hn, !Hm.
  destruct s1.
  { destruct (_ && _); [reflexivity|]. destruct (is_at post i backslash); reflexivity. }
  destruct s2.
  { destruct (_ && _); [reflexivity|]. destruct (is_at post i backslash); reflexivity. }
  destruct ((i + 2 <=? length post) && str_eqb (slice post i (i + 2)) (s "--")) eqn:E1.
  { apply andb_prop in E1 as [E1 _]. apply Nat.leb_le in E1. cbv zeta.
    change (flush_code (prefix ++ post) _)
      with (flush_code (prefix ++ post) (shift_state (length prefix) segs0
                                           (mkScanner i false false cs segs))).
    rewrite flush_code_shift.
    assert (Ej : skip_line (length (prefix ++ post)) (prefix ++ post) (i + 2 + k)
                 = skip_line (length post) post (i + 2) + k).
    { rewrite length_app. fold k. rewrite (Nat.add_comm k).
      rewrite skip_line_more_fuel by (rewrite length_app; fold k; lia).
      apply skip_line_shift. }
    rewrite Ej. set (j := skip_line (length post) post (i + 2)).
    rewrite Hl. destruct (j <? length post).
    - replace (j + k + 1) with (j + 1 + k) by lia.
      unfold shift_state. cbn [sc_i sc_in_single sc_in_double sc_code_start sc_segments].
      unfold k. rewrite slice_shift. now rewrite <- app_assoc.
    - unfold shift_state. cbn [sc_i sc_in_single sc_in_double sc_code_start sc_segments].
      unfold k. rewrite slice_shift. now rewrite <- app_assoc. }
  destruct ((i + 2 <=? length post) && str_eqb (slice post i (i + 2)) (s "/*")) eqn:E2.
  { apply andb_prop in E2 as [E2 _]. apply Nat.leb_le in E2. cbv zeta.
    change (flush_code (prefix ++ post) _)
      with (flush_code (prefix ++ post) (shift_state (length prefix) segs0
                                           (mkScanner i false false cs segs))).
    rewrite flush_code_shift.
    assert (Ej : skip_block (length (prefix ++ post)) (prefix ++ post) (i + 2 + k)
                 = skip_block (length post) post (i + 2) + k).
    { rewrite length_app. fold k. rewrite (Nat.add_comm k).
      rewrite skip_block_more_fuel by (rewrite length_app; fold k; lia).
      apply skip_block_shift. }
    rewrite Ej. set (j := skip_block (length post) post (i + 2)).
    rewrite Hl1. destruct (j <? length post - 1).
    - replace (j + k + 2) with (j + 2 + k) by lia.
      unfold shift_state. cbn [sc_i sc_in_single sc_in_double sc_code_start sc_segments].
      unfold k. rewrite slice_shift. now rewrite <- app_assoc.
    - replace (length (prefix ++ post)) with (length post + k)
        by (rewrite length_app; fold k; lia).
      unfold shift_state. cbn [sc_i sc_in_single sc_in_double sc_code_start sc_segments].
      unfold k. rewrite slice_shift. now rewrite <- app_assoc. }
  destruct (is_at post i squote && negb false); [reflexivity|].
  destruct (is_at post i dquote && negb false); reflexivity.
Qed.

Lemma split_loop_shift (prefix post : str) (segs0 : list (bool * str)) :
  forall fuel st,
    split_loop fuel (prefix ++ post) (shift_state (length prefix) segs0 st)
    = shift_state (length prefix) segs0 (split_loop fuel post st).
Proof.
  induction fuel as [|f IH]; intros st; [reflexivity|]. simpl.
  rewrite length_app.
  replace (sc_i st + length prefix <? length prefix + length post)
    with (sc_i st <? length post).
  2:{ destruct (Nat.ltb_spec (sc_i st) (length post));
      symmetry; [apply Nat.ltb_lt | apply Nat.ltb_ge]; lia. }
  destruct (_ <? _); [|reflexivity].
  rewrite <- IH. f_equal. apply split_step_shift.
Qed.

Lemma slice_app_left (x y : str) (a b : nat) :
  b <= length x -> slice (x ++ y) a b = slice x a b.
Proof.
  intros H. unfold slice. rewrite skipn_app, firstn_app, length_skipn.
  replace (b - a - (length x - a)) with 0 by lia. simpl. apply app_nil_r.
Qed.

Lemma is_at_app_left (x y : str) (i : nat) (c : ascii) :
  i < length x -> is_at (x ++ y) i c = is_at x i c.
Proof. intros H. unfold is_at. now rewrite nth_error_app1. Qed.

(** Up to the comment the scanner only moves its index. *)
Lemma scan_prefix (pre : str) (c0 : ascii) (rest : str) :
  free_of is_quote pre = true -> has_marker (pre ++ [c0]) = false ->
  forall m, m <= length pre ->
    split_loop m (pre ++ c0 :: rest) split_init = mkScanner m false false 0 [].
Proof.
  intros Hq Hm. induction m as [|m IH]; intros Hle; [reflexivity|].
  replace (S m) with (m + 1) by lia. rewrite split_loop_app, IH by lia.
  cbn [split_loop sc_i].
  replace (m <? length (pre ++ c0 :: rest)) with true
    by (symmetry; apply Nat.ltb_lt; rewrite length_app; simpl; lia).
  unfold split_step. cbn [sc_i sc_in_single sc_in_double sc_code_start sc_segments].
  assert (E : forall mk, str_eqb (slice (pre ++ c0 :: rest) m (m + 2)) mk
                         = str_eqb (slice (pre ++ [c0]) m (m + 2)) mk).
  { intros mk. change (pre ++ c0 :: rest) with (pre ++ [c0] ++ rest).
    rewrite app_assoc, slice_app_left; [reflexivity|].
    rewrite length_app. simpl. lia. }
  rewrite !E.
  rewrite (@no_marker_at (s "--") (pre ++ [c0]) m) by auto.
  rewrite (@no_marker_at (s "/*") (pre ++ [c0]) m) by auto.
  rewrite !andb_false_r.
  rewrite !is_at_app_left by lia.
  rewrite (@is_at_free is_quote pre m squote Hq eq_refl).
  rewrite (@is_at_free is_quote pre m dquote Hq eq_refl).
  reflexivity.
Qed.

Lemma skip_line_run (b : str) : forall (body a : str) (fuel : nat),
  free_of (Ascii.eqb nl) body = true -> length body <= fuel ->
  skip_line fuel (a ++ body ++ nl :: b) (length a) = length a + length body.
Proof.
  induction body as [|x body IH]; intros a fuel Hf Hl.
  - simpl. rewrite Nat.add_0_r. destruct fuel as [|f]; [reflexivity|]. simpl.
    replace (is_at (a ++ nl :: b) (length a) nl) with true.
    + now rewrite andb_false_r.
    + unfold is_at. rewrite nth_error_app2 by lia. rewrite Nat.sub_diag. reflexivity.
  - destruct fuel as [|f]; [simpl in Hl; lia|].
    unfold free_of in Hf. cbn [forallb] in Hf. apply andb_prop in Hf as [Hx Hf].
    fold (free_of (Ascii.eqb nl) body) in Hf.
    cbn [skip_line].
    replace (length a <? length (a ++ (x :: body) ++ nl :: b)) with true
      by (symmetry; apply Nat.ltb_lt; rewrite length_app; simpl; lia).
    replace (is_at (a ++ (x :: body) ++ nl :: b) (length a) nl) with false.
    2:{ unfold is_at. rewrite nth_error_app2 by lia. rewrite Nat.sub_diag.
        cbn [app nth_error]. rewrite Ascii.eqb_sym. apply negb_true_iff in Hx.
        now rewrite Hx. }
    cbn [andb negb].
    replace (a ++ (x :: body) ++ nl :: b) with ((a ++ [x]) ++ body ++ nl :: b)
      by (now rewrite <- app_assoc).
    replace (length a + 1) with (length (a ++ [x])) by (rewrite length_app; simpl; lia).
    rewrite IH; [|exact Hf | simpl in Hl; lia].
    rewrite length_app. simpl. lia.
Qed.

Lemma has_close_tail (x : ascii) (t : str) :
  has_close (x :: t) = false -> has_close t = false.
Proof.
  destruct t as [|y t]; [reflexivity|].
  change (has_close (x :: y :: t))
    with ((Ascii.eqb x "*" && Ascii.eqb y "/") || has_close (y :: t)).
  intros H. now apply orb_false_elim in H.
Qed.

Lemma skip_block_run (b : str) : forall (body a : str) (fuel : nat),
  has_close (body ++ s "*") = false -> length body <= fuel ->
  skip_block fuel (a ++ body ++ s "*/" ++ b) (length a) = length a + length body.
Proof.
  induction body as [|x body IH]; intros a fuel Hf Hl.
  - simpl. rewrite Nat.add_0_r. destruct fuel as [|f]; [reflexivity|]. simpl.
    replace (slice (a ++ "*"%char :: "/"%char :: b) (length a) (length a + 2)) with (s "*/").
    + now rewrite andb_false_r.
    + unfold slice. rewrite skipn_app, skipn_all, Nat.sub_diag.
      now replace (length a + 2 - length a) with 2 by lia.
  - destruct fuel as [|f]; [simpl in Hl; lia|].
    cbn [skip_block].
    replace (length a <? length (a ++ (x :: body) ++ s "*/" ++ b) - 1) with true
      by (symmetry; apply Nat.ltb_lt; rewrite !length_app; simpl; lia).
    replace (str_eqb (slice (a ++ (x :: body) ++ s "*/" ++ b) (length a) (length a + 2))
                     (s "*/")) with false.
    2:{ unfold slice. rewrite skipn_app, skipn_all, Nat.sub_diag.
        replace (length a + 2 - length a) with 2 by lia.
        destruct body as [|y body]; simpl in *.
        - now rewrite andb_false_r.
        - apply orb_false_elim in Hf as [Hf _]. rewrite andb_true_r.
          symmetry. exact Hf. }
    cbn [andb negb].
    replace (a ++ (x :: body) ++ s "*/" ++ b) with ((a ++ [x]) ++ body ++ s "*/" ++ b)
      by (now rewrite <- app_assoc).
    replace (length a + 1) with (length (a ++ [x])) by (rewrite length_app; simpl; lia).
    rewrite IH; [| now apply has_close_tail in Hf | simpl in Hl; lia].
    rewrite length_app. simpl. lia.
Qed.

Lemma slice_middle (a c b : str) :
  slice (a ++ c ++ b) (length a) (length a + length c) = c.
Proof.
  unfold slice. rewrite skipn_app, skipn_all, Nat.sub_diag.
  replace (length a + length c - length a) with (length c) by lia.
  simpl. rewrite firstn_app, firstn_all, Nat.sub_diag. simpl. apply app_nil_r.
Qed.

Lemma slice_prefix (a b : str) : slice (a ++ b) 0 (length a) = a.
Proof.
  unfold slice. simpl. rewrite Nat.sub_0_r, firstn_app, firstn_all, Nat.sub_diag.
  simpl. apply app_nil_r.
Qed.

(** The step at the comment: the code before it and the comment are emitted,
    and the scan stands behind the comment. *)
Lemma comment_step (pre c post : str) :
  complete_comment c ->
  split_step (pre ++ c ++ post) (mkScanner (length pre) false false 0 [])
  = mkScanner (length pre + length c) false false (length pre + length c)
              (code_span pre ++ [(true, c)]).
Proof.
  intros Hc.
  assert (Hflush : flush_code (pre ++ c ++ post) (mkScanner (length pre) false false 0 [])
                   = code_span pre).
  { unfold flush_code. cbn [sc_i sc_code_start sc_segments].
    destruct pre as [|x pre]; [reflexivity|].
    change (0 <? length (x :: pre)) with true. cbv iota.
    now rewrite slice_prefix. }
  assert (Hslice : slice (pre ++ c ++ post) (length pre) (length pre + length c) = c)
    by apply slice_middle.
  unfold split_step. cbn [sc_i sc_in_single sc_in_double sc_code_start sc_segments].
  destruct Hc as [(body & -> & Hb) | (body & -> & Hb)].
  - (* line comment *)
    assert (Hm : slice (pre ++ line_comment_text body ++ post) (length pre) (length pre + 2)
                 = s "--").
    { unfold line_comment_text.
      replace (pre ++ (s "--" ++ body ++ [nl]) ++ post)
        with (pre ++ s "--" ++ (body ++ [nl] ++ post))
        by (now rewrite <- !app_assoc).
      apply (slice_middle pre (s "--")). }
    rewrite Hm.
    replace (length pre + 2 <=? length (pre ++ line_comment_text body ++ post)) with true
      by (symmetry; apply Nat.leb_le; unfold line_comment_text;
          rewrite !length_app; simpl; lia).
    cbn [andb str_eqb]. change (str_eqb (s "--") (s "--")) with true. cbv iota zeta.
    rewrite Hflush.
    assert (Ej : skip_line (length (pre ++ line_comment_text body ++ post))
                   (pre ++ line_comment_text body ++ post) (length pre + 2)
                 = length pre + 2 + length body).
    { unfold line_comment_text.
      replace (pre ++ (s "--" ++ body ++ [nl]) ++ post)
        with ((pre ++ s "--") ++ body ++ nl :: post)
        by (rewrite <- !app_assoc; reflexivity).
      replace (length pre + 2) with (length (pre ++ s "--"))
        by (rewrite length_app; reflexivity).
      apply skip_line_run; [exact Hb|]. rewrite !length_app. simpl. lia. }
    rewrite Ej.
    replace (length pre + 2 + length body
             <? length (pre ++ line_comment_text body ++ post)) with true
      by (symmetry; apply Nat.ltb_lt; unfold line_comment_text;
          rewrite !length_app; simpl; lia).
    replace (length pre + 2 + length body + 1)
      with (length pre + length (line_comment_text body))
      by (unfold line_comment_text; rewrite !length_app; simpl; lia).
    now rewrite Hslice.
  - (* block comment *)
    assert (Hm : slice (pre ++ block_comment_text body ++ post) (length pre) (length pre + 2)
                 = s "/*").
    { unfold block_comment_text.
      replace (pre ++ (s "/*" ++ body ++ s "*/") ++ post)
        with (pre ++ s "/*" ++ (body ++ s "*/" ++ post))
        by (now rewrite <- !app_assoc).
      apply (slice_middle pre (s "/*")). }
    rewrite Hm.
    replace (length pre + 2 <=? length (pre ++ block_comment_text body ++ post)) with true
      by (symmetry; apply Nat.leb_le; unfold block_comment_text;
          rewrite !length_app; simpl; lia).
    cbn [andb]. change (str_eqb (s "/*") (s "--")) with false.
    change (str_eqb (s "/*") (s "/*")) with true. cbv iota zeta.
    rewrite Hflush.
    assert (Ej : skip_block (length (pre ++ block_comment_text body ++ post))
                   (pre ++ block_comment_text body ++ post) (length pre + 2)
                 = length pre + 2 + length body).
    { unfold block_comment_text.
      replace (pre ++ (s "/*" ++ body ++ s "*/") ++ post)
        with ((pre ++ s "/*") ++ body ++ s "*/" ++ post)
        by (rewrite <- !app_assoc; reflexivity).
      replace (length pre + 2) with (length (pre ++ s "/*"))
        by (rewrite length_app; reflexivity).
      apply skip_block_run; [exact Hb|]. rewrite !length_app. simpl. lia. }
    rewrite Ej.
    replace (length pre + 2 + length body
             <? length (pre ++ block_comment_text body ++ post) - 1) with true
      by (symmetry; apply Nat.ltb_lt; unfold block_comment_text;
          rewrite !length_app; simpl; lia).
    replace (length pre + 2 + length body + 2)
      with (length pre + length (block_comment_text body))
      by (unfold block_comment_text; rewrite !length_app; simpl; lia).
    now rewrite Hslice.
Qed.

Lemma complete_comment_cons (c : str) :
  complete_comment c -> exists c0 rest, c = c0 :: rest /\ 2 <= length c.
Proof.
  intros [(body & -> & _) | (body & -> & _)]; eexists; eexists; split;
    try reflexivity; simpl; lia.
Qed.

(** X27.  The scan starts afresh after a comment.  For a text made of a
    prefix without quotes and comment markers, a complete comment (a line
    comment with its line break, or a closed block comment) and any rest,
    the spans are: the prefix as one code span (none when it is empty), the
    comment, and the spans of the rest taken alone. *)
Theorem scan_restarts_after_comment (pre c post : str) :
  free_of is_quote pre = true ->
  has_marker (pre ++ firstn 1 c) = false ->
  complete_comment c ->
  _split_comments (pre ++ c ++ post)
  = code_span pre ++ (true, c) :: _split_comments post.
Proof.
  intros Hq Hm Hc.
  destruct (complete_comment_cons Hc) as (c0 & rest & Ec & Hlen).
  set (K := length pre + length c).
  set (segs0 := code_span pre ++ [(true, c)]).
  assert (Hfinal : split_final (pre ++ c ++ post)
                   = shift_state (length (pre ++ c)) segs0 (split_final post)).
  { unfold split_final.
    replace (length (pre ++ c ++ post))
      with ((length pre + 1) + (length post + (length c - 1)))
      by (rewrite !length_app; lia).
    rewrite split_loop_app. rewrite (split_loop_app _ (length pre) 1).
    assert (E1 : split_loop (length pre) (pre ++ c ++ post) split_init
                 = mkScanner (length pre) false false 0 []).
    { rewrite Ec. change ((c0 :: rest) ++ post) with (c0 :: rest ++ post).
      apply scan_prefix; [exact Hq | | lia].
      rewrite Ec in Hm. exact Hm. }
    rewrite E1. cbn [split_loop sc_i].
    replace (length pre <? length (pre ++ c ++ post)) with true
      by (symmetry; apply Nat.ltb_lt; rewrite !length_app; lia).
    rewrite (comment_step pre post Hc).
    replace (mkScanner (length pre + length c) false false (length pre + length c)
                       (code_span pre ++ [(true, c)]))
      with (shift_state (length (pre ++ c)) segs0 split_init)
      by (unfold shift_state, split_init; simpl; rewrite length_app, app_nil_r; reflexivity).
    rewrite app_assoc, split_loop_shift. f_equal.
    apply split_loop_fuel. simpl. lia. }
  unfold _split_comments. cbv zeta. rewrite Hfinal.
  cbn [shift_state sc_code_start sc_segments].
  set (st := split_final post).
  replace (length (pre ++ c ++ post)) with (length post + length (pre ++ c))
    by (rewrite !length_app; lia).
  replace (sc_code_start st + length (pre ++ c) <? length post + length (pre ++ c))
    with (sc_code_start st <? length post).
  2:{ destruct (Nat.ltb_spec (sc_code_start st) (length post));
      symmetry; [apply Nat.ltb_lt | apply Nat.ltb_ge]; lia. }
  rewrite app_assoc, slice_shift.
  unfold segs0. destruct (_ <? _); rewrite <- !app_assoc; reflexivity.
Qed.

Lemma scan_restarts_after_comment_witness :
  _split_comments (s "SELECT a " ++ block_comment_text (s " x ") ++ s "FROM t -- y")
  = code_span (s "SELECT a ")
    ++ (true, block_comment_text (s " x ")) :: _split_comments (s "FROM t -- y").
Proof.
  apply (@scan_restarts_after_comment (s "SELECT a ") (block_comment_text (s " x "))
           (s "FROM t -- y")).
  - vm_compute. reflexivity.
  - vm_compute. reflexivity.
  - right. exists (s " x "). split; [reflexivity | vm_compute; reflexivity].
Defined.
